(** * internal/cloud/s3.go: streaming a directory tree to and from a bucket

    A shallow embedding of [src/internal/cloud/s3.go] and the properties its
    specification states about it.

    Conventions of the model.
    - A Go [string] is a [string] of bytes; [error] values are the constructors
      of [error], and a nil [error] is [None]. strings.ToLower is modelled on
      ASCII, where it changes 'A'..'Z' only.
    - Paths follow the Unix build of [path/filepath] (separator '/').
    - The local file system written by the extractor is a finite map from
      paths, as handed to the system calls, to nodes; the tree read by the
      walker is an inductive tree. A system call fails as the file tree
      dictates or as a failure injected for it says, and os.Mkdir and
      os.Create clear the bits of the umask of the process, which is a
      parameter.
    - Calls into the AWS SDK, the archiver and the zstd codec are not part of
      the source file: their results are read from an environment record,
      and the model does not decide whether such a call returns.
    - A method is a computation of the calling goroutine over the world: it
      returns, hangs or panics. A [go] statement is recorded with the pipes
      the new goroutine reads and writes; what the goroutine computes is a
      function of its own (the walker, the consumer). The one blocking the
      model decides is that of io.Pipe: a read or write by the calling
      goroutine can only finish when another goroutine holds the other end. *)

From Stdlib Require Import ZArith Ascii String List Lia Bool.
From stdpp Require Import base option list strings gmap.

Open Scope string_scope.

(* ===================================================================== *)
(** ** Go's [strings] and [path/filepath] functions used by the source    *)
(* ===================================================================== *)

(** [s[n:]] for a string. *)
Fixpoint string_drop (n : nat) (s : string) : string :=
  match n, s with
  | O, _ => s
  | S n', String _ s' => string_drop n' s'
  | S _, EmptyString => EmptyString
  end.

(** The first [n] bytes of [s]: [s[:n]], all of [s] when it is shorter. *)
Fixpoint string_take (n : nat) (s : string) : string :=
  match n, s with
  | S n', String c s' => String c (string_take n' s')
  | _, _ => EmptyString
  end.

(** strings.HasPrefix: [len(s) >= len(prefix) && s[:len(prefix)] == prefix]. *)
Definition HasPrefix (s prefix : string) : bool :=
  Nat.leb (String.length prefix) (String.length s)
  && String.eqb (substring 0 (String.length prefix) s) prefix.

(** strings.TrimPrefix: [s] without the leading [prefix]; [s] itself when it
    does not start with [prefix]. *)
Definition TrimPrefix (s prefix : string) : string :=
  if HasPrefix s prefix then string_drop (String.length prefix) s else s.

(** The ASCII path of strings.ToLower: 'A'..'Z' are shifted by 'a' - 'A',
    every other byte is kept. *)
Definition lower_byte (c : ascii) : ascii :=
  let n := nat_of_ascii c in
  if Nat.leb 65 n && Nat.leb n 90 then ascii_of_nat (n + 32) else c.

Fixpoint ToLower (s : string) : string :=
  match s with
  | EmptyString => EmptyString
  | String c s' => String (lower_byte c) (ToLower s')
  end.

Definition is_slash (c : ascii) : bool := Ascii.eqb c "/".

(** filepath.Ext: scan from the last byte towards the first, stop at a
    separator, return the suffix starting at the first '.' met. [suffix] is
    [path[i+1:]]. *)
Fixpoint Ext_scan (rev_path : list ascii) (suffix : string) : string :=
  match rev_path with
  | [] => EmptyString
  | c :: r =>
      if is_slash c then EmptyString
      else if Ascii.eqb c "." then String c suffix
      else Ext_scan r (String c suffix)
  end.

Definition Ext (path : string) : string :=
  Ext_scan (rev (list_ascii_of_string path)) EmptyString.

(** strings.ReplaceAll restricted to single bytes, as filepath.ToSlash uses it. *)
Fixpoint replace_byte (old new : ascii) (s : string) : string :=
  match s with
  | EmptyString => EmptyString
  | String c s' => String (if Ascii.eqb c old then new else c) (replace_byte old new s')
  end.

(** filepath.ToSlash for a platform whose separator is [sep]: the identity
    when [sep] is '/', otherwise every [sep] becomes '/'. *)
Definition ToSlash (sep : ascii) (path : string) : string :=
  if Ascii.eqb sep "/" then path else replace_byte sep "/" path.

(** The separator of the platform the model is built for. *)
Definition Separator : ascii := "/"%char.

(** strings.FieldsFunc: the maximal runs of bytes that do not satisfy [f].
    [cur] is the field being read ([start >= 0] in the Go loop), [None]
    between fields. *)
Fixpoint FieldsFunc_go (f : ascii -> bool) (cur : option string) (s : string)
  : list string :=
  match s with
  | EmptyString => match cur with Some w => [w] | None => [] end
  | String c s' =>
      if f c then
        match cur with
        | Some w => w :: FieldsFunc_go f None s'
        | None => FieldsFunc_go f None s'
        end
      else
        FieldsFunc_go f (Some (match cur with
                              | Some w => w +:+ String c EmptyString
                              | None => String c EmptyString
                              end)) s'
  end.

Definition FieldsFunc (s : string) (f : ascii -> bool) : list string :=
  FieldsFunc_go f None s.

(** strings.Join. *)
Fixpoint strings_Join (elems : list string) (sep : string) : string :=
  match elems with
  | [] => EmptyString
  | [e] => e
  | e :: rest => e +:+ sep +:+ strings_Join rest sep
  end.

(** One path element of filepath.Clean. [out] holds the elements kept so
    far, last one first. "." is dropped; ".." removes the last kept element,
    is itself kept at the front of a relative path, and is dropped at the
    front of a rooted one. *)
Definition clean_step (rooted : bool) (out : list string) (elem : string)
  : list string :=
  if String.eqb elem "." then out
  else if String.eqb elem ".." then
    match out with
    | top :: rest => if String.eqb top ".." then elem :: out else rest
    | [] => if rooted then [] else [elem]
    end
  else elem :: out.

(** filepath.Clean (Unix): empty elements and "." vanish, ".." is resolved
    lexically, the empty result is ".". *)
Definition Clean (path : string) : string :=
  match path with
  | EmptyString => "."
  | String c _ =>
      let rooted := is_slash c in
      let out := fold_left (clean_step rooted) (FieldsFunc path is_slash) [] in
      let body := strings_Join (rev out) "/" in
      if rooted then "/" +:+ body
      else if String.eqb body "" then "." else body
  end.

(** filepath.Join: leading empty elements are skipped, the rest is joined
    with the separator and cleaned; all-empty gives "". *)
Fixpoint filepath_Join (elem : list string) : string :=
  match elem with
  | [] => EmptyString
  | e :: rest =>
      if String.eqb e "" then filepath_Join rest
      else Clean (strings_Join elem "/")
  end.

(* ===================================================================== *)
(** ** Errors                                                             *)
(* ===================================================================== *)

(** The [error] values the source can produce or pass on. The errno
    constructors stand for the [*fs.PathError] values of package [os]. *)
Inductive error : Type :=
| EOF                                      (* io.EOF *)
| ErrUnexpectedEOF                         (* io.ErrUnexpectedEOF *)
| ErrClosedPipe                            (* io.ErrClosedPipe *)
| ENOENT                                   (* no such file or directory *)
| EEXIST                                   (* file exists *)
| ENOTDIR                                  (* not a directory *)
| EISDIR                                   (* is a directory *)
| EACCES                                   (* permission denied *)
| ErrUnknownExtension (s3FilePath : string) (* "unknown extension for %v" *)
| ErrUnexpectedPath (path : string)        (* "unexpected path: %v" *)
| ErrIncorrectPath                         (* "incorrect path" *)
| ErrNilFileInfo                           (* a nil fs.FileInfo was used *)
| ErrRemote (msg : string)                 (* an error of the AWS SDK *)
| ErrCodec (msg : string).                 (* an error of a codec *)

#[global] Instance error_eq_dec : EqDecision error.
Proof. solve_decision. Defined.

(** [errors.Is(err, os.ErrNotExist)]. *)
Definition is_ErrNotExist (e : error) : bool :=
  match e with ENOENT => true | _ => false end.

(** [err == io.EOF]. *)
Definition is_EOF (err : option error) : bool :=
  match err with Some EOF => true | _ => false end.

(* ===================================================================== *)
(** ** File modes, archive entries, the local file system                 *)
(* ===================================================================== *)

(** fs.FileMode is a uint32: bit 31 is ModeDir, the low nine bits are the
    Unix permission bits. *)
Definition ModeDir : Z := Z.shiftl 1 31.
Definition ModePerm : Z := 511.                       (* 0o777 *)
Definition Perm (m : Z) : Z := Z.land m ModePerm.     (* FileMode.Perm *)
Definition mode_IsDir (m : Z) : bool := Z.testbit m 31. (* FileMode.IsDir *)

(** What the source uses of an [archiver.File]: [f.Name()], [f.Mode()]
    (with [f.IsDir()] read from it) and the content stream. [ReadErr] is the
    error the stream ends with when it cannot be read to its end. *)
Record File : Type := mkFile {
  Name : string;
  Mode : Z;
  Content : string;
  ReadErr : option error
}.

Definition IsDir (f : File) : bool := mode_IsDir (Mode f).

#[global] Instance File_eq_dec : EqDecision File.
Proof. solve_decision. Defined.

(** A node of the local file system with its permission bits. *)
Inductive fnode : Type :=
| Directory (perm : Z)
| Regular (perm : Z) (content : string).

#[global] Instance fnode_eq_dec : EqDecision fnode.
Proof. solve_decision. Defined.

(** The system calls of package [os] and [path/filepath] the source makes. *)
Inductive syscall : Type :=
| SysStat | SysLstat | SysOpen | SysReadDir | SysMkdir | SysCreate.

(** What the operating system adds to the file tree: failures injected into
    system calls (permission denied and the like), by call and path, where
    [None] says that the call behaves as the file tree dictates; and the
    umask of the process, whose bits os.Mkdir and os.Create clear in the
    mode of what they make. A value [flt] of this type is applied to a call
    and a path as the function [fault flt]. *)
Record faults : Type := mkFaults {
  fault :> syscall -> string -> option error;
  umask : Z
}.

(** No call fails; the umask is 0. *)
Definition no_faults : faults := mkFaults (fun _ _ => None) 0.

(** No call fails; the umask is 022, as a shell gives it to a process. *)
Definition usual_umask : faults := mkFaults (fun _ _ => None) 18.

(** The directory a path lives in: the path without its last element. *)
Definition parent_dir (path : string) : string :=
  let rooted := match path with String c _ => is_slash c | _ => false end in
  let dir := strings_Join (rev (tail (rev (FieldsFunc path is_slash)))) "/" in
  if rooted then "/" +:+ dir
  else if String.eqb dir "" then "." else dir.

(** Why the directory a path lives in cannot be searched, if so: ENOTDIR
    when that directory, or the nearest ancestor that is there, is a regular
    file; ENOENT when it is missing below a directory. [fuel] bounds the
    climb by the length of the path. *)
Fixpoint parent_error_go (fuel : nat) (fs : gmap string fnode) (path : string)
  : option error :=
  if String.eqb path "" then Some ENOENT
  else match fs !! parent_dir path with
       | Some (Directory _) => None
       | Some (Regular _ _) => Some ENOTDIR
       | None =>
           match fuel with
           | O => Some ENOENT
           | S fuel' =>
               match parent_error_go fuel' fs (parent_dir path) with
               | Some ENOTDIR => Some ENOTDIR
               | _ => Some ENOENT
               end
           end
       end.

Definition parent_error (fs : gmap string fnode) (path : string) : option error :=
  parent_error_go (String.length path) fs path.

(** os.Stat: the node at [path]; when there is none, ENOTDIR if an ancestor
    of the path is a regular file and ENOENT otherwise. *)
Definition os_Stat (flt : faults) (fs : gmap string fnode) (path : string)
  : fnode + error :=
  match flt SysStat path with
  | Some e => inr e
  | None =>
      match fs !! path with
      | Some n => inl n
      | None =>
          match parent_error fs path with
          | Some ENOTDIR => inr ENOTDIR
          | _ => inr ENOENT
          end
      end
  end.

(** os.Mkdir(name, perm): the directory gets the bits of [perm] that the
    umask of the process does not clear. *)
Definition os_Mkdir (flt : faults) (fs : gmap string fnode) (name : string) (perm : Z)
  : option error * gmap string fnode :=
  match flt SysMkdir name with
  | Some e => (Some e, fs)
  | None =>
      match fs !! name with
      | Some _ => (Some EEXIST, fs)
      | None =>
          match parent_error fs name with
          | Some e => (Some e, fs)
          | None => (None, <[name := Directory (Z.ldiff perm (umask flt))]> fs)
          end
      end
  end.

(** os.Create(name): open with O_RDWR|O_CREATE|O_TRUNC and mode 0666. An
    existing regular file is truncated and keeps its mode; a new one gets
    the bits of 0666 that the umask of the process does not clear. *)
Definition os_Create (flt : faults) (fs : gmap string fnode) (name : string)
  : option error * gmap string fnode :=
  match flt SysCreate name with
  | Some e => (Some e, fs)
  | None =>
      match fs !! name with
      | Some (Directory _) => (Some EISDIR, fs)
      | Some (Regular perm _) => (None, <[name := Regular perm ""]> fs)
      | None =>
          match parent_error fs name with
          | Some e => (Some e, fs)
          | None => (None, <[name := Regular (Z.ldiff 438 (umask flt)) ""]> fs)
          end
      end
  end.

(** Writing [data] at the end of the open file [name]. *)
Definition file_append (fs : gmap string fnode) (name data : string)
  : gmap string fnode :=
  match fs !! name with
  | Some (Regular perm old) => <[name := Regular perm (old +:+ data)]> fs
  | _ => fs
  end.

(** func Exists(path string) bool *)
Definition Exists (flt : faults) (fs : gmap string fnode) (path : string) : bool :=
  match os_Stat flt fs path with
  | inr err => negb (is_ErrNotExist err)
  | inl _ => true
  end.

(** Lines 313-325 of uncompressFile: the local path of an entry. [None] is
    the "incorrect path" return. *)
Definition localFile_of (localRootDirectory name : string) : option string :=
  let splitFn := fun c : ascii => Ascii.eqb c "/" in
  let paths := FieldsFunc name splitFn in
  if Nat.eqb (List.length paths) 0 then None
  else
    let paths := <[0%nat := localRootDirectory]> paths in
    Some (filepath_Join paths).

(** func uncompressFile(localRootDirectory string, f archiver.File) error.
    The deferred [f.Close()] and [outFile.Close()] release handles and
    change nothing the model records. *)
Definition uncompressFile (flt : faults) (localRootDirectory : string) (f : File)
    (fs : gmap string fnode) : option error * gmap string fnode :=
  match localFile_of localRootDirectory (Name f) with
  | None => (Some ErrIncorrectPath, fs)
  | Some localFile =>
      if IsDir f then
        if negb (Exists flt fs localFile) then
          os_Mkdir flt fs localFile (Perm (Mode f))
        else (None, fs)
      else
        match os_Create flt fs localFile with
        | (Some err, fs') => (Some err, fs')
        | (None, fs') =>
            (* io.Copy(outFile, f) *)
            (ReadErr f, file_append fs' localFile (Content f))
        end
  end.

Definition cwd_only : gmap string fnode := {[ "." := Directory 493 ]}.

(* ===================================================================== *)
(** ** The directory walker of UploadCompressedDirectory                  *)
(* ===================================================================== *)

(** The tree below a path, as os.Lstat and the sorted directory listing of
    filepath.Walk present it: permission bits, and content or children. *)
#[warning="-register-all"]
Inductive tree : Type :=
| TFile (perm : Z) (content : string)
| TDir (perm : Z) (children : list (string * tree)).

(** info.Mode() of a node. *)
Definition tree_Mode (t : tree) : Z :=
  match t with
  | TFile p _ => Perm p
  | TDir p _ => Z.lor ModeDir (Perm p)
  end.

Definition tree_Content (t : tree) : string :=
  match t with
  | TFile _ c => c
  | TDir _ _ => ""
  end.

(** filepath.walk: the callback sees a node before its children, children
    in the order of the listing; the first error returned ends the walk.
    [fn path info err s] is the callback with the caller's state [s]. (The
    callback of the source never returns filepath.SkipDir.) *)
Fixpoint walk {S : Type} (flt : faults)
    (fn : string -> option tree -> option error -> S -> option error * S)
    (path : string) (info : tree) (s : S) {struct info} : option error * S :=
  match info with
  | TFile _ _ => fn path (Some info) None s
  | TDir _ children =>
      let err := flt SysReadDir path in
      let '(err1, s1) := fn path (Some info) err s in
      if bool_decide (err <> None) || bool_decide (err1 <> None) then (err1, s1)
      else
        (fix walk_names (names : list (string * tree)) (s : S) {struct names}
           : option error * S :=
           match names with
           | [] => (None, s)
           | (name, fileInfo) :: rest =>
               let filename := filepath_Join [path; name] in
               match flt SysLstat filename with
               | Some e =>
                   match fn filename None (Some e) s with
                   | (Some e', s') => (Some e', s')
                   | (None, s') => walk_names rest s'
                   end
               | None =>
                   match walk flt fn filename fileInfo s with
                   | (Some e', s') => (Some e', s')
                   | (None, s') => walk_names rest s'
                   end
               end
           end) children s1
  end.

(** filepath.Walk(root, fn). [lstat root] is the tree os.Lstat finds at
    [root], if any. *)
Definition filepath_Walk {S : Type} (flt : faults) (lstat : string -> option tree)
    (fn : string -> option tree -> option error -> S -> option error * S)
    (root : string) (s : S) : option error * S :=
  match flt SysLstat root with
  | Some e => fn root None (Some e) s
  | None =>
      match lstat root with
      | None => fn root None (Some ENOENT) s
      | Some info => walk flt fn root info s
      end
  end.

(** Lines 151-158: the name an entry is archived under. [inl] is the
    "unexpected path" return. ([customName[0]] is read from a string that is
    not empty: ToSlash keeps the length.) *)
Definition customName_of (sep : ascii) (localDirectoy path : string) : error + string :=
  let customName := TrimPrefix path localDirectoy in
  if Nat.eqb (String.length customName) 0 then inl (ErrUnexpectedPath path)
  else
    let customName := ToSlash sep customName in
    match customName with
    | String c _ =>
        if negb (Ascii.eqb c "/") then inr ("/" +:+ customName) else inr customName
    | EmptyString => inr customName
    end.

(** compression.Write(f): the entry is appended to the archive being
    written, unless the writer fails on it. *)
Definition compression_Write (write_err : File -> option error) (f : File)
    (archive : list File) : option error * list File :=
  match write_err f with
  | Some e => (Some e, archive)
  | None => (None, (archive ++ [f])%list)
  end.

(** Lines 140-167: the callback handed to filepath.Walk. The state is the
    list of entries written to the archive so far. *)
Definition walkFn (flt : faults) (write_err : File -> option error)
    (localDirectoy : string)
    (path : string) (info : option tree) (err : option error)
    (archive : list File) : option error * list File :=
  match err with
  | Some e => (Some e, archive)
  | None =>
      match flt SysOpen path with            (* f, err := os.Open(path) *)
      | Some e => (Some e, archive)
      | None =>
          match customName_of Separator localDirectoy path with
          | inl e => (Some e, archive)
          | inr customName =>
              match info with
              | None => (Some ErrNilFileInfo, archive)
              | Some info =>
                  compression_Write write_err
                    {| Name := customName; Mode := tree_Mode info;
                       Content := tree_Content info; ReadErr := None |}
                    archive
              end
          end
      end
  end.

(** Lines 139-172: the goroutine that walks [localDirectoy]. It returns the
    error it sends on [errorChannel] and the entries it wrote before
    [compression.Close()]. *)
Definition walker_stage (flt : faults) (lstat : string -> option tree)
    (write_err : File -> option error) (localDirectoy : string)
  : option error * list File :=
  filepath_Walk flt lstat (walkFn flt write_err localDirectoy) localDirectoy [].

(** The tree of the specification's scenario: root/a.txt holding "hi" and
    the empty directory root/sub. *)
Definition scenario_tree : tree :=
  TDir 493 [("a.txt", TFile 420 "hi"); ("sub", TDir 493 [])].

Definition scenario_lstat (path : string) : option tree :=
  if String.eqb path "root" then Some scenario_tree else None.

(* ===================================================================== *)
(** ** The consumer goroutine of DownloadCompressedDirectory              *)
(* ===================================================================== *)

(** Lines 258-268: the loop of the goroutine. [compression.Read()] yields
    the files [entries] one by one and then fails with [ending] (io.EOF at
    the end of a well-formed archive). [err] is the variable declared by
    [var err error] before the loop. The statement
    [f, err := compression.Read()] declares a new [f] and a new [err] in the
    block of the loop body; [err = uncompressFile(...)] assigns to that inner
    variable. Both [break]s leave the loop with the outer [err] as the loop
    found it. *)
Fixpoint consumer_loop (flt : faults) (localRootDirectory : string)
    (entries : list File) (ending : error) (err : option error)
    (fs : gmap string fnode) : option error * gmap string fnode :=
  match entries with
  | [] =>
      (* f, err := compression.Read() gives the inner err = ending *)
      (err, fs)                           (* break *)
  | f :: rest =>
      let '(err_inner, fs') := uncompressFile flt localRootDirectory f fs in
      match err_inner with
      | Some _ => (err, fs')              (* break *)
      | None => consumer_loop flt localRootDirectory rest ending err fs'
      end
  end.

(** Lines 256-276: the goroutine. The result is the value sent on
    [errorChannel] and the file system the goroutine leaves. *)
Definition consumer_stage (flt : faults) (localRootDirectory : string)
    (entries : list File) (ending : error) (fs : gmap string fnode)
  : option error * gmap string fnode :=
  let err : option error := None in                      (* var err error *)
  let '(err, fs') := consumer_loop flt localRootDirectory entries ending err fs in
  (* in.Close() *)
  let err := if is_EOF err then None else err in
  (err, fs').

(* ===================================================================== *)
(** ** Sessions, the world, and the calling goroutine                     *)
(* ===================================================================== *)

(** A value of type context.CancelFunc as the session stores it. *)
Inductive CancelFunc : Type :=
| NilFunc                  (* the zero value; calling it panics *)
| NoOp                     (* func() {} *)
| CtxCancel (ctx : nat).   (* the cancel function of the context [ctx] *)

#[global] Instance CancelFunc_eq_dec : EqDecision CancelFunc.
Proof. solve_decision. Defined.

(** type AWSSession struct (the SDK session [s] and the mutex [m] carry no
    state the model reads). *)
Record AWSSession : Type := mkSession {
  bucket : string;
  cancel : CancelFunc
}.

(** An object of the bucket: the bytes of an uploaded file, or an archive
    known by the entries it holds. *)
Inductive object : Type :=
| FileObject (content : string)
| ArchiveObject (entries : list File) (ending : error).

(** The goroutines the source starts. *)
Inductive stage : Type := BridgeStage | WalkerStage | ConsumerStage.

#[global] Instance stage_eq_dec : EqDecision stage.
Proof. solve_decision. Defined.

(** What the calling goroutine does that is visible outside its own
    variables, in program order. *)
Inductive event : Type :=
| EvOpen (path : string)        (* os.Open *)
| EvCreate (path : string)      (* os.Create *)
| EvCodec                       (* Create, Open, NewWriter or NewReader of a codec *)
| EvGo (g : stage)              (* go func() { ... }() *)
| EvCopy                        (* io.Copy run by the calling goroutine *)
| EvInstall (ctx : nat)         (* a.cancel = cancel, under the lock *)
| EvCancel                      (* a.Cancel() *)
| EvPut (key : string)          (* uploader.UploadWithContext *)
| EvGet (key : string)          (* downloader.DownloadWithContext *)
| EvCloseReader (p : nat)       (* Close on the read end of pipe p *)
| EvCloseWriter (p : nat)       (* Close on the write end of pipe p *)
| EvRecv                        (* <-errorChannel *)
| EvCredentials.                (* Credentials.GetWithContext *)

#[global] Instance event_eq_dec : EqDecision event.
Proof. solve_decision. Defined.

(** An io.Pipe as the calling goroutine sees it: whether some other
    goroutine has been started that reads from it, or writes to it. *)
Record pipe : Type := mkPipe {
  has_reader : bool;
  has_writer : bool
}.

(** Everything outside the source file, given: injected system-call
    failures, the tree the walker finds, and the results of the calls into
    the archiver, the zstd codec and the AWS SDK. *)
Record env : Type := mkEnv {
  flt : faults;
  lstat : string -> option tree;
  write_err : File -> option error;       (* compression.Write *)
  create_err : option error;              (* compression.Create *)
  open_err : option error;                (* compression.Open *)
  newwriter_err : option error;           (* zstd.NewWriter *)
  newreader_err : option error;           (* zstd.NewReader *)
  put_err : option error;                 (* UploadWithContext *)
  get_err : option error;                 (* DownloadWithContext *)
  get_progress : nat;                     (* entries delivered before a failing get stops *)
  get_bytes : nat;                        (* bytes DownloadFile gets before a failing get stops *)
  credentials : string * option error;    (* GetWithContext *)
  encode : list File -> error -> string;  (* the bytes of an archive *)
  decode : string -> list File * error    (* what an archive reader makes of bytes *)
}.

(** The mutable world. *)
Record state : Type := mkState {
  sess : AWSSession;                  (* the session [a] points to *)
  contexts : nat;                     (* contexts created so far *)
  cancelled : gset nat;               (* contexts whose cancel function ran *)
  local : gmap string fnode;          (* the local file system *)
  remote : gmap string object;        (* the bucket *)
  pipes : list pipe;                  (* the pipes made so far *)
  trace : list event                  (* events of the calling goroutine *)
}.

(** How a call ends for the calling goroutine. *)
Inductive outcome (A : Type) : Type :=
| Returns (a : A)
| Hangs             (* blocked for ever *)
| Panics.
Arguments Returns {A} a.
Arguments Hangs {A}.
Arguments Panics {A}.

Definition M (A : Type) : Type := state -> outcome A * state.

Definition ret {A : Type} (a : A) : M A := fun s => (Returns a, s).

Definition bind {A B : Type} (m : M A) (k : A -> M B) : M B :=
  fun s =>
    match m s with
    | (Returns a, s') => k a s'
    | (Hangs, s') => (Hangs, s')
    | (Panics, s') => (Panics, s')
    end.

Notation "x <- m ;; k" := (bind m (fun x => k))
  (at level 100, m at level 90, right associativity).
Notation "m ;;; k" := (bind m (fun _ => k))
  (at level 100, right associativity).

(** [defer d] followed by [body]: [d] runs when [body] returns. *)
Definition defer {A : Type} (d : M unit) (body : M A) : M A :=
  a <- body ;; d ;;; ret a.

Definition set_sess (a : AWSSession) (s : state) : state :=
  mkState a (contexts s) (cancelled s) (local s) (remote s) (pipes s) (trace s).
Definition set_contexts (n : nat) (s : state) : state :=
  mkState (sess s) n (cancelled s) (local s) (remote s) (pipes s) (trace s).
Definition set_cancelled (c : gset nat) (s : state) : state :=
  mkState (sess s) (contexts s) c (local s) (remote s) (pipes s) (trace s).
Definition set_local (l : gmap string fnode) (s : state) : state :=
  mkState (sess s) (contexts s) (cancelled s) l (remote s) (pipes s) (trace s).
Definition set_remote (r : gmap string object) (s : state) : state :=
  mkState (sess s) (contexts s) (cancelled s) (local s) r (pipes s) (trace s).
Definition set_pipes (p : list pipe) (s : state) : state :=
  mkState (sess s) (contexts s) (cancelled s) (local s) (remote s) p (trace s).
Definition set_trace (t : list event) (s : state) : state :=
  mkState (sess s) (contexts s) (cancelled s) (local s) (remote s) (pipes s) t.

Definition emit (e : event) : M unit :=
  fun s => (Returns tt, set_trace (trace s ++ [e])%list s).

(** in, out := io.Pipe(): the new pipe's index. Nothing is read or written. *)
Definition io_Pipe : M nat :=
  fun s => (Returns (List.length (pipes s)),
            set_pipes (pipes s ++ [mkPipe false false])%list s).

Definition mark_reader (s : state) (p : nat) : state :=
  match pipes s !! p with
  | Some (mkPipe _ w) => set_pipes (<[p := mkPipe true w]> (pipes s)) s
  | None => s
  end.
Definition mark_writer (s : state) (p : nat) : state :=
  match pipes s !! p with
  | Some (mkPipe r _) => set_pipes (<[p := mkPipe r true]> (pipes s)) s
  | None => s
  end.

(** go func() { ... }(): the goroutine [g] starts; it reads the pipes
    [reads] and writes the pipes [writes]. *)
Definition go (g : stage) (reads writes : list nat) : M unit :=
  fun s =>
    let s := fold_left mark_reader reads s in
    let s := fold_left mark_writer writes s in
    (Returns tt, set_trace (trace s ++ [EvGo g])%list s).

(** A read from pipe [p] by the calling goroutine. A pipe has no buffer:
    the read returns only when another goroutine writes or closes the write
    end, so it blocks for ever when no goroutine holding that end exists. *)
Definition caller_reads (p : nat) : M unit :=
  fun s =>
    match pipes s !! p with
    | Some (mkPipe _ true) => (Returns tt, s)
    | _ => (Hangs, s)
    end.

(** A write to pipe [p] by the calling goroutine: it returns only when
    another goroutine reads or closes the read end. *)
Definition caller_writes (p : nat) : M unit :=
  fun s =>
    match pipes s !! p with
    | Some (mkPipe true _) => (Returns tt, s)
    | _ => (Hangs, s)
    end.

(** ctx, cancel := context.WithCancel(context.Background()) *)
Definition context_WithCancel : M nat :=
  fun s => (Returns (contexts s), set_contexts (S (contexts s)) s).

(** Lines 176-179 and their copies in the other methods:
    a.m.Lock(); ctx, cancel := context.WithCancel(...); a.cancel = cancel;
    a.m.Unlock(). *)
Definition install_cancel : M nat :=
  ctx <- context_WithCancel ;;
  (fun s => (Returns tt,
             set_sess (mkSession (bucket (sess s)) (CtxCancel ctx)) s)) ;;;
  emit (EvInstall ctx) ;;;
  ret ctx.

(** Calling a value of type context.CancelFunc. *)
Definition call_cancel (f : CancelFunc) : M unit :=
  fun s =>
    match f with
    | NilFunc => (Panics, s)
    | NoOp => (Returns tt, s)
    | CtxCancel ctx => (Returns tt, set_cancelled ({[ctx]} ∪ cancelled s) s)
    end.

(** func (a *AWSSession) Cancel() *)
Definition Cancel : M unit :=
  f <- (fun s => (Returns (cancel (sess s)), s)) ;;
  call_cancel f ;;;                                          (* a.cancel() *)
  (fun s => (Returns tt, set_sess (mkSession (bucket (sess s)) NoOp) s)) ;;;
  emit EvCancel.

(** func NewAWSSession(...): [new_session_err] is the result of
    session.NewSession; the credentials built from [akid] and [secret] go
    into the SDK session, which the model does not look into. *)
Definition NewAWSSession (new_session_err : option error)
    (akid secret endpoint region bucket : string) : option AWSSession * option error :=
  match new_session_err with
  | Some err => (None, Some err)
  | None => (Some (mkSession bucket NoOp), None)
  end.

(** func NewAWSSessionFromEnvironment(): [getenv] is os.Getenv. *)
Definition NewAWSSessionFromEnvironment (new_session_err : option error)
    (getenv : string -> string) : option AWSSession * option error :=
  NewAWSSession new_session_err "" "" (getenv "AWS_S3_ENDPOINT")
    (getenv "AWS_S3_REGION") (getenv "AWS_S3_BUCKET").

(** func (a *AWSSession) GetBucket() string *)
Definition GetBucket (a : AWSSession) : string := bucket a.

(** func (fw fakeWriterAt) WriteAt(p []byte, offset int64): the offset is
    ignored and [p] goes to the writer [fw.w], whose Write is [w_Write]. *)
Definition WriteAt {R : Type} (w_Write : string -> R) (p : string) (offset : Z) : R :=
  w_Write p.

(* ===================================================================== *)
(** ** The methods of AWSSession                                          *)
(* ===================================================================== *)

(** os.Open(name) on the local file system: the node opened. *)
Definition os_Open (E : env) (name : string) : M (fnode + error) :=
  emit (EvOpen name) ;;;
  fun s =>
    match flt E SysOpen name with
    | Some e => (Returns (inr e), s)
    | None =>
        match local s !! name with
        | Some n => (Returns (inl n), s)
        | None => (Returns (inr ENOENT), s)
        end
    end.

(** uploader.UploadWithContext(ctxt, {Bucket, Key, Body}) where reading
    [Body] to its end gives [body]. The object appears in the bucket only
    when the call succeeds. *)
Definition UploadWithContext (E : env) (key : string) (body : object + error)
  : M (option error) :=
  emit (EvPut key) ;;;
  match put_err E with
  | Some e => ret (Some e)
  | None =>
      match body with
      | inr e => ret (Some e)
      | inl obj =>
          (fun s => (Returns tt, set_remote (<[key := obj]> (remote s)) s)) ;;;
          ret None
      end
  end.

(** The bytes of an object, and the entries an archive reader finds in it. *)
Definition object_bytes (E : env) (obj : object) : string :=
  match obj with
  | FileObject c => c
  | ArchiveObject entries ending => encode E entries ending
  end.
Definition object_entries (E : env) (obj : object) : list File * error :=
  match obj with
  | FileObject c => decode E c
  | ArchiveObject entries ending => (entries, ending)
  end.

(** func (a *AWSSession) GetCredentials() (credentials.Value, error) *)
Definition GetCredentials (E : env) : M (string * option error) :=
  ctx <- install_cancel ;;
  defer Cancel (
    emit EvCredentials ;;;
    ret (credentials E)).

(** func (a *AWSSession) UploadFile(localFile string, s3FilePath string) error *)
Definition UploadFile (E : env) (localFile s3FilePath : string) : M (option error) :=
  file <- os_Open E localFile ;;
  match file with
  | inr err => ret (Some err)
  | inl node =>
      (* defer file.Close() *)
      ctxt <- install_cancel ;;
      defer Cancel (
        UploadWithContext E s3FilePath
          (match node with
           | Regular _ content => inl (FileObject content)
           | Directory _ => inr EISDIR
           end))
  end.

(** Lines 137-194 of UploadCompressedDirectory, after the switch. [in_] is
    the pipe the uploader reads, [stage_out] the pipe the archive is
    written to. *)
Definition upload_tail (E : env) (localDirectoy s3FilePath : string)
    (in_ stage_out : nat) : M (option error) :=
  (* errorChannel := make(chan error) *)
  go WalkerStage [] [stage_out] ;;;
  let '(stage_err, entries) :=
    walker_stage (flt E) (lstat E) (write_err E) localDirectoy in
  ctxt <- install_cancel ;;
  defer Cancel (
    caller_reads in_ ;;;
    err <- UploadWithContext E s3FilePath (inl (ArchiveObject entries EOF)) ;;
    match err with
    | Some err => ret (Some err)
    | None =>
        emit (EvCloseReader in_) ;;;                       (* in.Close() *)
        emit EvRecv ;;;                                    (* err = <-errorChannel *)
        ret stage_err
    end).

(** func (a *AWSSession) UploadCompressedDirectory(localDirectoy string,
    s3FilePath string) error *)
Definition UploadCompressedDirectory (E : env) (localDirectoy s3FilePath : string)
  : M (option error) :=
  in_out <- io_Pipe ;;
  let extension := ToLower (Ext s3FilePath) in
  if String.eqb extension ".xz" then
    emit EvCodec ;;;                                       (* compression.Create(out) *)
    match create_err E with
    | Some err => ret (Some err)
    | None => upload_tail E localDirectoy s3FilePath in_out in_out
    end
  else if String.eqb extension ".zstd" then
    tar_pipe <- io_Pipe ;;                                 (* inZstd, outTar *)
    emit EvCodec ;;;                                       (* compression.Create(outTar) *)
    match create_err E with
    | Some err => ret (Some err)
    | None =>
        emit EvCodec ;;;                                   (* zstd.NewWriter(out) *)
        match newwriter_err E with
        | Some err => ret (Some err)
        | None =>
            defer (ret tt) (                               (* defer enc.Close() *)
              go BridgeStage [tar_pipe] [in_out] ;;;       (* go io.Copy(enc, inZstd) *)
              upload_tail E localDirectoy s3FilePath in_out tar_pipe)
        end
    end
  else ret (Some (ErrUnknownExtension s3FilePath)).

(** func (a *AWSSession) DownloadFile(s3FilePath string, localFile string) error *)
Definition DownloadFile (E : env) (s3FilePath localFile : string) : M (option error) :=
  emit (EvCreate localFile) ;;;
  err <- (fun s => let '(err, fs') := os_Create (flt E) (local s) localFile in
                   (Returns err, set_local fs' s)) ;;
  match err with
  | Some err => ret (Some err)
  | None =>
      ctxt <- install_cancel ;;
      defer Cancel (
        emit (EvGet s3FilePath) ;;;
        fun s =>
          match remote s !! s3FilePath with
          | None => (Returns (Some (ErrRemote "NoSuchKey")), s)
          | Some obj =>
              match get_err E with
              | Some err =>
                  (* the downloader has made some WriteAt calls on f *)
                  (Returns (Some err),
                   set_local (file_append (local s) localFile
                                (string_take (get_bytes E) (object_bytes E obj))) s)
              | None =>
                  (Returns None,
                   set_local (file_append (local s) localFile (object_bytes E obj)) s)
              end
          end)
  end.

(** downloader.DownloadWithContext(ctxt, fakeWriterAt{out}, ...) with the
    consumer goroutine reading what it writes: the error of the call, and
    the value the goroutine sends on [errorChannel]. When the call fails
    the goroutine has seen the first [get_progress] entries. *)
Definition DownloadWithContext_pipe (E : env) (key localRootDirectory : string)
    (out : nat) : M (option error * option error) :=
  caller_writes out ;;;
  emit (EvGet key) ;;;
  fun s =>
    let '(err, (entries, ending)) :=
      match remote s !! key with
      | None => (Some (ErrRemote "NoSuchKey"), ([], ErrUnexpectedEOF))
      | Some obj =>
          match get_err E with
          | Some err =>
              (Some err, (take (get_progress E) (fst (object_entries E obj)),
                          ErrUnexpectedEOF))
          | None => (None, object_entries E obj)
          end
      end in
    let '(sent, fs') :=
      consumer_stage (flt E) localRootDirectory entries ending (local s) in
    (Returns (err, sent), set_local fs' s).

(** Lines 254-297 of DownloadCompressedDirectory, after the switch. [out] is
    the pipe the downloader writes, [stage_in] the pipe the archive is read
    from. *)
Definition download_tail (E : env) (s3FilePath localRootDirectory : string)
    (out stage_in : nat) : M (option error) :=
  (* errorChannel := make(chan error) *)
  go ConsumerStage [stage_in] [] ;;;
  (* downloader.Concurrency = 1 *)
  ctxt <- install_cancel ;;
  defer Cancel (
    r <- DownloadWithContext_pipe E s3FilePath localRootDirectory out ;;
    emit (EvCloseWriter out) ;;;                           (* out.Close() *)
    match fst r with
    | Some err => ret (Some err)
    | None =>
        emit EvRecv ;;;                                    (* err = <-errorChannel *)
        ret (snd r)
    end).

(** io.Copy(dst, src) run by the calling goroutine, where [src] reads the
    pipe [from] and [dst] is the write end of the pipe [to]. *)
Definition io_Copy (from to : nat) : M unit :=
  emit EvCopy ;;;
  caller_reads from ;;;
  caller_writes to.

(** func (a *AWSSession) DownloadCompressedDirectory(s3FilePath string,
    localRootDirectory string) error *)
Definition DownloadCompressedDirectory (E : env) (s3FilePath localRootDirectory : string)
  : M (option error) :=
  in_out <- io_Pipe ;;
  let extension := ToLower (Ext s3FilePath) in
  if String.eqb extension ".xz" then
    emit EvCodec ;;;                                       (* compression.Open(in, 0) *)
    match open_err E with
    | Some err => ret (Some err)
    | None => download_tail E s3FilePath localRootDirectory in_out in_out
    end
  else if String.eqb extension ".zstd" then
    tar_pipe <- io_Pipe ;;                                 (* inTar, outZstd *)
    emit EvCodec ;;;                                       (* zstd.NewReader(in) *)
    match newreader_err E with
    | Some err => ret (Some err)
    | None =>
        defer (ret tt) (                                   (* defer d.Close() *)
          io_Copy in_out tar_pipe ;;;                      (* _, err = io.Copy(outZstd, d) *)
          emit EvCodec ;;;                                 (* compression.Open(inTar, 0) *)
          match open_err E with
          | Some err => ret (Some err)
          | None => download_tail E s3FilePath localRootDirectory in_out tar_pipe
          end)
    end
  else ret (Some (ErrUnknownExtension s3FilePath)).

(** The five transfer operations of a session, and running one for its
    error. *)
Inductive transfer : Type :=
| OpGetCredentials
| OpUploadFile (localFile s3FilePath : string)
| OpUploadCompressedDirectory (localDirectoy s3FilePath : string)
| OpDownloadFile (s3FilePath localFile : string)
| OpDownloadCompressedDirectory (s3FilePath localRootDirectory : string).

Definition run_transfer (E : env) (op : transfer) : M (option error) :=
  match op with
  | OpGetCredentials => r <- GetCredentials E ;; ret (snd r)
  | OpUploadFile l k => UploadFile E l k
  | OpUploadCompressedDirectory l k => UploadCompressedDirectory E l k
  | OpDownloadFile k l => DownloadFile E k l
  | OpDownloadCompressedDirectory k l => DownloadCompressedDirectory E k l
  end.

(** A session as NewAWSSession returns it, in a world with the given local
    file system and bucket contents. *)
Definition fresh_state (bucket : string) (fs : gmap string fnode)
    (objects : gmap string object) : state :=
  mkState (mkSession bucket NoOp) 0 ∅ fs objects [] [].

(** An environment in which no call fails. *)
Definition quiet_env (lstat : string -> option tree) : env :=
  mkEnv no_faults lstat (fun _ => None) None None None None None None 0 0
        ("", None) (fun _ _ => "") (fun _ => ([], ErrCodec "not an archive")).

(* ===================================================================== *)
(** ** Predicates and data the statements below are written with         *)
(* ===================================================================== *)

(** The number of '/' a string starts with. *)
Fixpoint leading_slashes (s : string) : nat :=
  match s with
  | String c s' => if is_slash c then S (leading_slashes s') else 0
  | EmptyString => 0
  end.

(** No two '/' follow one another. *)
Fixpoint no_double_slash (s : string) : bool :=
  match s with
  | String a s' =>
      match s' with
      | String b _ => negb (is_slash a && is_slash b) && no_double_slash s'
      | EmptyString => true
      end
  | EmptyString => true
  end.

(** The byte [c] occurs in the string. *)
Fixpoint has_byte (c : ascii) (s : string) : bool :=
  match s with
  | String a s' => Ascii.eqb a c || has_byte c s'
  | EmptyString => false
  end.

(** A path element: not empty, and without separator. *)
Definition elem_ok (e : string) : Prop := e <> "" /\ has_byte "/" e = false.

(** The paths filepath.Walk hands to its callback: the root as given, and
    below it the join of a visited directory's path with an entry's name. *)
Inductive walk_path (root : string) : string -> Prop :=
| walk_path_root : walk_path root root
| walk_path_child (dir name : string) :
    walk_path root dir -> walk_path root (filepath_Join [dir; name]).

(** The loop of filepath.walk over the entries of a directory, on its own. *)
Fixpoint walk_names {S : Type} (flt : faults)
    (fn : string -> option tree -> option error -> S -> option error * S)
    (path : string) (names : list (string * tree)) (s : S) : option error * S :=
  match names with
  | [] => (None, s)
  | (name, fileInfo) :: rest =>
      let filename := filepath_Join [path; name] in
      match flt SysLstat filename with
      | Some e =>
          match fn filename None (Some e) s with
          | (Some e', s') => (Some e', s')
          | (None, s') => walk_names flt fn path rest s'
          end
      | None =>
          match walk flt fn filename fileInfo s with
          | (Some e', s') => (Some e', s')
          | (None, s') => walk_names flt fn path rest s'
          end
      end
  end.

(** Entries extracted one after the other without error: the file system
    they leave, if none fails. *)
Fixpoint extract_all (flt : faults) (root : string) (entries : list File)
    (fs : gmap string fnode) : option (gmap string fnode) :=
  match entries with
  | [] => Some fs
  | f :: rest =>
      match uncompressFile flt root f fs with
      | (None, fs') => extract_all flt root rest fs'
      | (Some _, _) => None
      end
  end.

(** The directory entry /root/sub with mode drwx------, and a local file
    system that holds the target directory out/. *)
Definition dir_entry : File := mkFile "/root/sub" (Z.lor ModeDir 448) "" None.
Definition out_fs : gmap string fnode := <["out" := Directory 493]> cwd_only.

(** os.Stat fails with permission denied on out/sub. *)
Definition stat_denied : faults :=
  mkFaults
    (fun call path =>
       match call with
       | SysStat => if String.eqb path "out/sub" then Some EACCES else None
       | _ => None
       end)
    0.

(** A computation that neither touches the session nor panics. *)
Definition keeps_session {A : Type} (m : M A) : Prop :=
  forall s,
    match m s with
    | (Panics, _) => False
    | (_, s') => sess s' = sess s
    end.

(** A computation after which, when it returns, the slot holds the no-op
    or the session is as it was; while it hangs the slot holds a function
    or the session is as it was; it never panics. *)
Definition settles_slot {A : Type} (m : M A) : Prop :=
  forall s,
    match m s with
    | (Returns _, s') => cancel (sess s') = NoOp \/ sess s' = sess s
    | (Hangs, s') => cancel (sess s') <> NilFunc \/ sess s' = sess s
    | (Panics, _) => False
    end.

(** What a user of a session can do with it, one call after the other. *)
Inductive call : Type :=
| CallTransfer (E : env) (op : transfer)
| CallCancel.

(** The calls run in order by one goroutine. *)
Fixpoint run_calls (calls : list call) : M unit :=
  match calls with
  | [] => ret tt
  | c :: rest =>
      match c with
      | CallTransfer E op => (r <- run_transfer E op ;; ret tt)
      | CallCancel => Cancel
      end ;;;
      run_calls rest
  end.

(** The two critical sections the mutex of a session protects: a transfer
    installing its cancel function, and Cancel (called by a user, or
    deferred by a transfer). When several goroutines use one session, what
    happens to the slot is a sequence of these, in the order the lock is
    taken. *)
Inductive slot_step : Type := StepInstall | StepCancel.

Definition do_step (st : slot_step) : M unit :=
  match st with
  | StepInstall => (ctx <- install_cancel ;; ret tt)
  | StepCancel => Cancel
  end.

Fixpoint run_steps (steps : list slot_step) : M unit :=
  match steps with
  | [] => ret tt
  | st :: rest => do_step st ;;; run_steps rest
  end.

(** An environment in which the put fails with a network error. *)
Definition failing_put_env : env :=
  mkEnv no_faults scenario_lstat (fun _ => None) None None None None
        (Some (ErrRemote "RequestError: send request failed")) None 0 0
        ("", None) (fun _ _ => "") (fun _ => ([], ErrCodec "not an archive")).

(** An environment in which the get fails with a network error. *)
Definition failing_get_env : env :=
  mkEnv no_faults scenario_lstat (fun _ => None) None None None None None
        (Some (ErrRemote "RequestError: send request failed")) 0 0
        ("", None) (fun _ _ => "") (fun _ => ([], ErrCodec "not an archive")).

(** An environment in which the get fails with a network error after two
    bytes have been written. *)
Definition partial_get_env : env :=
  mkEnv no_faults scenario_lstat (fun _ => None) None None None None None
        (Some (ErrRemote "RequestError: send request failed")) 0 2
        ("", None) (fun _ _ => "") (fun _ => ([], ErrCodec "not an archive")).

(** The environment of the scenario: the tree at root, and no call fails. *)
Definition scenario_env : env := quiet_env scenario_lstat.

(** The scenario's starting point: a fresh session, an empty bucket, and
    the empty target directory out/. *)
Definition scenario_state : state :=
  fresh_state "bucket" (<["out" := Directory 493]> cwd_only) ∅.

(** An entry whose parent directory is not in the archive, and is not
    there locally. *)
Definition orphan_entry : File := mkFile "/root/missing/a.txt" 420 "hi" None.

(** What a method leaves alone, and the contexts it makes. *)

(** A computation that leaves the part of the world read by [proj] as it
    found it, however it ends. *)
Definition preserves {A X : Type} (proj : state -> X) (m : M A) : Prop :=
  forall s, proj (snd (m s)) = proj s.

(** The contexts made so far and the ones cancelled. *)
Definition context_book (s : state) : nat * gset nat := (contexts s, cancelled s).

(** A computation that, when it returns, has made no context, or has made
    one and cancelled it; while it hangs no context is cancelled. *)
Definition one_context {A : Type} (m : M A) : Prop :=
  forall s,
    match m s with
    | (Returns _, s') =>
        (contexts s' = contexts s /\ cancelled s' = cancelled s)
        \/ (contexts s' = S (contexts s)
            /\ cancelled s' = {[contexts s]} ∪ cancelled s)
    | (Hangs, s') => cancelled s' = cancelled s
    | (Panics, _) => True
    end.

(** fakeWriterAt under a sequence of calls. *)

Fixpoint zero_bytes (n : nat) : string :=
  match n with
  | O => EmptyString
  | S n' => String Ascii.zero (zero_bytes n')
  end.

(** WriteAt of a writer that honours the offset, as WriteAt of an os.File
    does for an offset that is not negative: [p] lands at [offset] in
    [data], over what was there, after a gap of zero bytes when [offset] is
    past the end. *)
Definition data_WriteAt (data p : string) (offset : Z) : string :=
  let off := Z.to_nat offset in
  string_take off data +:+ zero_bytes (off - String.length data) +:+ p
  +:+ string_drop (off + String.length p) data.

Fixpoint data_WriteAt_all (calls : list (string * Z)) (data : string) : string :=
  match calls with
  | [] => data
  | (p, offset) :: rest => data_WriteAt_all rest (data_WriteAt data p offset)
  end.

(** The calls [WriteAt(p, offset)] made one after the other on a
    fakeWriterAt whose writer is the write end of a pipe: [stream] is what
    the read end has been given so far. *)
Fixpoint fake_WriteAt_all (calls : list (string * Z)) (stream : string) : string :=
  match calls with
  | [] => stream
  | (p, offset) :: rest =>
      fake_WriteAt_all rest (WriteAt (fun b => stream +:+ b) p offset)
  end.

(** Each call starts where the one before ended. *)
Fixpoint in_sequence (start : Z) (calls : list (string * Z)) : Prop :=
  match calls with
  | [] => True
  | (p, offset) :: rest =>
      offset = start /\ in_sequence (start + Z.of_nat (String.length p)) rest
  end.

(** The slot of a session across a call of a method. *)

(** Whether a transfer method gets as far as its transfer. The returns
    that come before the cancel function is installed are: the failure of
    os.Open in UploadFile and of os.Create in DownloadFile; in the two
    directory methods an unknown extension and the failure of a codec. On a
    .zstd key DownloadCompressedDirectory does not get there: it fails on
    the codec or stays in its io.Copy. *)
Definition starts_transfer (E : env) (op : transfer) (s : state) : bool :=
  match op with
  | OpGetCredentials => true
  | OpUploadFile localFile _ =>
      match flt E SysOpen localFile, local s !! localFile with
      | None, Some _ => true
      | _, _ => false
      end
  | OpUploadCompressedDirectory _ s3FilePath =>
      let extension := ToLower (Ext s3FilePath) in
      if String.eqb extension ".xz" then
        match create_err E with None => true | Some _ => false end
      else if String.eqb extension ".zstd" then
        match create_err E, newwriter_err E with
        | None, None => true
        | _, _ => false
        end
      else false
  | OpDownloadFile _ localFile =>
      match fst (os_Create (flt E) (local s) localFile) with
      | None => true
      | Some _ => false
      end
  | OpDownloadCompressedDirectory s3FilePath _ =>
      if String.eqb (ToLower (Ext s3FilePath)) ".xz" then
        match open_err E with None => true | Some _ => false end
      else false
  end.

(** The slot, the contexts made and the contexts cancelled are as [s] has
    them. *)
Definition slot_untouched (s s' : state) : Prop :=
  sess s' = sess s /\ contexts s' = contexts s /\ cancelled s' = cancelled s.

(** Since [s] one context was made, its cancel function was put in the
    slot and called, and the slot holds the no-op. *)
Definition slot_released (s s' : state) : Prop :=
  sess s' = mkSession (bucket (sess s)) NoOp
  /\ contexts s' = S (contexts s)
  /\ cancelled s' = {[contexts s]} ∪ cancelled s.

(** Since [s] one context was made and its cancel function is in the slot,
    not called. *)
Definition slot_in_flight (s s' : state) : Prop :=
  sess s' = mkSession (bucket (sess s)) (CtxCancel (contexts s))
  /\ contexts s' = S (contexts s)
  /\ cancelled s' = cancelled s.

(** A computation that returns, and leaves the slot and the contexts alone. *)
Definition passes {A : Type} (m : M A) : Prop :=
  forall s, exists a, fst (m s) = Returns a /\ slot_untouched s (snd (m s)).

(** A computation that does not start a transfer. *)
Definition unstarted {A : Type} (m : M A) : Prop :=
  forall s,
    match m s with
    | (Panics, _) => False
    | (_, s') => slot_untouched s s'
    end.

(** A computation that starts a transfer: its context is released when it
    returns and in flight while it hangs. *)
Definition started {A : Type} (m : M A) : Prop :=
  forall s,
    match m s with
    | (Returns _, s') => slot_released s s'
    | (Hangs, s') => slot_in_flight s s'
    | (Panics, _) => False
    end.

(** What a call of a transfer method has done to the slot and the contexts
    when it ends. *)
Definition slot_after (E : env) (op : transfer) (s : state) : Prop :=
  match run_transfer E op s with
  | (Returns _, s') =>
      if starts_transfer E op s then slot_released s s' else slot_untouched s s'
  | (Hangs, s') =>
      if starts_transfer E op s then slot_in_flight s s' else slot_untouched s s'
  | (Panics, _) => False
  end.


(** A computation that only adds to the trace of the calling goroutine. *)
Definition extends_trace {A : Type} (m : M A) : Prop :=
  forall s, exists rest, trace (snd (m s)) = (trace s ++ rest)%list.

(* ===================================================================== *)
(** ** Properties                                                         *)
(* ===================================================================== *)

(** *** The string and path functions on examples *)

Example Ext_tar_gz : Ext "backup.tar.gz" = ".gz".
Proof. reflexivity. Qed.
Example Ext_dir_dot : Ext "a.b/c" = "".
Proof. reflexivity. Qed.
Example ToLower_ZSTD : ToLower ".ZsTd" = ".zstd".
Proof. reflexivity. Qed.
Example Fields_double : FieldsFunc "/root//sub/" is_slash = ["root"; "sub"].
Proof. reflexivity. Qed.
Example Join_out : filepath_Join ["out"; "a.txt"] = "out/a.txt".
Proof. reflexivity. Qed.
Example Join_dots : filepath_Join ["/x/"; ".."; ".."; "a"; "."; "b"; ".."] = "/a".
Proof. reflexivity. Qed.
Example Join_rel : filepath_Join [""; "a"; ".."; ".."; "b"] = "../b".
Proof. reflexivity. Qed.
Example Trim_ex : TrimPrefix "root/a.txt" "root" = "/a.txt".
Proof. reflexivity. Qed.

Example uncompress_dir :
  uncompressFile no_faults "out" (mkFile "/root/sub" (Z.lor ModeDir 448) "" None)
    (<["out" := Directory 493]> cwd_only)
  = (None, <["out/sub" := Directory 448]> (<["out" := Directory 493]> cwd_only)).
Proof. vm_compute. reflexivity. Qed.

Example walker_stage_scenario :
  walker_stage no_faults scenario_lstat (fun _ => None) "root"
  = (Some (ErrUnexpectedPath "root"), []).
Proof. reflexivity. Qed.

(** What the walk visits when the callback accepts every node: the paths
    handed to the callback, in order. *)
Example walk_order :
  filepath_Walk no_faults scenario_lstat
    (fun path _ _ seen => (None, (seen ++ [path])%list)) "root" []
  = (None, ["root"; "root/a.txt"; "root/sub"]).
Proof. reflexivity. Qed.

(** *** Strings *)

Lemma substring_all (s : string) : substring 0 (String.length s) s = s.
Proof. induction s as [|c s IH]; simpl; [reflexivity | now rewrite IH]. Qed.

Lemma string_drop_all (s : string) : string_drop (String.length s) s = "".
Proof. induction s as [|c s IH]; simpl; auto. Qed.

Lemma HasPrefix_refl (s : string) : HasPrefix s s = true.
Proof.
  unfold HasPrefix. rewrite Nat.leb_refl, substring_all. simpl.
  apply String.eqb_refl.
Qed.

Lemma TrimPrefix_self (s : string) : TrimPrefix s s = "".
Proof. unfold TrimPrefix. rewrite HasPrefix_refl. apply string_drop_all. Qed.

Lemma string_drop_no_double_slash (n : nat) (s : string) :
  no_double_slash s = true -> no_double_slash (string_drop n s) = true.
Proof.
  revert s. induction n as [|n IH]; intros s H; simpl; [exact H|].
  destruct s as [|a s]; [reflexivity|].
  apply IH. simpl in H. destruct s as [|b s]; [reflexivity|].
  apply andb_prop in H. tauto.
Qed.

Lemma TrimPrefix_no_double_slash (s p : string) :
  no_double_slash s = true -> no_double_slash (TrimPrefix s p) = true.
Proof.
  intros H. unfold TrimPrefix. destruct (HasPrefix s p); [|exact H].
  now apply string_drop_no_double_slash.
Qed.

Lemma no_double_slash_leading (s : string) :
  no_double_slash s = true -> (leading_slashes s <= 1)%nat.
Proof.
  destruct s as [|a [|b s]]; simpl; intros H.
  - lia.
  - destruct (is_slash a); lia.
  - destruct (is_slash a); [|lia]. destruct (is_slash b); [discriminate|lia].
Qed.

Lemma ToSlash_unix (s : string) : ToSlash Separator s = s.
Proof. reflexivity. Qed.

Lemma replace_byte_has_byte (old new : ascii) (s : string) :
  old <> new -> has_byte old (replace_byte old new s) = false.
Proof.
  intros Hne. induction s as [|c s IH]; simpl; [reflexivity|].
  rewrite IH, orb_false_r.
  destruct (Ascii.eqb c old) eqn:Hc.
  - apply Ascii.eqb_neq. congruence.
  - exact Hc.
Qed.

Lemma ToSlash_no_separator (sep : ascii) (s : string) :
  sep <> "/"%char -> has_byte sep (ToSlash sep s) = false.
Proof.
  intros Hne. unfold ToSlash.
  destruct (Ascii.eqb sep "/") eqn:Hs.
  - apply Ascii.eqb_eq in Hs. contradiction.
  - now apply replace_byte_has_byte.
Qed.

Lemma replace_byte_length (old new : ascii) (s : string) :
  String.length (replace_byte old new s) = String.length s.
Proof. induction s as [|c s IH]; simpl; congruence. Qed.

Lemma ToSlash_length (sep : ascii) (s : string) :
  String.length (ToSlash sep s) = String.length s.
Proof. unfold ToSlash. destruct (Ascii.eqb sep "/"); [reflexivity|apply replace_byte_length]. Qed.

Lemma app_nil_l_s (b : string) : "" +:+ b = b.
Proof. reflexivity. Qed.

Lemma app_cons_s (x : ascii) (a b : string) : String x a +:+ b = String x (a +:+ b).
Proof. reflexivity. Qed.

Lemma has_byte_app (c : ascii) (a b : string) :
  has_byte c (a +:+ b) = has_byte c a || has_byte c b.
Proof.
  induction a as [|x a IH]; [reflexivity|].
  rewrite app_cons_s. simpl. now rewrite IH, orb_assoc.
Qed.

Lemma string_app_nil_r (a : string) : a +:+ "" = a.
Proof. induction a as [|x a IH]; [reflexivity|]. rewrite app_cons_s. congruence. Qed.

Lemma string_app_assoc (a b c : string) : (a +:+ b) +:+ c = a +:+ (b +:+ c).
Proof. induction a as [|x a IH]; [reflexivity|]. rewrite !app_cons_s. congruence. Qed.

Lemma string_app_not_nil (a : string) (c : ascii) : a +:+ String c "" <> "".
Proof. destruct a; discriminate. Qed.

Lemma is_slash_has_byte (c : ascii) :
  is_slash c = false -> has_byte "/" (String c "") = false.
Proof. unfold is_slash. simpl. intros ->. reflexivity. Qed.

Lemma FieldsFunc_go_ok (s : string) (cur : option string) :
  (forall w, cur = Some w -> elem_ok w) ->
  Forall elem_ok (FieldsFunc_go is_slash cur s).
Proof.
  revert cur. induction s as [|c s IH]; intros cur Hcur; simpl.
  - destruct cur as [w|]; [constructor; [now apply Hcur | constructor] | constructor].
  - destruct (is_slash c) eqn:Hc.
    + destruct cur as [w|].
      * constructor; [now apply Hcur|]. apply IH. discriminate.
      * apply IH. discriminate.
    + apply IH. intros w Hw. injection Hw as <-.
      destruct cur as [w0|].
      * destruct (Hcur w0 eq_refl) as [_ Hfree]. split.
        -- apply string_app_not_nil.
        -- rewrite has_byte_app, Hfree. simpl. now apply is_slash_has_byte.
      * split; [discriminate | now apply is_slash_has_byte].
Qed.

Lemma FieldsFunc_ok (s : string) : Forall elem_ok (FieldsFunc s is_slash).
Proof. apply FieldsFunc_go_ok. discriminate. Qed.

(** Splitting at a separator: the fields of [a/b] are those of [a] followed
    by those of [b]. *)
Lemma FieldsFunc_go_app_sep (f : ascii -> bool) (c : ascii) (a b : string)
    (cur : option string) :
  f c = true ->
  FieldsFunc_go f cur (a +:+ String c b)
  = (FieldsFunc_go f cur a ++ FieldsFunc_go f None b)%list.
Proof.
  intros Hc. revert cur. induction a as [|x a IH]; intros cur; simpl.
  - rewrite Hc. destruct cur; reflexivity.
  - destruct (f x).
    + destruct cur; simpl; now rewrite IH.
    + apply IH.
Qed.

Lemma FieldsFunc_app_slash (a b : string) :
  FieldsFunc (a +:+ String "/" b) is_slash
  = (FieldsFunc a is_slash ++ FieldsFunc b is_slash)%list.
Proof. unfold FieldsFunc. now apply FieldsFunc_go_app_sep. Qed.

Lemma FieldsFunc_go_word (w acc : string) :
  has_byte "/" w = false ->
  FieldsFunc_go is_slash (Some acc) w = [acc +:+ w].
Proof.
  revert acc. induction w as [|c w IH]; intros acc H; simpl.
  - now rewrite string_app_nil_r.
  - simpl in H. apply orb_false_elim in H as [Hc Hw].
    unfold is_slash. rewrite Hc. rewrite IH by exact Hw.
    now rewrite string_app_assoc.
Qed.

(** A non-empty run without separator is one field. *)
Lemma FieldsFunc_word (w : string) :
  elem_ok w -> FieldsFunc w is_slash = [w].
Proof.
  intros [Hne Hfree]. destruct w as [|c w]; [contradiction|].
  unfold FieldsFunc. simpl in *. apply orb_false_elim in Hfree as [Hc Hw].
  unfold is_slash. rewrite Hc. now rewrite FieldsFunc_go_word.
Qed.

Lemma FieldsFunc_empty : FieldsFunc "" is_slash = [].
Proof. reflexivity. Qed.

(** *** filepath.Clean never leaves two separators in a row *)

Lemma no_double_slash_app_word (e t : string) :
  has_byte "/" e = false -> no_double_slash t = true ->
  no_double_slash (e +:+ t) = true.
Proof.
  intros He Ht. induction e as [|a e IH]; [exact Ht|].
  simpl in He. apply orb_false_elim in He as [Ha He].
  specialize (IH He). simpl.
  destruct (e +:+ t) as [|b r] eqn:Heq; [reflexivity|].
  unfold is_slash at 1. rewrite Ha. simpl. exact IH.
Qed.

Lemma no_double_slash_cons_slash (t : string) :
  leading_slashes t = 0%nat -> no_double_slash t = true ->
  no_double_slash (String "/" t) = true.
Proof.
  intros Hl Ht. simpl. destruct t as [|b r]; [reflexivity|].
  simpl in Hl. destruct (is_slash b); [discriminate|]. simpl. exact Ht.
Qed.

Lemma elem_ok_leading (e t : string) : elem_ok e -> leading_slashes (e +:+ t) = 0%nat.
Proof.
  intros [Hne Hfree]. destruct e as [|a e]; [contradiction|].
  simpl in *. apply orb_false_elim in Hfree as [Ha _].
  unfold is_slash. now rewrite Ha.
Qed.

Lemma strings_Join_tidy (es : list string) :
  Forall elem_ok es ->
  no_double_slash (strings_Join es "/") = true
  /\ leading_slashes (strings_Join es "/") = 0%nat.
Proof.
  induction es as [|e es IH]; intros H; [split; reflexivity|].
  inversion H as [|? ? He Hes]; subst.
  destruct (IH Hes) as [IH1 IH2].
  destruct es as [|e2 es].
  - simpl. split.
    + rewrite <- (string_app_nil_r e). apply no_double_slash_app_word; [apply He | reflexivity].
    + rewrite <- (string_app_nil_r e). now apply elem_ok_leading.
  - change (strings_Join (e :: e2 :: es) "/")
      with (e +:+ String "/" (strings_Join (e2 :: es) "/")).
    split.
    + apply no_double_slash_app_word; [apply He|].
      now apply no_double_slash_cons_slash.
    + now apply elem_ok_leading.
Qed.

Lemma dotdot_ok : elem_ok "..".
Proof. split; [discriminate | reflexivity]. Qed.

Lemma clean_step_ok (rooted : bool) (out : list string) (elem : string) :
  Forall elem_ok out -> elem_ok elem -> Forall elem_ok (clean_step rooted out elem).
Proof.
  intros Hout He. unfold clean_step.
  destruct (String.eqb elem "."); [exact Hout|].
  destruct (String.eqb elem "..").
  - destruct out as [|top rest].
    + destruct rooted; repeat constructor; apply He.
    + destruct (String.eqb top ".."); [now constructor|].
      now inversion Hout.
  - now constructor.
Qed.

Lemma fold_clean_step_ok (rooted : bool) (es out : list string) :
  Forall elem_ok es -> Forall elem_ok out ->
  Forall elem_ok (fold_left (clean_step rooted) es out).
Proof.
  revert out. induction es as [|e es IH]; intros out Hes Hout; simpl; [exact Hout|].
  inversion Hes; subst. apply IH; [assumption|]. now apply clean_step_ok.
Qed.

Lemma Clean_no_double_slash (path : string) : no_double_slash (Clean path) = true.
Proof.
  unfold Clean. destruct path as [|c p]; [reflexivity|].
  set (out := fold_left _ _ _).
  assert (Hout : Forall elem_ok (rev out)).
  { apply Forall_rev. apply fold_clean_step_ok; [apply FieldsFunc_ok | constructor]. }
  destruct (strings_Join_tidy _ Hout) as [H1 H2].
  destruct (is_slash c).
  - now apply no_double_slash_cons_slash.
  - destruct (String.eqb _ ""); [reflexivity | exact H1].
Qed.

Lemma filepath_Join_no_double_slash (elem : list string) :
  no_double_slash (filepath_Join elem) = true.
Proof.
  induction elem as [|e rest IH]; [reflexivity|].
  simpl. destruct (String.eqb e ""); [exact IH|].
  apply Clean_no_double_slash.
Qed.

Lemma walk_path_shape (root path : string) :
  walk_path root path -> path = root \/ no_double_slash path = true.
Proof.
  intros [|dir name _]; [now left | right].
  apply filepath_Join_no_double_slash.
Qed.

(** An induction principle that reaches the children of a directory. *)
Lemma tree_children_ind (P : tree -> Prop) :
  (forall p c, P (TFile p c)) ->
  (forall p cs, Forall (fun nc => P (snd nc)) cs -> P (TDir p cs)) ->
  forall t, P t.
Proof.
  intros Hfile Hdir. fix IH 1. intros [p c | p cs]; [apply Hfile|].
  apply Hdir. induction cs as [|[n c] cs IHcs]; constructor; [apply IH | exact IHcs].
Qed.

Lemma walk_dir_eq {S : Type} (flt : faults)
    (fn : string -> option tree -> option error -> S -> option error * S)
    (path : string) (p : Z) (cs : list (string * tree)) (s : S) :
  walk flt fn path (TDir p cs) s
  = let err := flt SysReadDir path in
    let '(err1, s1) := fn path (Some (TDir p cs)) err s in
    if bool_decide (err <> None) || bool_decide (err1 <> None) then (err1, s1)
    else walk_names flt fn path cs s1.
Proof.
  cbn [walk]. cbv zeta.
  destruct (fn path (Some (TDir p cs)) (flt SysReadDir path) s) as [err1 s1].
  destruct (bool_decide (flt SysReadDir path <> None) || bool_decide (err1 <> None));
    [reflexivity|].
  revert s1. induction cs as [|[name c] cs IH]; intros s1; [reflexivity|].
  cbn [walk_names].
  destruct (flt SysLstat (filepath_Join [path; name])).
  - destruct (fn (filepath_Join [path; name]) None (Some e) s1) as [[e'|] s'];
      [reflexivity | apply IH].
  - destruct (walk flt fn (filepath_Join [path; name]) c s1) as [[e'|] s'];
      [reflexivity | apply IH].
Qed.

(** filepath.Walk calls its callback on walk paths only: what the callback
    preserves there, the walk preserves. *)
Lemma walk_preserves {S : Type} (P : S -> Prop) (flt : faults)
    (fn : string -> option tree -> option error -> S -> option error * S)
    (root : string) :
  (forall path info err s, walk_path root path -> P s -> P (snd (fn path info err s))) ->
  forall t path s, walk_path root path -> P s -> P (snd (walk flt fn path t s)).
Proof.
  intros Hfn t. induction t as [p c | p cs IH] using tree_children_ind;
    intros path s Hpath Hs.
  - simpl. now apply Hfn.
  - rewrite walk_dir_eq. cbv zeta.
    pose proof (Hfn path (Some (TDir p cs)) (flt SysReadDir path) s Hpath Hs) as H1.
    destruct (fn path (Some (TDir p cs)) (flt SysReadDir path) s) as [err1 s1].
    simpl in H1.
    destruct (bool_decide (flt SysReadDir path <> None) || bool_decide (err1 <> None));
      [exact H1|].
    clear Hs. revert s1 H1.
    induction IH as [|[name c] cs Hc _ IHcs]; intros s1 H1; [exact H1|].
    simpl in Hc. cbn [walk_names].
    assert (Hchild : walk_path root (filepath_Join [path; name]))
      by now constructor.
    destruct (flt SysLstat (filepath_Join [path; name])) as [e|].
    + pose proof (Hfn _ None (Some e) s1 Hchild H1) as H2.
      destruct (fn (filepath_Join [path; name]) None (Some e) s1) as [[e'|] s'];
        simpl in H2; [exact H2|]. now apply IHcs.
    + pose proof (Hc _ s1 Hchild H1) as H2.
      destruct (walk flt fn (filepath_Join [path; name]) c s1) as [[e'|] s'];
        simpl in H2; [exact H2|]. now apply IHcs.
Qed.

Lemma filepath_Walk_preserves {S : Type} (P : S -> Prop) (flt : faults)
    (lstat : string -> option tree)
    (fn : string -> option tree -> option error -> S -> option error * S)
    (root : string) (s : S) :
  (forall path info err s, walk_path root path -> P s -> P (snd (fn path info err s))) ->
  P s -> P (snd (filepath_Walk flt lstat fn root s)).
Proof.
  intros Hfn Hs. unfold filepath_Walk.
  destruct (flt SysLstat root); [apply Hfn; [constructor | exact Hs]|].
  destruct (lstat root); [|apply Hfn; [constructor | exact Hs]].
  apply (walk_preserves P flt fn root); [exact Hfn | constructor | exact Hs].
Qed.

(** The walk of the source stops at its root: the callback rejects the
    path that equals [localDirectoy], and that is the first path it sees. *)
Lemma walkFn_root (flt : faults) (write_err : File -> option error)
    (root : string) (info : option tree) (err : option error) (archive : list File) :
  exists e, walkFn flt write_err root root info err archive = (Some e, archive).
Proof.
  unfold walkFn. destruct err as [e|]; [now exists e|].
  destruct (flt SysOpen root) as [e|]; [now exists e|].
  unfold customName_of. rewrite TrimPrefix_self. simpl. eauto.
Qed.

Lemma walk_root_fails (flt : faults) (write_err : File -> option error)
    (root : string) (t : tree) (archive : list File) :
  exists e, walk flt (walkFn flt write_err root) root t archive = (Some e, archive).
Proof.
  destruct t as [p c | p cs].
  - cbn [walk]. apply walkFn_root.
  - rewrite walk_dir_eq. cbv zeta.
    destruct (walkFn_root flt write_err root (Some (TDir p cs)) (flt SysReadDir root) archive)
      as [e ->].
    exists e. rewrite (bool_decide_eq_true_2 (Some e <> None)) by discriminate.
    now rewrite orb_true_r.
Qed.

Lemma walker_stage_fails (flt : faults) (lstat : string -> option tree)
    (write_err : File -> option error) (localDirectoy : string) :
  exists e, walker_stage flt lstat write_err localDirectoy = (Some e, []).
Proof.
  unfold walker_stage, filepath_Walk.
  destruct (flt SysLstat localDirectoy); [apply walkFn_root|].
  destruct (lstat localDirectoy); [apply walk_root_fails | apply walkFn_root].
Qed.

Lemma walker_stage_unexpected_path (flt : faults) (lstat : string -> option tree)
    (write_err : File -> option error) (localDirectoy : string) (t : tree) :
  flt SysLstat localDirectoy = None -> lstat localDirectoy = Some t ->
  flt SysReadDir localDirectoy = None -> flt SysOpen localDirectoy = None ->
  walker_stage flt lstat write_err localDirectoy
  = (Some (ErrUnexpectedPath localDirectoy), []).
Proof.
  intros H1 H2 H3 H4. unfold walker_stage, filepath_Walk. rewrite H1, H2.
  assert (Hfn : forall info, walkFn flt write_err localDirectoy localDirectoy info None []
                = (Some (ErrUnexpectedPath localDirectoy), [])).
  { intros info. unfold walkFn, customName_of. now rewrite H4, TrimPrefix_self. }
  destruct t as [p c | p cs]; [cbn [walk]; apply Hfn|].
  rewrite walk_dir_eq. cbv zeta. rewrite H3, Hfn. rewrite (bool_decide_eq_true_2 (Some _ <> None)) by discriminate.
  now rewrite orb_true_r.
Qed.

Lemma length_zero_iff_empty (s : string) : String.length s = 0%nat <-> s = "".
Proof. destruct s; simpl; split; intros H; congruence. Qed.

Lemma customName_of_nonempty (sep : ascii) (root path : string) :
  TrimPrefix path root <> "" ->
  exists name,
    customName_of sep root path = inr name
    /\ name <> ""
    /\ (leading_slashes name
        = Nat.max 1 (leading_slashes (ToSlash sep (TrimPrefix path root))))
    /\ (name = ToSlash sep (TrimPrefix path root)
        \/ (leading_slashes (ToSlash sep (TrimPrefix path root)) = 0%nat
            /\ name = "/" +:+ ToSlash sep (TrimPrefix path root))).
Proof.
  intros Hne. unfold customName_of.
  destruct (Nat.eqb (String.length (TrimPrefix path root)) 0) eqn:Hlen.
  { apply Nat.eqb_eq, length_zero_iff_empty in Hlen. contradiction. }
  assert (Hn : ToSlash sep (TrimPrefix path root) <> "").
  { intros H. apply Nat.eqb_neq in Hlen. apply Hlen.
    rewrite <- (ToSlash_length sep), H. reflexivity. }
  destruct (ToSlash sep (TrimPrefix path root)) as [|c r] eqn:Hs; [contradiction|].
  destruct (Ascii.eqb c "/") eqn:Hc; simpl.
  - exists (String c r). repeat split; [discriminate| |now left].
    simpl. unfold is_slash. rewrite Hc. lia.
  - exists ("/" +:+ String c r). repeat split; [discriminate| |right].
    + simpl. unfold is_slash. rewrite Hc. reflexivity.
    + split; [|reflexivity]. simpl. unfold is_slash. now rewrite Hc.
Qed.

Lemma customName_no_separator (sep : ascii) (root path name : string) :
  sep <> "/"%char ->
  customName_of sep root path = inr name -> has_byte sep name = false.
Proof.
  intros Hsep. unfold customName_of.
  destruct (Nat.eqb _ 0); [discriminate|].
  pose proof (ToSlash_no_separator sep (TrimPrefix path root) Hsep) as Hfree.
  destruct (ToSlash sep (TrimPrefix path root)) as [|c r]; [intros [= <-]; reflexivity|].
  destruct (negb (Ascii.eqb c "/")); intros [= <-]; [|exact Hfree].
  rewrite has_byte_app, Hfree, orb_false_r. cbn [has_byte]. rewrite orb_false_r.
  apply Ascii.eqb_neq. congruence.
Qed.

(** *** The local file system: what a call touches *)

Lemma os_Mkdir_frame (flt : faults) (fs : gmap string fnode) (name : string) (perm : Z)
    (p : string) :
  p <> name -> snd (os_Mkdir flt fs name perm) !! p = fs !! p.
Proof.
  intros Hne. unfold os_Mkdir.
  destruct (flt SysMkdir name); [reflexivity|].
  destruct (fs !! name); [reflexivity|].
  destruct (parent_error fs name); [reflexivity|].
  cbn [snd]. now rewrite lookup_insert_ne.
Qed.

Lemma os_Mkdir_error (flt : faults) (fs : gmap string fnode) (name : string) (perm : Z)
    (e : error) :
  fst (os_Mkdir flt fs name perm) = Some e -> snd (os_Mkdir flt fs name perm) = fs.
Proof.
  unfold os_Mkdir.
  destruct (flt SysMkdir name); [reflexivity|].
  destruct (fs !! name); [reflexivity|].
  destruct (parent_error fs name); [reflexivity|discriminate].
Qed.

Lemma os_Create_frame (flt : faults) (fs : gmap string fnode) (name p : string) :
  p <> name -> snd (os_Create flt fs name) !! p = fs !! p.
Proof.
  intros Hne. unfold os_Create.
  destruct (flt SysCreate name); [reflexivity|].
  destruct (fs !! name) as [[perm|perm c]|]; [reflexivity| |].
  - simpl. now rewrite lookup_insert_ne.
  - destruct (parent_error fs name); [reflexivity|].
    cbn [snd]. now rewrite lookup_insert_ne.
Qed.

Lemma os_Create_error (flt : faults) (fs : gmap string fnode) (name : string) (e : error) :
  fst (os_Create flt fs name) = Some e -> snd (os_Create flt fs name) = fs.
Proof.
  unfold os_Create.
  destruct (flt SysCreate name); [reflexivity|].
  destruct (fs !! name) as [[perm|perm c]|]; [reflexivity|discriminate|].
  destruct (parent_error fs name); [reflexivity|discriminate].
Qed.

Lemma os_Create_ok (flt : faults) (fs : gmap string fnode) (name : string) :
  fst (os_Create flt fs name) = None ->
  exists perm, snd (os_Create flt fs name) !! name = Some (Regular perm "").
Proof.
  unfold os_Create.
  destruct (flt SysCreate name); [discriminate|].
  destruct (fs !! name) as [[perm|perm c]|]; [discriminate| |].
  - intros _. exists perm. simpl. apply lookup_insert_eq.
  - destruct (parent_error fs name); [discriminate|].
    intros _. exists (Z.ldiff 438 (umask flt)). cbn [snd]. apply lookup_insert_eq.
Qed.

Lemma file_append_frame (fs : gmap string fnode) (name data p : string) :
  p <> name -> file_append fs name data !! p = fs !! p.
Proof.
  intros Hne. unfold file_append.
  destruct (fs !! name) as [[perm|perm c]|]; [reflexivity| |reflexivity].
  now rewrite lookup_insert_ne.
Qed.

Lemma localFile_of_fields (root name : string) :
  localFile_of root name
  = match FieldsFunc name is_slash with
    | [] => None
    | _ :: rest => Some (filepath_Join (root :: rest))
    end.
Proof.
  unfold localFile_of. change (fun c : ascii => Ascii.eqb c "/") with is_slash.
  destruct (FieldsFunc name is_slash) as [|first rest]; reflexivity.
Qed.

Lemma uncompressFile_frame (flt : faults) (root : string) (f : File)
    (fs : gmap string fnode) (dest p : string) :
  localFile_of root (Name f) = Some dest -> p <> dest ->
  snd (uncompressFile flt root f fs) !! p = fs !! p.
Proof.
  intros Hd Hne. unfold uncompressFile. rewrite Hd.
  destruct (IsDir f).
  - destruct (negb (Exists flt fs dest)); [now apply os_Mkdir_frame | reflexivity].
  - pose proof (os_Create_frame flt fs dest p Hne) as Hc.
    destruct (os_Create flt fs dest) as [[e|] fs']; simpl in *; [exact Hc|].
    now rewrite file_append_frame.
Qed.

Lemma consumer_loop_stops (flt : faults) (root : string) (done : list File) (f : File)
    (rest : list File) (ending : error) (err : option error)
    (fs fs1 : gmap string fnode) (e : error) :
  extract_all flt root done fs = Some fs1 ->
  fst (uncompressFile flt root f fs1) = Some e ->
  consumer_loop flt root (done ++ f :: rest) ending err fs
  = (err, snd (uncompressFile flt root f fs1)).
Proof.
  revert fs. induction done as [|d done IH]; intros fs Hdone Hf; simpl in *.
  - injection Hdone as ->.
    destruct (uncompressFile flt root f fs1) as [[e'|] fs']; [reflexivity|discriminate].
  - destruct (uncompressFile flt root d fs) as [[e'|] fs']; [discriminate|].
    now apply IH.
Qed.

Lemma consumer_loop_err (flt : faults) (root : string) (entries : list File)
    (ending : error) (err : option error) (fs : gmap string fnode) :
  fst (consumer_loop flt root entries ending err fs) = err.
Proof.
  revert fs. induction entries as [|f rest IH]; intros fs; simpl; [reflexivity|].
  destruct (uncompressFile flt root f fs) as [[e|] fs']; [reflexivity | apply IH].
Qed.

Lemma consumer_stage_sends_nil (flt : faults) (root : string) (entries : list File)
    (ending : error) (fs : gmap string fnode) :
  fst (consumer_stage flt root entries ending fs) = None.
Proof.
  unfold consumer_stage.
  pose proof (consumer_loop_err flt root entries ending None fs) as H.
  destruct (consumer_loop flt root entries ending None fs) as [err fs'].
  simpl in H. subst err. reflexivity.
Qed.

(** C6: uncompressFile splits the entry name at '/' into segments none of
    which is empty or holds a '/' (a separator only ever ends a segment, so
    consecutive separators add none); with no segment it returns the
    "incorrect path" error and touches nothing; otherwise the destination is
    the join of the target root with the segments after the first, the entry
    is created there, and no other path of the file system changes. *)
Theorem uncompressFile_destination (flt : faults) (localRootDirectory : string)
    (f : File) (fs : gmap string fnode) :
  Forall (fun seg => seg <> "" /\ has_byte "/" seg = false)
         (FieldsFunc (Name f) is_slash)
  /\ (forall a b : string,
        FieldsFunc (a +:+ "/" +:+ b) is_slash
        = (FieldsFunc a is_slash ++ FieldsFunc b is_slash)%list)
  /\ (FieldsFunc (Name f) is_slash = [] ->
      uncompressFile flt localRootDirectory f fs = (Some ErrIncorrectPath, fs))
  /\ (forall first rest,
        FieldsFunc (Name f) is_slash = first :: rest ->
        let dest := filepath_Join (localRootDirectory :: rest) in
        localFile_of localRootDirectory (Name f) = Some dest
        /\ uncompressFile flt localRootDirectory f fs
           = (if IsDir f then
                if negb (Exists flt fs dest)
                then os_Mkdir flt fs dest (Perm (Mode f))
                else (None, fs)
              else
                match os_Create flt fs dest with
                | (Some err, fs') => (Some err, fs')
                | (None, fs') => (ReadErr f, file_append fs' dest (Content f))
                end)
        /\ (forall p, p <> dest ->
              snd (uncompressFile flt localRootDirectory f fs) !! p = fs !! p)).
Proof.
  split; [apply FieldsFunc_ok|].
  split; [intros a b; apply FieldsFunc_app_slash|].
  split.
  - intros H. unfold uncompressFile. now rewrite localFile_of_fields, H.
  - intros first rest H dest.
    assert (Hd : localFile_of localRootDirectory (Name f) = Some dest)
      by now rewrite localFile_of_fields, H.
    split; [exact Hd|]. split.
    + unfold uncompressFile. now rewrite Hd.
    + intros p Hp. now apply (uncompressFile_frame flt localRootDirectory f fs dest).
Qed.

(** C6 on "/root//sub/a.txt" and on a name made of separators only. *)
Lemma uncompressFile_destination_witness :
  FieldsFunc "/root//sub/a.txt" is_slash = ["root"; "sub"; "a.txt"]
  /\ localFile_of "out" "/root//sub/a.txt" = Some "out/sub/a.txt"
  /\ uncompressFile no_faults "out" (mkFile "//" 420 "hi" None) cwd_only
     = (Some ErrIncorrectPath, cwd_only).
Proof.
  pose proof (uncompressFile_destination no_faults "out"
                (mkFile "/root//sub/a.txt" 420 "hi" None) cwd_only) as (_ & _ & _ & H).
  pose proof (uncompressFile_destination no_faults "out"
                (mkFile "//" 420 "hi" None) cwd_only) as (_ & _ & H0 & _).
  split; [reflexivity|]. split.
  - exact (proj1 (H "root" ["sub"; "a.txt"] eq_refl)).
  - exact (H0 eq_refl).
Defined.

Lemma Exists_false_iff (flt : faults) (fs : gmap string fnode) (path : string) :
  Exists flt fs path = false
  <-> exists e, os_Stat flt fs path = inr e /\ is_ErrNotExist e = true.
Proof.
  unfold Exists. destruct (os_Stat flt fs path) as [n|e]; split.
  - discriminate.
  - intros (e & He & _). discriminate.
  - intros H. exists e. split; [reflexivity|]. now apply negb_false_iff.
  - intros (e' & [= <-] & He). now apply negb_false_iff.
Qed.

Lemma Exists_absent (flt : faults) (fs : gmap string fnode) (path : string) :
  flt SysStat path = None -> fs !! path = None ->
  parent_error fs path <> Some ENOTDIR ->
  Exists flt fs path = false.
Proof.
  intros H1 H2 H3. unfold Exists, os_Stat. rewrite H1, H2.
  destruct (parent_error fs path) as [[]|]; try reflexivity. contradiction.
Qed.

Lemma Exists_below_file (flt : faults) (fs : gmap string fnode) (path : string) :
  flt SysStat path = None -> fs !! path = None ->
  parent_error fs path = Some ENOTDIR ->
  Exists flt fs path = true.
Proof. intros H1 H2 H3. unfold Exists, os_Stat. now rewrite H1, H2, H3. Qed.

Lemma Exists_present (flt : faults) (fs : gmap string fnode) (path : string) (n : fnode) :
  flt SysStat path = None -> fs !! path = Some n -> Exists flt fs path = true.
Proof. intros H1 H2. unfold Exists, os_Stat. now rewrite H1, H2. Qed.

(** C7: for a directory entry, a destination that Exists reports as being
    there gives success and an unchanged file system: that is a destination
    that is there, and also one that is not there but lies below a regular
    file, where os.Stat fails with "not a directory". A destination that
    os.Stat reports as not existing is made by os.Mkdir, called with the
    permission bits recorded in the entry; the new directory has those of
    these bits that the umask of the process does not clear. When a
    destination (of a directory or a file entry) cannot be made, for
    instance because its parent is missing, uncompressFile returns the error
    with the file system unchanged and the extraction loop stops there,
    leaving what the earlier entries created. *)
Theorem directory_creation_idempotent (flt : faults) (localRootDirectory : string)
    (f : File) (fs : gmap string fnode) (dest : string) :
  IsDir f = true ->
  localFile_of localRootDirectory (Name f) = Some dest ->
  (* the destination is reported as being there: success, nothing changes *)
  (Exists flt fs dest = true ->
     uncompressFile flt localRootDirectory f fs = (None, fs))
  /\ (forall n, flt SysStat dest = None -> fs !! dest = Some n ->
        uncompressFile flt localRootDirectory f fs = (None, fs))
  /\ (flt SysStat dest = None -> fs !! dest = None ->
      parent_error fs dest = Some ENOTDIR ->
      uncompressFile flt localRootDirectory f fs = (None, fs))
  (* the destination is reported as not existing: os.Mkdir with the recorded
     bits, which the umask cuts down *)
  /\ (flt SysStat dest = None -> fs !! dest = None ->
      parent_error fs dest <> Some ENOTDIR ->
      uncompressFile flt localRootDirectory f fs
      = os_Mkdir flt fs dest (Perm (Mode f))
      /\ (flt SysMkdir dest = None -> parent_error fs dest = None ->
          uncompressFile flt localRootDirectory f fs
          = (None, <[dest := Directory (Z.ldiff (Perm (Mode f)) (umask flt))]> fs)))
  (* a destination that cannot be made: an error, and the file system and
     what was extracted before stay as they were *)
  /\ (forall (g : File) (dest_g : string) (e : error),
        localFile_of localRootDirectory (Name g) = Some dest_g ->
        (if IsDir g
         then Exists flt fs dest_g = false
              /\ fst (os_Mkdir flt fs dest_g (Perm (Mode g))) = Some e
         else fst (os_Create flt fs dest_g) = Some e) ->
        uncompressFile flt localRootDirectory g fs = (Some e, fs)
        /\ forall done rest ending err fs0,
             extract_all flt localRootDirectory done fs0 = Some fs ->
             consumer_loop flt localRootDirectory (done ++ g :: rest) ending err fs0
             = (err, fs)).
Proof.
  intros Hdir Hdest.
  assert (Heq : uncompressFile flt localRootDirectory f fs
                = if negb (Exists flt fs dest)
                  then os_Mkdir flt fs dest (Perm (Mode f)) else (None, fs)).
  { unfold uncompressFile. now rewrite Hdest, Hdir. }
  split; [|split; [|split; [|split]]].
  - intros Hex. now rewrite Heq, Hex.
  - intros n Hs Hn. now rewrite Heq, (Exists_present flt fs dest n).
  - intros Hs Hn Hp. now rewrite Heq, (Exists_below_file flt fs dest).
  - intros Hs Hn Hp. rewrite Heq, (Exists_absent flt fs dest) by assumption.
    split; [reflexivity|]. intros Hm Hp0. unfold os_Mkdir. now rewrite Hm, Hn, Hp0.
  - intros g dest_g e Hg Hfail.
    assert (Hres : uncompressFile flt localRootDirectory g fs = (Some e, fs)).
    { unfold uncompressFile. rewrite Hg. destruct (IsDir g).
      - destruct Hfail as [Hex Hmk]. rewrite Hex. cbn [negb].
        pose proof (os_Mkdir_error flt fs dest_g (Perm (Mode g)) e Hmk) as Hfs.
        destruct (os_Mkdir flt fs dest_g (Perm (Mode g))) as [r fs'].
        cbn [fst snd] in *. now subst.
      - pose proof (os_Create_error flt fs dest_g e Hfail) as Hfs.
        destruct (os_Create flt fs dest_g) as [r fs'].
        cbn [fst snd] in *. now subst. }
    split; [exact Hres|].
    intros done rest ending err fs0 Hdone.
    rewrite (consumer_loop_stops flt localRootDirectory done g rest ending err fs0 fs e Hdone);
      now rewrite Hres.
Qed.

(** C7 on out/sub: made when absent, with the bits the umask leaves; left
    alone when present; left unmade, without an error, below the regular
    file out/a.txt; ENOENT when out/ itself is missing. *)
Lemma directory_creation_idempotent_witness :
  uncompressFile no_faults "out" dir_entry out_fs
  = (None, <["out/sub" := Directory 448]> out_fs)
  /\ uncompressFile usual_umask "out" (mkFile "/root/sub" (Z.lor ModeDir 511) "" None) out_fs
     = (None, <["out/sub" := Directory 493]> out_fs)
  /\ uncompressFile no_faults "out" dir_entry (<["out/sub" := Directory 493]> out_fs)
     = (None, <["out/sub" := Directory 493]> out_fs)
  /\ uncompressFile no_faults "out" (mkFile "/root/a.txt/sub" (Z.lor ModeDir 493) "" None)
       (<["out/a.txt" := Regular 420 "hi"]> out_fs)
     = (None, <["out/a.txt" := Regular 420 "hi"]> out_fs)
  /\ uncompressFile no_faults "out" dir_entry cwd_only = (Some ENOENT, cwd_only).
Proof.
  pose proof (directory_creation_idempotent no_faults "out" dir_entry out_fs "out/sub"
                eq_refl eq_refl) as (_ & _ & _ & Hnew & _).
  pose proof (directory_creation_idempotent usual_umask "out"
                (mkFile "/root/sub" (Z.lor ModeDir 511) "" None) out_fs "out/sub"
                eq_refl eq_refl) as (_ & _ & _ & Hmask & _).
  pose proof (directory_creation_idempotent no_faults "out" dir_entry
                (<["out/sub" := Directory 493]> out_fs) "out/sub"
                eq_refl eq_refl) as (_ & Hold & _ & _).
  pose proof (directory_creation_idempotent no_faults "out"
                (mkFile "/root/a.txt/sub" (Z.lor ModeDir 493) "" None)
                (<["out/a.txt" := Regular 420 "hi"]> out_fs) "out/a.txt/sub"
                eq_refl eq_refl) as (_ & _ & Hfile & _).
  pose proof (directory_creation_idempotent no_faults "out" dir_entry cwd_only "out/sub"
                eq_refl eq_refl) as (_ & _ & _ & _ & Hfail).
  assert (Hp : parent_error out_fs "out/sub" = None) by (vm_compute; reflexivity).
  assert (Hn : out_fs !! "out/sub" = None) by (vm_compute; reflexivity).
  assert (Hq : parent_error out_fs "out/sub" <> Some ENOTDIR) by (rewrite Hp; discriminate).
  split; [|split; [|split; [|split]]].
  - exact (proj2 (Hnew eq_refl Hn Hq) eq_refl Hp).
  - exact (proj2 (Hmask eq_refl Hn Hq) eq_refl Hp).
  - apply (Hold (Directory 493)); [reflexivity | vm_compute; reflexivity].
  - apply Hfile; [reflexivity | vm_compute; reflexivity | vm_compute; reflexivity].
  - apply (Hfail dir_entry "out/sub" ENOENT); [reflexivity|].
    split; vm_compute; reflexivity.
Defined.

(** C7, what the claim gets wrong: an absent directory is not always made
    with the bits of its entry, and is not always made. With the umask 022
    the entry drwxrwxrwx gives a directory rwxr-xr-x; below the regular file
    out/a.txt the destination is absent, nothing is made and no error is
    returned. *)
Lemma directory_creation_loses_bits :
  Perm (Mode (mkFile "/root/sub" (Z.lor ModeDir 511) "" None)) = 511%Z
  /\ snd (uncompressFile usual_umask "out"
            (mkFile "/root/sub" (Z.lor ModeDir 511) "" None) out_fs) !! "out/sub"
     = Some (Directory 493)
  /\ Directory 493 <> Directory 511
  /\ (<["out/a.txt" := Regular 420 "hi"]> out_fs) !! "out/a.txt/sub" = None
  /\ uncompressFile no_faults "out" (mkFile "/root/a.txt/sub" (Z.lor ModeDir 493) "" None)
       (<["out/a.txt" := Regular 420 "hi"]> out_fs)
     = (None, <["out/a.txt" := Regular 420 "hi"]> out_fs).
Proof.
  split; [reflexivity|]. split; [vm_compute; reflexivity|].
  split; [discriminate|]. split; vm_compute; reflexivity.
Qed.

(** C10: Exists is false exactly when os.Stat fails with a not-exist
    error; when it fails with any other error Exists is true, and
    uncompressFile on a directory entry for that path returns nil without
    calling os.Mkdir and without reporting the failure. *)
Theorem Exists_true_on_other_errors (flt : faults) (fs : gmap string fnode)
    (path : string) :
  (Exists flt fs path = false
   <-> exists e, os_Stat flt fs path = inr e /\ is_ErrNotExist e = true)
  /\ (forall e, os_Stat flt fs path = inr e -> is_ErrNotExist e = false ->
        Exists flt fs path = true
        /\ forall localRootDirectory f,
             IsDir f = true ->
             localFile_of localRootDirectory (Name f) = Some path ->
             uncompressFile flt localRootDirectory f fs = (None, fs)).
Proof.
  split; [apply Exists_false_iff|].
  intros e He Hne.
  assert (Hex : Exists flt fs path = true).
  { unfold Exists. rewrite He. now apply negb_true_iff. }
  split; [exact Hex|].
  intros root f Hdir Hdest. unfold uncompressFile. now rewrite Hdest, Hdir, Hex.
Qed.

(** C10 with permission denied on out/sub. *)
Lemma Exists_true_on_other_errors_witness :
  Exists stat_denied out_fs "out/sub" = true
  /\ uncompressFile stat_denied "out" dir_entry out_fs = (None, out_fs)
  /\ Exists no_faults out_fs "out/sub" = false.
Proof.
  pose proof (Exists_true_on_other_errors stat_denied out_fs "out/sub") as [_ H].
  pose proof (Exists_true_on_other_errors no_faults out_fs "out/sub") as [H0 _].
  destruct (H EACCES eq_refl eq_refl) as [H1 H2].
  split; [exact H1|]. split; [exact (H2 "out" dir_entry eq_refl eq_refl)|].
  apply H0. exists ENOENT. split; reflexivity.
Defined.

(** C5: for a path the walk hands to its callback, and a node that can be
    opened: when stripping the root prefix leaves the empty string the
    callback returns the "unexpected path" error and writes nothing, and the
    walk that meets it at its root ends with that error; otherwise the entry
    is written under a name that is not empty, is the stripped path with
    separators turned into '/', and starts with exactly one '/'. *)
Theorem walker_entry_name (flt : faults) (write_err : File -> option error)
    (localDirectoy path : string) (info : tree) (archive : list File) :
  walk_path localDirectoy path ->
  flt SysOpen path = None ->
  (* an empty stripped path: the callback fails, and with it the walk *)
  (TrimPrefix path localDirectoy = "" ->
     walkFn flt write_err localDirectoy path (Some info) None archive
     = (Some (ErrUnexpectedPath path), archive)
     /\ (path = localDirectoy ->
         forall lstat,
           flt SysLstat path = None -> lstat path = Some info ->
           flt SysReadDir path = None ->
           walker_stage flt lstat write_err localDirectoy
           = (Some (ErrUnexpectedPath path), [])))
  (* otherwise: the entry is written under the normalized stripped path,
     with one '/' in front *)
  /\ (TrimPrefix path localDirectoy <> "" ->
      exists name,
        customName_of Separator localDirectoy path = inr name
        /\ name <> ""
        /\ leading_slashes name = 1%nat
        /\ (name = ToSlash Separator (TrimPrefix path localDirectoy)
            \/ name = "/" +:+ ToSlash Separator (TrimPrefix path localDirectoy))
        /\ walkFn flt write_err localDirectoy path (Some info) None archive
           = compression_Write write_err
               (mkFile name (tree_Mode info) (tree_Content info) None) archive)
  (* on a platform with another separator, none is left in the name *)
  /\ (forall sep name,
        sep <> "/"%char ->
        customName_of sep localDirectoy path = inr name ->
        has_byte sep name = false).
Proof.
  intros Hpath Hopen. split; [|split].
  - intros Hempty. split.
    + unfold walkFn, customName_of. now rewrite Hopen, Hempty.
    + intros -> lstat H1 H2 H3.
      now apply (walker_stage_unexpected_path flt lstat write_err localDirectoy info).
  - intros Hne.
    destruct (customName_of_nonempty Separator localDirectoy path Hne)
      as (name & Hname & Hnonempty & Hlead & Hshape).
    exists name. split; [exact Hname|]. split; [exact Hnonempty|]. split; [|split].
    + rewrite Hlead.
      assert (Hle : (leading_slashes (ToSlash Separator (TrimPrefix path localDirectoy)) <= 1)%nat).
      { apply no_double_slash_leading. rewrite ToSlash_unix.
        apply TrimPrefix_no_double_slash.
        destruct (walk_path_shape _ _ Hpath) as [-> | H]; [|exact H].
        rewrite TrimPrefix_self in Hne. contradiction. }
      lia.
    + destruct Hshape as [H | [_ H]]; [now left | now right].
    + unfold walkFn. now rewrite Hopen, Hname.
  - intros sep name Hsep Hname.
    now apply (customName_no_separator sep localDirectoy path).
Qed.

(** C5 on root/a.txt below root, and on root itself. *)
Lemma walker_entry_name_witness :
  walkFn no_faults (fun _ => None) "root" "root/a.txt" (Some (TFile 420 "hi")) None []
  = (None, [mkFile "/a.txt" 420 "hi" None])
  /\ walkFn no_faults (fun _ => None) "root" "root" (Some scenario_tree) None []
     = (Some (ErrUnexpectedPath "root"), []).
Proof.
  assert (Hp : walk_path "root" "root/a.txt")
    by exact (walk_path_child "root" "root" "a.txt" (walk_path_root "root")).
  pose proof (walker_entry_name no_faults (fun _ => None) "root" "root/a.txt"
                (TFile 420 "hi") [] Hp eq_refl) as (_ & H & _).
  pose proof (walker_entry_name no_faults (fun _ => None) "root" "root"
                scenario_tree [] (walk_path_root "root") eq_refl) as (H0 & _ & _).
  split.
  - destruct H as (name & Hn & _ & _ & _ & Hw); [discriminate|].
    rewrite Hw. injection Hn as <-. reflexivity.
  - exact (proj1 (H0 eq_refl)).
Defined.

(** *** The codec tag *)

Lemma lower_byte_slash (c : ascii) : is_slash (lower_byte c) = is_slash c.
Proof. destruct c as [[] [] [] [] [] [] [] []]; reflexivity. Qed.

Lemma lower_byte_dot (c : ascii) : Ascii.eqb (lower_byte c) "." = Ascii.eqb c ".".
Proof. destruct c as [[] [] [] [] [] [] [] []]; reflexivity. Qed.

Lemma Ext_scan_ToLower (l : list ascii) (suffix : string) :
  Ext_scan (map lower_byte l) (ToLower suffix) = ToLower (Ext_scan l suffix).
Proof.
  revert suffix. induction l as [|c l IH]; intros suffix; simpl; [reflexivity|].
  rewrite lower_byte_slash, lower_byte_dot.
  destruct (is_slash c); [reflexivity|].
  destruct (Ascii.eqb c "."); [reflexivity|].
  apply (IH (String c suffix)).
Qed.

Lemma list_ascii_ToLower (s : string) :
  list_ascii_of_string (ToLower s) = map lower_byte (list_ascii_of_string s).
Proof. induction s as [|c s IH]; simpl; congruence. Qed.

(** The tag of a key does not depend on the case of its letters. *)
Lemma Ext_ToLower (key : string) : Ext (ToLower key) = ToLower (Ext key).
Proof.
  unfold Ext. rewrite list_ascii_ToLower, <- map_rev.
  apply (Ext_scan_ToLower _ "").
Qed.

Lemma lower_byte_idem (c : ascii) : lower_byte (lower_byte c) = lower_byte c.
Proof. destruct c as [[] [] [] [] [] [] [] []]; reflexivity. Qed.

Lemma ToLower_idem (s : string) : ToLower (ToLower s) = ToLower s.
Proof. induction s as [|c s IH]; simpl; [reflexivity|]. now rewrite lower_byte_idem, IH. Qed.

Lemma tag_case_insensitive (k1 k2 : string) :
  ToLower k1 = ToLower k2 -> ToLower (Ext k1) = ToLower (Ext k2).
Proof. intros H. now rewrite <- !Ext_ToLower, H. Qed.

(** *** The trace only grows *)

Lemma extends_ret {A : Type} (a : A) : extends_trace (ret a).
Proof. intros s. exists []. now rewrite app_nil_r. Qed.

Lemma extends_bind {A B : Type} (m : M A) (k : A -> M B) :
  extends_trace m -> (forall a, extends_trace (k a)) -> extends_trace (bind m k).
Proof.
  intros Hm Hk s. unfold bind. destruct (Hm s) as [r1 H1].
  destruct (m s) as [[a| |] s1]; cbn [snd] in *; [|now exists r1|now exists r1].
  destruct (Hk a s1) as [r2 H2]. exists (r1 ++ r2)%list.
  now rewrite H2, H1, app_assoc.
Qed.

Lemma extends_emit (e : event) : extends_trace (emit e).
Proof. intros s. now exists [e]. Qed.

Lemma extends_same {A : Type} (m : M A) :
  (forall s, trace (snd (m s)) = trace s) -> extends_trace m.
Proof. intros H s. exists []. now rewrite app_nil_r. Qed.

Lemma trace_fold_mark (mark : state -> nat -> state) (l : list nat) (s : state) :
  (forall s p, trace (mark s p) = trace s) -> trace (fold_left mark l s) = trace s.
Proof.
  intros H. revert s. induction l as [|p l IH]; intros s; simpl; [reflexivity|].
  now rewrite IH, H.
Qed.

Lemma mark_reader_trace (s : state) (p : nat) : trace (mark_reader s p) = trace s.
Proof. unfold mark_reader. destruct (pipes s !! p) as [[r w]|]; reflexivity. Qed.

Lemma mark_writer_trace (s : state) (p : nat) : trace (mark_writer s p) = trace s.
Proof. unfold mark_writer. destruct (pipes s !! p) as [[r w]|]; reflexivity. Qed.

Lemma extends_go (g : stage) (reads writes : list nat) :
  extends_trace (go g reads writes).
Proof.
  intros s. exists [EvGo g]. unfold go. cbn [snd set_trace trace].
  rewrite (trace_fold_mark mark_writer) by apply mark_writer_trace.
  now rewrite (trace_fold_mark mark_reader) by apply mark_reader_trace.
Qed.

Lemma extends_io_Pipe : extends_trace io_Pipe.
Proof. apply extends_same. reflexivity. Qed.

Lemma extends_caller_reads (p : nat) : extends_trace (caller_reads p).
Proof.
  apply extends_same. intros s. unfold caller_reads.
  destruct (pipes s !! p) as [[r []]|]; reflexivity.
Qed.

Lemma extends_caller_writes (p : nat) : extends_trace (caller_writes p).
Proof.
  apply extends_same. intros s. unfold caller_writes.
  destruct (pipes s !! p) as [[[] w]|]; reflexivity.
Qed.

Lemma extends_install_cancel : extends_trace install_cancel.
Proof. intros s. now exists [EvInstall (contexts s)]. Qed.

Lemma extends_Cancel : extends_trace Cancel.
Proof.
  intros s. unfold Cancel, bind, call_cancel, emit. cbn [fst snd].
  destruct (cancel (sess s)); cbn [snd trace set_trace set_sess set_cancelled];
    [exists []; now rewrite app_nil_r | now exists [EvCancel] | now exists [EvCancel]].
Qed.

Ltac extends :=
  repeat first
    [ apply extends_ret | apply extends_emit | apply extends_io_Pipe | apply extends_go
    | apply extends_caller_reads | apply extends_caller_writes
    | apply extends_install_cancel | apply extends_Cancel
    | apply extends_bind; [|intros ?]
    | match goal with
      | |- extends_trace (match ?x with _ => _ end) => destruct x
      | |- extends_trace (if ?x then _ else _) => destruct x
      | |- extends_trace (let '(_, _) := ?x in _) => destruct x
      end ].

Lemma extends_UploadWithContext (E : env) (key : string) (body : object + error) :
  extends_trace (UploadWithContext E key body).
Proof.
  unfold UploadWithContext. extends; apply extends_same; reflexivity.
Qed.

Lemma extends_DownloadWithContext_pipe (E : env) (key root : string) (out : nat) :
  extends_trace (DownloadWithContext_pipe E key root out).
Proof.
  unfold DownloadWithContext_pipe. extends. apply extends_same. intros s.
  destruct (match remote s !! key with Some _ => _ | None => _ end)
    as [err [entries ending]].
  destruct (consumer_stage (flt E) root entries ending (local s)) as [sent fs'].
  reflexivity.
Qed.

Ltac extends_calls :=
  repeat first
    [ apply extends_UploadWithContext | apply extends_DownloadWithContext_pipe
    | apply extends_ret | apply extends_emit | apply extends_io_Pipe | apply extends_go
    | apply extends_caller_reads | apply extends_caller_writes
    | apply extends_install_cancel | apply extends_Cancel
    | apply extends_bind; [|intros ?]
    | match goal with
      | |- extends_trace (match ?x with _ => _ end) => destruct x
      | |- extends_trace (if ?x then _ else _) => destruct x
      | |- extends_trace (let '(_, _) := ?x in _) => destruct x
      end ].

Lemma extends_upload_tail (E : env) (dir key : string) (p q : nat) :
  extends_trace (upload_tail E dir key p q).
Proof. unfold upload_tail, defer. extends_calls. Qed.

Lemma extends_download_tail (E : env) (key root : string) (p q : nat) :
  extends_trace (download_tail E key root p q).
Proof. unfold download_tail, defer. extends_calls. Qed.

Ltac extends_methods :=
  repeat first
    [ apply extends_upload_tail | apply extends_download_tail
    | apply extends_UploadWithContext | apply extends_DownloadWithContext_pipe
    | apply extends_ret | apply extends_emit | apply extends_io_Pipe | apply extends_go
    | apply extends_caller_reads | apply extends_caller_writes
    | apply extends_install_cancel | apply extends_Cancel
    | apply extends_bind; [|intros ?]
    | match goal with
      | |- extends_trace (match ?x with _ => _ end) => destruct x
      | |- extends_trace (if ?x then _ else _) => destruct x
      | |- extends_trace (let '(_, _) := ?x in _) => destruct x
      end ].

(** A computation that opens a codec first: the trace goes on with EvCodec. *)
Lemma codec_first {A : Type} (m : M A) (s s0 : state) :
  extends_trace m -> trace s0 = trace s ->
  exists rest,
    trace (snd ((emit EvCodec ;;; m) s0)) = (trace s ++ EvCodec :: rest)%list.
Proof.
  intros Hm Hs. unfold bind at 1, emit.
  destruct (Hm (set_trace (trace s0 ++ [EvCodec])%list s0)) as [rest H].
  exists rest. rewrite H. cbn [trace set_trace]. now rewrite Hs, <- app_assoc.
Qed.

Lemma upload_opens_codec (E : env) (dir key : string) (s : state) :
  ToLower (Ext key) = ".xz" \/ ToLower (Ext key) = ".zstd" ->
  exists rest,
    trace (snd (UploadCompressedDirectory E dir key s))
    = (trace s ++ EvCodec :: rest)%list.
Proof.
  intros [Hext|Hext];
    unfold UploadCompressedDirectory; unfold bind at 1, io_Pipe; cbv zeta;
    rewrite Hext; cbn [String.eqb Ascii.eqb Bool.eqb].
  - apply codec_first; [|reflexivity].
    destruct (create_err E); [apply extends_ret | apply extends_upload_tail].
  - unfold bind at 1, io_Pipe.
    apply codec_first; [|reflexivity].
    unfold defer. extends_methods.
Qed.

Lemma download_opens_codec (E : env) (key root : string) (s : state) :
  ToLower (Ext key) = ".xz" \/ ToLower (Ext key) = ".zstd" ->
  exists rest,
    trace (snd (DownloadCompressedDirectory E key root s))
    = (trace s ++ EvCodec :: rest)%list.
Proof.
  intros [Hext|Hext];
    unfold DownloadCompressedDirectory; unfold bind at 1, io_Pipe; cbv zeta;
    rewrite Hext; cbn [String.eqb Ascii.eqb Bool.eqb].
  - apply codec_first; [|reflexivity].
    destruct (open_err E); [apply extends_ret | apply extends_download_tail].
  - unfold bind at 1, io_Pipe.
    apply codec_first; [|reflexivity].
    unfold defer, io_Copy. extends_methods.
Qed.

(** C4: when the lower-cased extension of the key is neither ".xz" nor
    ".zstd", UploadCompressedDirectory and DownloadCompressedDirectory
    return the "unknown extension" error having done nothing but allocate
    their first pipe: the bucket, the local file system, the session and the
    trace of the calling goroutine are unchanged. The tag is read without
    regard to case: keys equal up to the case of their letters have the same
    lower-cased extension, and on every key whose lower-cased extension is
    ".xz" or ".zstd", however its letters are cased, both methods go on to
    open a codec, which is the next event of the calling goroutine. *)
Theorem unknown_extension_fails_fast (E : env)
    (localDirectoy localRootDirectory s3FilePath : string) (s : state) :
  ToLower (Ext s3FilePath) <> ".xz" ->
  ToLower (Ext s3FilePath) <> ".zstd" ->
  let up := UploadCompressedDirectory E localDirectoy s3FilePath s in
  let down := DownloadCompressedDirectory E s3FilePath localRootDirectory s in
  fst up = Returns (Some (ErrUnknownExtension s3FilePath))
  /\ fst down = Returns (Some (ErrUnknownExtension s3FilePath))
  /\ snd up = set_pipes (pipes s ++ [mkPipe false false])%list s
  /\ snd down = snd up
  /\ remote (snd up) = remote s /\ local (snd up) = local s
  /\ trace (snd up) = trace s /\ sess (snd up) = sess s
  /\ (forall k1 k2, ToLower k1 = ToLower k2 -> ToLower (Ext k1) = ToLower (Ext k2))
  /\ (forall E' dir root key s',
        ToLower (Ext key) = ".xz" \/ ToLower (Ext key) = ".zstd" ->
        (exists rest,
           trace (snd (UploadCompressedDirectory E' dir key s'))
           = (trace s' ++ EvCodec :: rest)%list)
        /\ (exists rest,
              trace (snd (DownloadCompressedDirectory E' key root s'))
              = (trace s' ++ EvCodec :: rest)%list))
  /\ (forall k1 k2 E' dir root s',
        ToLower k1 = ToLower k2 ->
        (trace (snd (UploadCompressedDirectory E' dir k1 s')) = trace s'
         <-> trace (snd (UploadCompressedDirectory E' dir k2 s')) = trace s')
        /\ (trace (snd (DownloadCompressedDirectory E' k1 root s')) = trace s'
            <-> trace (snd (DownloadCompressedDirectory E' k2 root s')) = trace s')).
Proof.
  intros Hxz Hzstd.
  assert (Hup : forall E' dir key s',
             trace (snd (UploadCompressedDirectory E' dir key s')) = trace s'
             <-> (ToLower (Ext key) <> ".xz" /\ ToLower (Ext key) <> ".zstd")).
  { intros E' dir key s'. split.
    - intros Ht. split; intros Hext;
        (destruct (upload_opens_codec E' dir key s') as [rest Hr]; [auto|]);
        rewrite Ht in Hr; apply (f_equal (@List.length event)) in Hr;
        rewrite length_app in Hr; cbn [List.length] in Hr; lia.
    - intros [H1 H2]. apply String.eqb_neq in H1, H2.
      unfold UploadCompressedDirectory, bind, io_Pipe. cbv zeta.
      now rewrite H1, H2. }
  assert (Hdown : forall E' key root s',
             trace (snd (DownloadCompressedDirectory E' key root s')) = trace s'
             <-> (ToLower (Ext key) <> ".xz" /\ ToLower (Ext key) <> ".zstd")).
  { intros E' key root s'. split.
    - intros Ht. split; intros Hext;
        (destruct (download_opens_codec E' key root s') as [rest Hr]; [auto|]);
        rewrite Ht in Hr; apply (f_equal (@List.length event)) in Hr;
        rewrite length_app in Hr; cbn [List.length] in Hr; lia.
    - intros [H1 H2]. apply String.eqb_neq in H1, H2.
      unfold DownloadCompressedDirectory, bind, io_Pipe. cbv zeta.
      now rewrite H1, H2. }
  intros up down.
  assert (Hu : up = (Returns (Some (ErrUnknownExtension s3FilePath)),
                     set_pipes (pipes s ++ [mkPipe false false])%list s)).
  { apply String.eqb_neq in Hxz, Hzstd. unfold up.
    unfold UploadCompressedDirectory, bind, io_Pipe. cbv zeta. now rewrite Hxz, Hzstd. }
  assert (Hd : down = (Returns (Some (ErrUnknownExtension s3FilePath)),
                       set_pipes (pipes s ++ [mkPipe false false])%list s)).
  { apply String.eqb_neq in Hxz, Hzstd. unfold down.
    unfold DownloadCompressedDirectory, bind, io_Pipe. cbv zeta. now rewrite Hxz, Hzstd. }
  rewrite Hu, Hd. cbn [fst snd remote local trace sess set_pipes].
  split; [reflexivity|]. split; [reflexivity|]. split; [reflexivity|].
  split; [reflexivity|]. split; [reflexivity|]. split; [reflexivity|].
  split; [reflexivity|]. split; [reflexivity|].
  split; [exact tag_case_insensitive|]. split.
  - intros E' dir root key s' Hext. split;
      [now apply upload_opens_codec | now apply download_opens_codec].
  - intros k1 k2 E' dir root s' Hk.
    pose proof (tag_case_insensitive k1 k2 Hk) as Ht.
    rewrite !Hup, !Hdown, Ht. split; reflexivity.
Qed.

(** C4 on the key backup.tar.gz, and on the keys backup.XZ and
    backup.tar.ZsTd, which are taken as backup.xz and backup.tar.zstd are. *)
Lemma unknown_extension_fails_fast_witness :
  fst (UploadCompressedDirectory (quiet_env scenario_lstat) "root" "backup.tar.gz"
         (fresh_state "bucket" cwd_only ∅))
  = Returns (Some (ErrUnknownExtension "backup.tar.gz"))
  /\ fst (DownloadCompressedDirectory (quiet_env scenario_lstat) "backup.tar.gz" "out"
            (fresh_state "bucket" cwd_only ∅))
     = Returns (Some (ErrUnknownExtension "backup.tar.gz"))
  /\ (exists rest,
        trace (snd (UploadCompressedDirectory (quiet_env scenario_lstat) "root" "backup.XZ"
                      (fresh_state "bucket" cwd_only ∅)))
        = EvCodec :: rest)
  /\ (exists rest,
        trace (snd (DownloadCompressedDirectory (quiet_env scenario_lstat)
                      "backup.tar.ZsTd" "out" (fresh_state "bucket" cwd_only ∅)))
        = EvCodec :: rest).
Proof.
  assert (H1 : ToLower (Ext "backup.tar.gz") <> ".xz") by discriminate.
  assert (H2 : ToLower (Ext "backup.tar.gz") <> ".zstd") by discriminate.
  pose proof (unknown_extension_fails_fast (quiet_env scenario_lstat) "root" "out"
                "backup.tar.gz" (fresh_state "bucket" cwd_only ∅) H1 H2)
    as (Hu & Hd & _ & _ & _ & _ & _ & _ & _ & Hok & _).
  split; [exact Hu|]. split; [exact Hd|]. split.
  - exact (proj1 (Hok (quiet_env scenario_lstat) "root" "out" "backup.XZ"
                    (fresh_state "bucket" cwd_only ∅) (or_introl eq_refl))).
  - exact (proj2 (Hok (quiet_env scenario_lstat) "root" "out" "backup.tar.ZsTd"
                    (fresh_state "bucket" cwd_only ∅) (or_intror eq_refl))).
Defined.

Create HintDb session discriminated.

Lemma keeps_ret {A : Type} (a : A) : keeps_session (ret a).
Proof. intros s. reflexivity. Qed.

Lemma keeps_bind {A B : Type} (m : M A) (k : A -> M B) :
  keeps_session m -> (forall a, keeps_session (k a)) -> keeps_session (bind m k).
Proof.
  intros Hm Hk s. unfold bind. specialize (Hm s).
  destruct (m s) as [[a| |] s1]; [|exact Hm|exact Hm].
  specialize (Hk a s1). destruct (k a s1) as [[b| |] s2]; congruence.
Qed.

Lemma keeps_emit (e : event) : keeps_session (emit e).
Proof. intros s. reflexivity. Qed.

Lemma keeps_io_Pipe : keeps_session io_Pipe.
Proof. intros s. reflexivity. Qed.

Lemma sess_mark_reader (s : state) (p : nat) : sess (mark_reader s p) = sess s.
Proof. unfold mark_reader. destruct (pipes s !! p) as [[r w]|]; reflexivity. Qed.

Lemma sess_mark_writer (s : state) (p : nat) : sess (mark_writer s p) = sess s.
Proof. unfold mark_writer. destruct (pipes s !! p) as [[r w]|]; reflexivity. Qed.

Lemma sess_fold_mark (f : state -> nat -> state) (ps : list nat) (s : state) :
  (forall s p, sess (f s p) = sess s) -> sess (fold_left f ps s) = sess s.
Proof.
  intros Hf. revert s. induction ps as [|p ps IH]; intros s; simpl; [reflexivity|].
  now rewrite IH, Hf.
Qed.

Lemma keeps_go (g : stage) (reads writes : list nat) : keeps_session (go g reads writes).
Proof.
  intros s. unfold go. simpl.
  rewrite (sess_fold_mark mark_writer) by apply sess_mark_writer.
  now rewrite (sess_fold_mark mark_reader) by apply sess_mark_reader.
Qed.

Lemma keeps_caller_reads (p : nat) : keeps_session (caller_reads p).
Proof.
  intros s. unfold caller_reads.
  destruct (pipes s !! p) as [[r []]|]; reflexivity.
Qed.

Lemma keeps_caller_writes (p : nat) : keeps_session (caller_writes p).
Proof.
  intros s. unfold caller_writes.
  destruct (pipes s !! p) as [[[] w]|]; reflexivity.
Qed.

#[export] Hint Resolve keeps_ret keeps_emit keeps_io_Pipe keeps_go
  keeps_caller_reads keeps_caller_writes : session.

Ltac keeps :=
  repeat first
    [ solve [auto with session]
    | apply keeps_bind; [|intros ?]
    | match goal with
      | |- keeps_session (match ?x with _ => _ end) => destruct x
      | |- keeps_session (if ?x then _ else _) => destruct x
      | |- keeps_session (let '(_, _) := ?x in _) => destruct x
      end ].

Lemma keeps_defer {A : Type} (d : M unit) (body : M A) :
  keeps_session d -> keeps_session body -> keeps_session (defer d body).
Proof. intros Hd Hb. unfold defer. keeps; assumption. Qed.

Lemma keeps_os_Open (E : env) (name : string) : keeps_session (os_Open E name).
Proof.
  unfold os_Open. keeps; intros s.
  destruct (flt E SysOpen name); [reflexivity|].
  destruct (local s !! name); reflexivity.
Qed.

Lemma keeps_UploadWithContext (E : env) (key : string) (body : object + error) :
  keeps_session (UploadWithContext E key body).
Proof. unfold UploadWithContext. keeps; intros s; reflexivity. Qed.

Lemma keeps_DownloadWithContext_pipe (E : env) (key root : string) (out : nat) :
  keeps_session (DownloadWithContext_pipe E key root out).
Proof.
  unfold DownloadWithContext_pipe. keeps; intros s.
  destruct (match remote s !! key with Some _ => _ | None => _ end)
    as [err [entries ending]].
  destruct (consumer_stage (flt E) root entries ending (local s)) as [sent fs'].
  reflexivity.
Qed.

Lemma keeps_io_Copy (from to : nat) : keeps_session (io_Copy from to).
Proof. unfold io_Copy. keeps. Qed.

#[export] Hint Resolve keeps_defer keeps_os_Open keeps_UploadWithContext
  keeps_DownloadWithContext_pipe keeps_io_Copy : session.

(** Installing a cancel function: the slot holds the function of a fresh
    context, whatever it held, and no context is cancelled by it. *)
Lemma install_cancel_spec (s : state) :
  fst (install_cancel s) = Returns (contexts s)
  /\ cancel (sess (snd (install_cancel s))) = CtxCancel (contexts s)
  /\ bucket (sess (snd (install_cancel s))) = bucket (sess s)
  /\ cancelled (snd (install_cancel s)) = cancelled s.
Proof. repeat split. Qed.

(** Cancel on a callable slot: it returns and leaves the no-op. *)
Lemma Cancel_spec (s : state) :
  cancel (sess s) <> NilFunc ->
  fst (Cancel s) = Returns tt
  /\ sess (snd (Cancel s)) = mkSession (bucket (sess s)) NoOp.
Proof.
  intros H. unfold Cancel, bind, call_cancel, emit. simpl.
  destruct (cancel (sess s)); [contradiction | split; reflexivity | split; reflexivity].
Qed.

(** Cancel on the no-op: nothing happens but the trace entry. *)
Lemma Cancel_idle (s : state) :
  cancel (sess s) = NoOp ->
  Cancel s = (Returns tt, set_trace (trace s ++ [EvCancel])%list s).
Proof.
  intros H. unfold Cancel, bind, call_cancel, emit. simpl. rewrite H. simpl.
  destruct s as [[b c] n cs l r p t]. simpl in *. now subst.
Qed.

(** The shape every method has once it starts a transfer: install, defer
    Cancel, and a body that leaves the session alone. *)
Lemma settles_bracket {A : Type} (body : nat -> M A) :
  (forall ctx, keeps_session (body ctx)) ->
  settles_slot (ctx <- install_cancel ;; defer Cancel (body ctx)).
Proof.
  intros Hbody s. unfold bind at 1.
  destruct (install_cancel_spec s) as (Hr & Hc & _ & _).
  destruct (install_cancel s) as [o s1]. simpl in Hr, Hc. subst o.
  unfold defer, bind.
  specialize (Hbody (contexts s) s1).
  destruct (body (contexts s) s1) as [[a| |] s2]; [| |exact Hbody].
  - assert (Hcall : cancel (sess s2) <> NilFunc) by (rewrite Hbody, Hc; discriminate).
    destruct (Cancel_spec s2 Hcall) as [Hret Hsess].
    destruct (Cancel s2) as [o s3]. simpl in Hret, Hsess. subst o.
    left. simpl. now rewrite Hsess.
  - left. rewrite Hbody, Hc. discriminate.
Qed.

Lemma settles_keeps {A : Type} (m : M A) : keeps_session m -> settles_slot m.
Proof.
  intros H s. specialize (H s). destruct (m s) as [[a| |] s1]; auto.
Qed.

Lemma settles_bind {A B : Type} (m : M A) (k : A -> M B) :
  keeps_session m -> (forall a, settles_slot (k a)) -> settles_slot (bind m k).
Proof.
  intros Hm Hk s. unfold bind. specialize (Hm s).
  destruct (m s) as [[a| |] s1]; [|now right|exact Hm].
  specialize (Hk a s1). destruct (k a s1) as [[b| |] s2]; [| |exact Hk];
    (destruct Hk as [H|H]; [now left | right; congruence]).
Qed.

Lemma settles_defer_keeps {A : Type} (d : M unit) (body : M A) :
  keeps_session d -> settles_slot body -> settles_slot (defer d body).
Proof.
  intros Hd Hb s. unfold defer, bind. specialize (Hb s).
  destruct (body s) as [[a| |] s1]; [|exact Hb|exact Hb].
  specialize (Hd s1). destruct (d s1) as [[[]| |] s2]; [| |exact Hd].
  - simpl. destruct Hb as [H|H]; [left | right]; congruence.
  - destruct Hb as [H|H]; [left | right]; [|congruence].
    rewrite Hd, H. discriminate.
Qed.

Ltac settles :=
  repeat first
    [ apply settles_bracket; intros ?; solve [keeps]
    | apply settles_defer_keeps; [solve [keeps]|]
    | apply settles_bind; [solve [keeps] | intros ?]
    | apply settles_keeps; solve [keeps]
    | match goal with
      | |- settles_slot (match ?x with _ => _ end) => destruct x
      | |- settles_slot (if ?x then _ else _) => destruct x
      | |- settles_slot (let '(_, _) := ?x in _) => destruct x
      end ].

Lemma settles_upload_tail (E : env) (dir key : string) (p q : nat) :
  settles_slot (upload_tail E dir key p q).
Proof. unfold upload_tail. settles. Qed.

Lemma settles_download_tail (E : env) (key root : string) (p q : nat) :
  settles_slot (download_tail E key root p q).
Proof. unfold download_tail. settles. Qed.

Lemma settles_run_transfer (E : env) (op : transfer) : settles_slot (run_transfer E op).
Proof.
  destruct op as [|l k|l k|k l|k l]; unfold run_transfer.
  - unfold GetCredentials. intros s.
    assert (Hk : forall ctx : nat,
               keeps_session (emit EvCredentials ;;; ret (credentials E)))
      by (intros ?; keeps).
    pose proof (settles_bracket _ Hk s) as H.
    unfold bind at 1.
    destruct ((ctx <- install_cancel ;;
               defer Cancel (emit EvCredentials ;;; ret (credentials E))) s)
      as [[a| |] s1]; exact H.
  - unfold UploadFile. settles.
  - unfold UploadCompressedDirectory. settles; apply settles_upload_tail.
  - unfold DownloadFile.
    apply settles_bind; [keeps|intros _].
    apply settles_bind.
    { intros s. destruct (os_Create (flt E) (local s) l) as [err fs']. reflexivity. }
    intros err. destruct err; [settles|].
    apply settles_bracket. intros ctx. keeps;
      intros s; destruct (remote s !! k); [destruct (get_err E)|]; reflexivity.
  - unfold DownloadCompressedDirectory. settles; apply settles_download_tail.
Qed.

Lemma run_calls_settled (calls : list call) (s : state) :
  cancel (sess s) = NoOp ->
  match run_calls calls s with
  | (Returns _, s') => cancel (sess s') = NoOp
  | (Hangs, s') => cancel (sess s') <> NilFunc
  | (Panics, _) => False
  end.
Proof.
  revert s. induction calls as [|c calls IH]; intros s Hs; [exact Hs|].
  cbn [run_calls]. unfold bind at 1.
  destruct c as [E op|].
  - pose proof (settles_run_transfer E op s) as H.
    unfold bind at 1.
    destruct (run_transfer E op s) as [[r| |] s1]; [| |exact H].
    + cbn [ret]. apply IH. destruct H as [H|H]; [exact H | congruence].
    + destruct H as [H|H]; [exact H|]. rewrite H, Hs. discriminate.
  - rewrite (Cancel_idle s Hs). apply IH. exact Hs.
Qed.

Lemma do_step_callable (st : slot_step) (s : state) :
  cancel (sess s) <> NilFunc ->
  fst (do_step st s) = Returns tt
  /\ cancel (sess (snd (do_step st s))) <> NilFunc
  /\ (st = StepCancel -> cancel (sess (snd (do_step st s))) = NoOp).
Proof.
  intros Hs. destruct st.
  - split; [reflexivity|]. split; [discriminate | discriminate].
  - destruct (Cancel_spec s Hs) as [H1 H2]. cbn [do_step].
    split; [exact H1|]. rewrite H2. split; [discriminate | reflexivity].
Qed.

Lemma run_steps_callable (steps : list slot_step) (s : state) :
  cancel (sess s) <> NilFunc ->
  fst (run_steps steps s) = Returns tt
  /\ cancel (sess (snd (run_steps steps s))) <> NilFunc.
Proof.
  revert s. induction steps as [|st steps IH]; intros s Hs; [now split|].
  cbn [run_steps]. unfold bind.
  destruct (do_step_callable st s Hs) as (H1 & H2 & _).
  destruct (do_step st s) as [o s1]. simpl in H1, H2. subst o.
  now apply IH.
Qed.

Lemma run_steps_last_cancel (steps : list slot_step) (s : state) :
  cancel (sess s) <> NilFunc ->
  cancel (sess (snd (run_steps (steps ++ [StepCancel]) s))) = NoOp.
Proof.
  revert s. induction steps as [|st steps IH]; intros s Hs.
  - cbn [app run_steps]. unfold bind.
    destruct (do_step_callable StepCancel s Hs) as (H1 & _ & H3).
    destruct (do_step StepCancel s) as [o s1]. simpl in H1, H3. subst o.
    now apply H3.
  - cbn [app run_steps]. unfold bind.
    destruct (do_step_callable st s Hs) as (H1 & H2 & _).
    destruct (do_step st s) as [o s1]. simpl in H1, H2. subst o.
    now apply IH.
Qed.

(** *** What a method leaves alone *)

Lemma preserves_ret {A X : Type} (proj : state -> X) (a : A) : preserves proj (ret a).
Proof. intros s. reflexivity. Qed.

Lemma preserves_bind {A B X : Type} (proj : state -> X) (m : M A) (k : A -> M B) :
  preserves proj m -> (forall a, preserves proj (k a)) -> preserves proj (bind m k).
Proof.
  intros Hm Hk s. unfold bind. specialize (Hm s).
  destruct (m s) as [[a| |] s1]; [|exact Hm|exact Hm].
  simpl in Hm. now rewrite Hk.
Qed.

Lemma preserves_defer {A X : Type} (proj : state -> X) (d : M unit) (body : M A) :
  preserves proj d -> preserves proj body -> preserves proj (defer d body).
Proof.
  intros Hd Hb. unfold defer.
  apply preserves_bind; [exact Hb|]. intros a.
  apply preserves_bind; [exact Hd|]. intros _. apply preserves_ret.
Qed.

Section Frame.
Context {X : Type} (proj : state -> X).
Hypothesis proj_trace : forall t s, proj (set_trace t s) = proj s.
Hypothesis proj_pipes : forall p s, proj (set_pipes p s) = proj s.

Lemma preserves_emit (e : event) : preserves proj (emit e).
Proof. intros s. apply proj_trace. Qed.

Lemma preserves_io_Pipe : preserves proj io_Pipe.
Proof. intros s. apply proj_pipes. Qed.

Lemma proj_mark_reader (s : state) (p : nat) : proj (mark_reader s p) = proj s.
Proof.
  unfold mark_reader. destruct (pipes s !! p) as [[r w]|]; [apply proj_pipes|reflexivity].
Qed.

Lemma proj_mark_writer (s : state) (p : nat) : proj (mark_writer s p) = proj s.
Proof.
  unfold mark_writer. destruct (pipes s !! p) as [[r w]|]; [apply proj_pipes|reflexivity].
Qed.

Lemma proj_fold_mark (mark : state -> nat -> state) (l : list nat) (s : state) :
  (forall s p, proj (mark s p) = proj s) -> proj (fold_left mark l s) = proj s.
Proof.
  intros H. revert s. induction l as [|p l IH]; intros s; simpl; [reflexivity|].
  now rewrite IH, H.
Qed.

Lemma preserves_go (g : stage) (reads writes : list nat) :
  preserves proj (go g reads writes).
Proof.
  intros s. unfold go. cbn [snd]. rewrite proj_trace.
  rewrite (proj_fold_mark mark_writer) by apply proj_mark_writer.
  now rewrite (proj_fold_mark mark_reader) by apply proj_mark_reader.
Qed.

Lemma preserves_caller_reads (p : nat) : preserves proj (caller_reads p).
Proof. intros s. unfold caller_reads. destruct (pipes s !! p) as [[r []]|]; reflexivity. Qed.

Lemma preserves_caller_writes (p : nat) : preserves proj (caller_writes p).
Proof. intros s. unfold caller_writes. destruct (pipes s !! p) as [[[] w]|]; reflexivity. Qed.

Lemma preserves_io_Copy (from to : nat) : preserves proj (io_Copy from to).
Proof.
  unfold io_Copy.
  apply preserves_bind; [apply preserves_emit|intros _].
  apply preserves_bind; [apply preserves_caller_reads|intros _].
  apply preserves_caller_writes.
Qed.

Lemma preserves_os_Open (E : env) (name : string) : preserves proj (os_Open E name).
Proof.
  unfold os_Open. apply preserves_bind; [apply preserves_emit|intros _].
  intros s. destruct (flt E SysOpen name); [reflexivity|].
  destruct (local s !! name); reflexivity.
Qed.

Lemma preserves_UploadWithContext (E : env) (key : string) (body : object + error) :
  (forall r s, proj (set_remote r s) = proj s) ->
  preserves proj (UploadWithContext E key body).
Proof.
  intros proj_remote. unfold UploadWithContext.
  apply preserves_bind; [apply preserves_emit|intros _].
  destruct (put_err E); [apply preserves_ret|].
  destruct body; [|apply preserves_ret].
  apply preserves_bind; [|intros _; apply preserves_ret].
  intros s. apply proj_remote.
Qed.

Lemma preserves_DownloadWithContext_pipe (E : env) (key root : string) (out : nat) :
  (forall l s, proj (set_local l s) = proj s) ->
  preserves proj (DownloadWithContext_pipe E key root out).
Proof.
  intros proj_local. unfold DownloadWithContext_pipe.
  apply preserves_bind; [apply preserves_caller_writes|intros _].
  apply preserves_bind; [apply preserves_emit|intros _].
  intros s.
  destruct (match remote s !! key with Some _ => _ | None => _ end)
    as [err [entries ending]].
  destruct (consumer_stage (flt E) root entries ending (local s)) as [sent fs'].
  apply proj_local.
Qed.

Hypothesis proj_contexts : forall n s, proj (set_contexts n s) = proj s.
Hypothesis proj_cancelled : forall c s, proj (set_cancelled c s) = proj s.
Hypothesis proj_slot :
  forall f s, proj (set_sess (mkSession (bucket (sess s)) f) s) = proj s.

Lemma preserves_install_cancel : preserves proj install_cancel.
Proof.
  intros s. unfold install_cancel, bind, context_WithCancel, emit, ret. cbn [snd].
  now rewrite proj_trace, proj_slot, proj_contexts.
Qed.

Lemma preserves_Cancel : preserves proj Cancel.
Proof.
  intros s. unfold Cancel, bind, call_cancel, emit. cbn [fst snd].
  destruct (cancel (sess s)); cbn [snd]; [reflexivity| |].
  - now rewrite proj_trace, proj_slot.
  - now rewrite proj_trace, proj_slot, proj_cancelled.
Qed.

Lemma preserves_bracket {A : Type} (body : nat -> M A) :
  (forall ctx, preserves proj (body ctx)) ->
  preserves proj (ctx <- install_cancel ;; defer Cancel (body ctx)).
Proof.
  intros H. apply preserves_bind; [apply preserves_install_cancel|intros ctx].
  apply preserves_defer; [apply preserves_Cancel | apply H].
Qed.

Hypothesis proj_remote : forall r s, proj (set_remote r s) = proj s.

Lemma preserves_upload_tail (E : env) (dir key : string) (p q : nat) :
  preserves proj (upload_tail E dir key p q).
Proof.
  unfold upload_tail.
  apply preserves_bind; [apply preserves_go|intros _].
  destruct (walker_stage (flt E) (lstat E) (write_err E) dir) as [stage_err entries].
  apply preserves_bracket. intros ctx.
  apply preserves_bind; [apply preserves_caller_reads|intros _].
  apply preserves_bind; [now apply preserves_UploadWithContext|intros err].
  destruct err; [apply preserves_ret|].
  apply preserves_bind; [apply preserves_emit|intros _].
  apply preserves_bind; [apply preserves_emit|intros _].
  apply preserves_ret.
Qed.

Lemma preserves_UploadCompressedDirectory (E : env) (dir key : string) :
  preserves proj (UploadCompressedDirectory E dir key).
Proof.
  unfold UploadCompressedDirectory.
  apply preserves_bind; [apply preserves_io_Pipe|intros p]. cbv zeta.
  destruct (String.eqb (ToLower (Ext key)) ".xz").
  { apply preserves_bind; [apply preserves_emit|intros _].
    destruct (create_err E); [apply preserves_ret | apply preserves_upload_tail]. }
  destruct (String.eqb (ToLower (Ext key)) ".zstd"); [|apply preserves_ret].
  apply preserves_bind; [apply preserves_io_Pipe|intros q].
  apply preserves_bind; [apply preserves_emit|intros _].
  destruct (create_err E); [apply preserves_ret|].
  apply preserves_bind; [apply preserves_emit|intros _].
  destruct (newwriter_err E); [apply preserves_ret|].
  apply preserves_defer; [apply preserves_ret|].
  apply preserves_bind; [apply preserves_go|intros _].
  apply preserves_upload_tail.
Qed.

Lemma preserves_UploadFile (E : env) (localFile key : string) :
  preserves proj (UploadFile E localFile key).
Proof.
  unfold UploadFile.
  apply preserves_bind; [apply preserves_os_Open|intros file].
  destruct file as [node|err]; [|apply preserves_ret].
  apply preserves_bracket. intros ctx. now apply preserves_UploadWithContext.
Qed.

Lemma preserves_GetCredentials (E : env) : preserves proj (GetCredentials E).
Proof.
  unfold GetCredentials. apply preserves_bracket. intros ctx.
  apply preserves_bind; [apply preserves_emit|intros _]. apply preserves_ret.
Qed.
End Frame.

Section FrameDownload.
Context {X : Type} (proj : state -> X).
Hypothesis proj_trace : forall t s, proj (set_trace t s) = proj s.
Hypothesis proj_pipes : forall p s, proj (set_pipes p s) = proj s.
Hypothesis proj_contexts : forall n s, proj (set_contexts n s) = proj s.
Hypothesis proj_cancelled : forall c s, proj (set_cancelled c s) = proj s.
Hypothesis proj_slot :
  forall f s, proj (set_sess (mkSession (bucket (sess s)) f) s) = proj s.
Hypothesis proj_local : forall l s, proj (set_local l s) = proj s.

Lemma preserves_download_tail (E : env) (key root : string) (p q : nat) :
  preserves proj (download_tail E key root p q).
Proof.
  unfold download_tail.
  apply preserves_bind; [now apply preserves_go|intros _].
  apply preserves_bracket; try assumption. intros ctx.
  apply preserves_bind; [now apply preserves_DownloadWithContext_pipe|intros r].
  apply preserves_bind; [now apply preserves_emit|intros _].
  destruct (fst r); [apply preserves_ret|].
  apply preserves_bind; [now apply preserves_emit|intros _].
  apply preserves_ret.
Qed.

Lemma preserves_DownloadCompressedDirectory (E : env) (key root : string) :
  preserves proj (DownloadCompressedDirectory E key root).
Proof.
  unfold DownloadCompressedDirectory.
  apply preserves_bind; [now apply preserves_io_Pipe|intros p]. cbv zeta.
  destruct (String.eqb (ToLower (Ext key)) ".xz").
  { apply preserves_bind; [now apply preserves_emit|intros _].
    destruct (open_err E); [apply preserves_ret | apply preserves_download_tail]. }
  destruct (String.eqb (ToLower (Ext key)) ".zstd"); [|apply preserves_ret].
  apply preserves_bind; [now apply preserves_io_Pipe|intros q].
  apply preserves_bind; [now apply preserves_emit|intros _].
  destruct (newreader_err E); [apply preserves_ret|].
  apply preserves_defer; [apply preserves_ret|].
  apply preserves_bind; [now apply preserves_io_Copy|intros _].
  apply preserves_bind; [now apply preserves_emit|intros _].
  destruct (open_err E); [apply preserves_ret | apply preserves_download_tail].
Qed.

Lemma preserves_DownloadFile (E : env) (key localFile : string) :
  preserves proj (DownloadFile E key localFile).
Proof.
  unfold DownloadFile.
  apply preserves_bind; [now apply preserves_emit|intros _].
  apply preserves_bind.
  { intros s. destruct (os_Create (flt E) (local s) localFile) as [err fs'].
    apply proj_local. }
  intros err. destruct err; [apply preserves_ret|].
  apply preserves_bracket; try assumption. intros ctx.
  apply preserves_bind; [now apply preserves_emit|intros _].
  intros s. destruct (remote s !! key); [destruct (get_err E); apply proj_local | reflexivity].
Qed.
End FrameDownload.

Ltac by_fields := try (intros; reflexivity).

Lemma bucket_run_transfer (E : env) (op : transfer) :
  preserves (fun s => bucket (sess s)) (run_transfer E op).
Proof.
  destruct op as [|l k|l k|k l|k l]; unfold run_transfer.
  - apply preserves_bind; [|intros ?; apply preserves_ret].
    apply preserves_GetCredentials; by_fields.
  - apply preserves_UploadFile; by_fields.
  - apply preserves_UploadCompressedDirectory; by_fields.
  - apply preserves_DownloadFile; by_fields.
  - apply preserves_DownloadCompressedDirectory; by_fields.
Qed.

(** *** Contexts: made, cancelled, lost *)

Ltac books :=
  repeat first
    [ apply preserves_ret
    | apply preserves_emit; by_fields
    | apply preserves_io_Pipe; by_fields
    | apply preserves_go; by_fields
    | apply preserves_caller_reads
    | apply preserves_caller_writes
    | apply preserves_io_Copy; by_fields
    | apply preserves_os_Open; by_fields
    | apply preserves_UploadWithContext; by_fields
    | apply preserves_DownloadWithContext_pipe; by_fields
    | apply preserves_defer
    | apply preserves_bind; [|intros ?]
    | match goal with
      | |- preserves _ (match ?x with _ => _ end) => destruct x
      | |- preserves _ (if ?x then _ else _) => destruct x
      | |- preserves _ (let '(_, _) := ?x in _) => destruct x
      end ].

Lemma one_context_quiet {A : Type} (m : M A) :
  preserves context_book m -> one_context m.
Proof.
  intros H s. specialize (H s). unfold context_book in H.
  destruct (m s) as [[a| |] s1]; simpl in H; [left|idtac|exact I].
  - now injection H.
  - now injection H.
Qed.

Lemma one_context_bind {A B : Type} (m : M A) (k : A -> M B) :
  preserves context_book m -> (forall a, one_context (k a)) -> one_context (bind m k).
Proof.
  intros Hm Hk s. unfold bind. specialize (Hm s). unfold context_book in Hm.
  destruct (m s) as [[a| |] s1]; simpl in Hm; injection Hm as Hc Hd;
    [|exact Hd|exact I].
  specialize (Hk a s1). destruct (k a s1) as [[b| |] s2]; [|congruence|exact I].
  rewrite <- Hc, <- Hd. exact Hk.
Qed.

Lemma one_context_defer_ret {A : Type} (body : M A) :
  one_context body -> one_context (defer (ret tt) body).
Proof.
  intros Hb s. unfold defer, bind, ret. specialize (Hb s).
  destruct (body s) as [[a| |] s1]; exact Hb.
Qed.

(** Install, defer Cancel, and a body that leaves the session and the
    contexts alone: the context made is cancelled when the body returns. *)
Lemma one_context_bracket {A : Type} (body : nat -> M A) :
  (forall ctx, keeps_session (body ctx)) ->
  (forall ctx, preserves context_book (body ctx)) ->
  one_context (ctx <- install_cancel ;; defer Cancel (body ctx)).
Proof.
  intros Hk Hb s. unfold bind at 1.
  change (install_cancel s)
    with (Returns (contexts s),
          set_trace (trace s ++ [EvInstall (contexts s)])%list
            (set_sess (mkSession (bucket (sess s)) (CtxCancel (contexts s)))
               (set_contexts (S (contexts s)) s))).
  cbv iota beta.
  set (s1 := set_trace _ _).
  unfold defer, bind.
  specialize (Hk (contexts s) s1). specialize (Hb (contexts s) s1).
  unfold context_book in Hb.
  destruct (body (contexts s) s1) as [[a| |] s2]; simpl in Hb, Hk;
    injection Hb as Hc Hx; [|exact Hx|exact I].
  unfold Cancel, bind, call_cancel, emit, ret. cbn [fst snd].
  rewrite Hk. cbn [sess cancel s1 set_trace set_sess].
  right. cbn [contexts cancelled set_trace set_sess set_cancelled].
  rewrite Hc, Hx. split; reflexivity.
Qed.

Ltac contexts_ok :=
  repeat first
    [ apply one_context_bracket; intros ?; [solve [keeps] | solve [books]]
    | apply one_context_defer_ret
    | apply one_context_bind; [solve [books] | intros ?]
    | apply one_context_quiet; solve [books]
    | match goal with
      | |- one_context (match ?x with _ => _ end) => destruct x
      | |- one_context (if ?x then _ else _) => destruct x
      | |- one_context (let '(_, _) := ?x in _) => destruct x
      end ].

Lemma one_context_upload_tail (E : env) (dir key : string) (p q : nat) :
  one_context (upload_tail E dir key p q).
Proof. unfold upload_tail. contexts_ok. Qed.

Lemma one_context_download_tail (E : env) (key root : string) (p q : nat) :
  one_context (download_tail E key root p q).
Proof. unfold download_tail. contexts_ok. Qed.

Lemma one_context_run_transfer (E : env) (op : transfer) :
  one_context (run_transfer E op).
Proof.
  destruct op as [|l k|l k|k l|k l]; unfold run_transfer.
  - unfold GetCredentials. intros s.
    assert (Hk : forall ctx : nat,
               keeps_session (emit EvCredentials ;;; ret (credentials E)))
      by (intros ?; keeps).
    assert (Hb : forall ctx : nat,
               preserves context_book (emit EvCredentials ;;; ret (credentials E)))
      by (intros ?; books).
    pose proof (one_context_bracket _ Hk Hb s) as H.
    unfold bind at 1.
    destruct ((ctx <- install_cancel ;;
               defer Cancel (emit EvCredentials ;;; ret (credentials E))) s)
      as [[a| |] s1]; exact H.
  - unfold UploadFile. contexts_ok.
  - unfold UploadCompressedDirectory. contexts_ok; apply one_context_upload_tail.
  - unfold DownloadFile.
    apply one_context_bind; [books|intros _].
    apply one_context_bind.
    { intros s. destruct (os_Create (flt E) (local s) l) as [err fs']. reflexivity. }
    intros err. destruct err; [contexts_ok|].
    apply one_context_bracket; intros ctx.
    + keeps; intros s; destruct (remote s !! k); [destruct (get_err E)|]; reflexivity.
    + books; intros s; destruct (remote s !! k); [destruct (get_err E)|]; reflexivity.
  - unfold DownloadCompressedDirectory. contexts_ok; apply one_context_download_tail.
Qed.

Lemma fresh_pipe_lookup (l : list pipe) (x : pipe) (rest : list pipe) :
  (l ++ x :: rest)%list !! List.length l = Some x.
Proof. apply list_lookup_middle. reflexivity. Qed.

(** The .zstd path: the copy runs on the calling goroutine before any
    goroutine is started and before the get; nothing feeds the pipe it
    reads, so the call never returns. *)
Lemma download_zstd_hangs (E : env) (key root : string) (s : state) :
  ToLower (Ext key) = ".zstd" ->
  newreader_err E = None ->
  DownloadCompressedDirectory E key root s
  = (Hangs,
     set_trace (trace s ++ [EvCodec; EvCopy])%list
       (set_pipes (pipes s ++ [mkPipe false false; mkPipe false false])%list s)).
Proof.
  intros Hext Hnew.
  unfold DownloadCompressedDirectory. unfold bind at 1, io_Pipe. cbv zeta.
  rewrite Hext. cbn [String.eqb Ascii.eqb Bool.eqb].
  unfold bind at 1. unfold bind at 1, emit. rewrite Hnew.
  unfold defer, io_Copy. unfold bind at 1. unfold bind at 1. unfold bind at 1, emit.
  unfold bind at 1, caller_reads.
  cbn [pipes set_trace set_sess set_contexts set_pipes fst snd].
  rewrite <- app_assoc. cbn [app].
  rewrite fresh_pipe_lookup. cbn [has_writer].
  destruct s as [a n c l r p t]. cbn. now rewrite <- !app_assoc.
Qed.

(** *** Which calls start a transfer, and what they do to the slot *)

Lemma unstarted_intro {A : Type} (m : M A) :
  keeps_session m -> preserves context_book m -> unstarted m.
Proof.
  intros Hk Hb s. specialize (Hk s). specialize (Hb s). unfold context_book in Hb.
  destruct (m s) as [[a| |] s1]; cbn [snd] in Hb; [| |exact Hk];
    injection Hb as Hc Hx; repeat split; assumption.
Qed.

Lemma passes_ret {A : Type} (a : A) : passes (ret a).
Proof. intros s. exists a. repeat split. Qed.

Lemma passes_emit (e : event) : passes (emit e).
Proof. intros s. exists tt. repeat split. Qed.

Lemma passes_io_Pipe : passes io_Pipe.
Proof. intros s. eexists. repeat split. Qed.

Lemma passes_go (g : stage) (reads writes : list nat) : passes (go g reads writes).
Proof.
  intros s. exists tt. split; [reflexivity|].
  pose proof (keeps_go g reads writes s) as Hk.
  assert (Hb : context_book (snd (go g reads writes s)) = context_book s)
    by (apply (preserves_go context_book); by_fields).
  unfold go in *. cbn [snd] in *. cbv beta iota zeta in Hk.
  unfold context_book in Hb. injection Hb as Hc Hx.
  repeat split; assumption.
Qed.

Lemma passes_bind {A B : Type} (m : M A) (k : A -> M B) :
  passes m -> (forall a, passes (k a)) -> passes (bind m k).
Proof.
  intros Hm Hk s. unfold bind. destruct (Hm s) as (a & Ha & H1 & H2 & H3).
  destruct (m s) as [o s1]. cbn [fst snd] in *. subst o.
  destruct (Hk a s1) as (b & Hb & H4 & H5 & H6).
  exists b. split; [exact Hb|]. repeat split; congruence.
Qed.

Lemma started_bind {A B : Type} (m : M A) (k : A -> M B) :
  passes m -> (forall a, started (k a)) -> started (bind m k).
Proof.
  intros Hm Hk s. unfold bind. destruct (Hm s) as (a & Ha & H1 & H2 & H3).
  destruct (m s) as [o s1]. cbn [fst snd] in *. subst o.
  specialize (Hk a s1). unfold slot_released, slot_in_flight in *.
  destruct (k a s1) as [[b| |] s2]; [| |exact Hk];
    destruct Hk as (H4 & H5 & H6); rewrite H4, H5, H6, H1, H2, H3; repeat split.
Qed.

Lemma started_defer_ret {A : Type} (body : M A) :
  started body -> started (defer (ret tt) body).
Proof.
  intros Hb s. unfold defer, bind, ret. specialize (Hb s).
  destruct (body s) as [[a| |] s1]; exact Hb.
Qed.

(** Install, defer Cancel, and a body that leaves the slot and the
    contexts alone. *)
Lemma started_bracket {A : Type} (body : nat -> M A) :
  (forall ctx, unstarted (body ctx)) ->
  started (ctx <- install_cancel ;; defer Cancel (body ctx)).
Proof.
  intros Hb s. unfold bind at 1.
  change (install_cancel s)
    with (Returns (contexts s),
          set_trace (trace s ++ [EvInstall (contexts s)])%list
            (set_sess (mkSession (bucket (sess s)) (CtxCancel (contexts s)))
               (set_contexts (S (contexts s)) s))).
  cbv iota beta.
  set (s1 := set_trace _ _).
  unfold defer, bind.
  specialize (Hb (contexts s) s1).
  destruct (body (contexts s) s1) as [[a| |] s2]; [| |exact Hb];
    destruct Hb as (Hk & Hc & Hx).
  - unfold Cancel, bind, call_cancel, emit, ret. cbn [fst snd].
    rewrite Hk. cbn [sess cancel s1 set_trace set_sess].
    unfold slot_released.
    cbn [sess contexts cancelled bucket set_trace set_sess set_cancelled].
    rewrite Hc, Hx. repeat split. now rewrite Hk.
  - unfold slot_in_flight. rewrite Hk, Hc, Hx. repeat split.
Qed.

Ltac unstarted_ok := apply unstarted_intro; [solve [keeps] | solve [books]].

Ltac passes_ok :=
  repeat first
    [ apply passes_ret | apply passes_emit | apply passes_io_Pipe | apply passes_go
    | apply passes_bind; [|intros ?] ].

Lemma started_upload_tail (E : env) (dir key : string) (p q : nat) :
  started (upload_tail E dir key p q).
Proof.
  unfold upload_tail. apply started_bind; [passes_ok|intros _].
  destruct (walker_stage (flt E) (lstat E) (write_err E) dir) as [stage_err entries].
  apply started_bracket. intros ctx. unstarted_ok.
Qed.

Lemma started_download_tail (E : env) (key root : string) (p q : nat) :
  started (download_tail E key root p q).
Proof.
  unfold download_tail. apply started_bind; [passes_ok|intros _].
  apply started_bracket. intros ctx. unstarted_ok.
Qed.

Lemma started_GetCredentials (E : env) : started (GetCredentials E).
Proof. unfold GetCredentials. apply started_bracket. intros ctx. unstarted_ok. Qed.

Lemma started_UploadFile_body (E : env) (key : string) (body : object + error) :
  started (ctxt <- install_cancel ;; defer Cancel (UploadWithContext E key body)).
Proof.
  apply (started_bracket (fun _ => UploadWithContext E key body)).
  intros ctx. unstarted_ok.
Qed.

Lemma started_DownloadFile_body (E : env) (key localFile : string) :
  started
    (ctxt <- install_cancel ;;
     defer Cancel (
       emit (EvGet key) ;;;
       fun s =>
         match remote s !! key with
         | None => (Returns (Some (ErrRemote "NoSuchKey")), s)
         | Some obj =>
             match get_err E with
             | Some err =>
                 (Returns (Some err),
                  set_local (file_append (local s) localFile
                               (string_take (get_bytes E) (object_bytes E obj))) s)
             | None =>
                 (Returns None,
                  set_local (file_append (local s) localFile (object_bytes E obj)) s)
             end
         end)).
Proof.
  apply (started_bracket (fun _ : nat => _)). intros ctx.
  apply unstarted_intro.
  - keeps; intros s; destruct (remote s !! key); [destruct (get_err E)|]; reflexivity.
  - books; intros s; destruct (remote s !! key); [destruct (get_err E)|]; reflexivity.
Qed.

Lemma run_transfer_slot (E : env) (op : transfer) (s : state) : slot_after E op s.
Proof.
  unfold slot_after.
  destruct op as [|l k|l k|k l|k l]; cbn [run_transfer starts_transfer].
  - pose proof (started_GetCredentials E s) as H. unfold bind.
    destruct (GetCredentials E s) as [[a| |] s1]; exact H.
  - unfold UploadFile, os_Open. unfold bind at 1. unfold bind at 1, emit.
    cbn [local set_trace].
    destruct (flt E SysOpen l) as [e|]; [repeat split|].
    destruct (local s !! l) as [node|]; [|repeat split].
    exact (started_UploadFile_body E k _ (set_trace (trace s ++ [EvOpen l])%list s)).
  - unfold UploadCompressedDirectory. unfold bind at 1, io_Pipe. cbv zeta.
    set (s0 := set_pipes _ s).
    destruct (String.eqb (ToLower (Ext k)) ".xz").
    { unfold bind at 1, emit. destruct (create_err E) as [e|]; [repeat split|].
      exact (started_upload_tail E l k _ _ (set_trace (trace s0 ++ [EvCodec])%list s0)). }
    destruct (String.eqb (ToLower (Ext k)) ".zstd"); [|repeat split].
    unfold bind at 1. unfold bind at 1, emit, io_Pipe.
    destruct (create_err E) as [e|]; [repeat split|].
    unfold bind at 1.
    destruct (newwriter_err E) as [e|]; [repeat split|].
    match goal with
    | |- context [defer (ret tt) ?body ?st] =>
        assert (H : started (defer (ret tt) body));
        [ apply started_defer_ret;
          apply started_bind; [passes_ok | intros _; apply started_upload_tail]
        | exact (H st) ]
    end.
  - unfold DownloadFile. unfold bind at 1, emit. unfold bind at 1.
    cbn [local set_trace].
    destruct (os_Create (flt E) (local s) l) as [[e|] fs1]; cbn [fst]; [repeat split|].
    exact (started_DownloadFile_body E k l
             (set_local fs1 (set_trace (trace s ++ [EvCreate l])%list s))).
  - destruct (String.eqb (ToLower (Ext k)) ".xz") eqn:Hxz.
    { unfold DownloadCompressedDirectory. unfold bind at 1, io_Pipe. cbv zeta.
      rewrite Hxz. set (s0 := set_pipes _ s).
      unfold bind at 1, emit. destruct (open_err E) as [e|]; [repeat split|].
      exact (started_download_tail E k l _ _ (set_trace (trace s0 ++ [EvCodec])%list s0)). }
    destruct (String.eqb (ToLower (Ext k)) ".zstd") eqn:Hzstd.
    + apply String.eqb_eq in Hzstd.
      destruct (newreader_err E) as [e|] eqn:Hnew.
      * unfold DownloadCompressedDirectory. unfold bind at 1, io_Pipe. cbv zeta.
        rewrite Hzstd. cbn [String.eqb Ascii.eqb Bool.eqb].
        unfold bind at 1. unfold bind at 1, emit, io_Pipe. rewrite Hnew.
        repeat split.
      * rewrite (download_zstd_hangs E k l s Hzstd Hnew). repeat split.
    + unfold DownloadCompressedDirectory. unfold bind at 1, io_Pipe. cbv zeta.
      rewrite Hxz, Hzstd. repeat split.
Qed.



(** *** The upload never archives anything *)

Lemma remote_mark_reader (s : state) (p : nat) : remote (mark_reader s p) = remote s.
Proof. unfold mark_reader. destruct (pipes s !! p) as [[r w]|]; reflexivity. Qed.

Lemma remote_mark_writer (s : state) (p : nat) : remote (mark_writer s p) = remote s.
Proof. unfold mark_writer. destruct (pipes s !! p) as [[r w]|]; reflexivity. Qed.

Lemma upload_tail_outcome (E : env) (dir key : string) (p q : nat) (s : state) :
  let '(o, s') := upload_tail E dir key p q s in
  (forall r, o = Returns r -> r <> None)
  /\ (remote s' = remote s \/ remote s' = <[key := ArchiveObject [] EOF]> (remote s)).
Proof.
  unfold upload_tail.
  destruct (walker_stage_fails (flt E) (lstat E) (write_err E) dir) as [e ->].
  unfold bind, defer, go, install_cancel, bind, context_WithCancel, emit, ret,
    caller_reads, UploadWithContext, bind, emit, ret, Cancel, bind, call_cancel, emit.
  cbn -[lookup].
  match goal with
  | |- context [match ?l !! p with _ => _ end] => destruct (l !! p) as [[r []]|]
  end;
  [ destruct (put_err E) as [e'|] | | ];
  cbn -[lookup insert]; rewrite remote_mark_writer;
  (split; [intros r0 [= <-]; discriminate || idtac | auto]);
  try discriminate.
Qed.

Lemma upload_outcome_pair (E : env) (dir key : string) (s : state) :
  let '(o, s') := UploadCompressedDirectory E dir key s in
  (forall r, o = Returns r -> r <> None)
  /\ (remote s' = remote s \/ remote s' = <[key := ArchiveObject [] EOF]> (remote s)).
Proof.
  unfold UploadCompressedDirectory. unfold bind at 1, io_Pipe. cbv zeta.
  destruct (String.eqb (ToLower (Ext key)) ".xz").
  - unfold bind at 1, emit.
    destruct (create_err E) as [e|];
      [split; [intros r [= <-]; discriminate | now left]|].
    match goal with |- context [upload_tail E dir key ?p ?q ?s0] =>
      pose proof (upload_tail_outcome E dir key p q s0) as H;
      destruct (upload_tail E dir key p q s0) as [o s1] end.
    cbn [remote set_trace set_pipes] in H. exact H.
  - destruct (String.eqb (ToLower (Ext key)) ".zstd");
      [|split; [intros r [= <-]; discriminate | now left]].
    unfold bind at 1. unfold bind at 1, emit.
    destruct (create_err E) as [e|];
      [split; [intros r [= <-]; discriminate | now left]|].
    unfold bind at 1.
    destruct (newwriter_err E) as [e|];
      [split; [intros r [= <-]; discriminate | now left]|].
    unfold defer. unfold bind at 1. unfold bind at 1, go. cbn [fst snd].
    match goal with |- context [upload_tail E dir key ?p ?q ?s0] =>
      pose proof (upload_tail_outcome E dir key p q s0) as H;
      destruct (upload_tail E dir key p q s0) as [[r| |] s1] end;
      destruct H as [H1 H2];
      unfold bind, ret; cbn [fst snd] in *;
      cbn [remote set_trace fold_left] in H2;
      rewrite remote_mark_writer, remote_mark_reader in H2;
      cbn [remote set_trace set_pipes] in H2;
      (split; [|exact H2]); try (intros r0 [= <-]; now apply H1); discriminate.
Qed.

Lemma upload_outcome (E : env) (dir key : string) (s : state) :
  (forall r, fst (UploadCompressedDirectory E dir key s) = Returns r -> r <> None)
  /\ (remote (snd (UploadCompressedDirectory E dir key s)) = remote s
      \/ remote (snd (UploadCompressedDirectory E dir key s))
         = <[key := ArchiveObject [] EOF]> (remote s)).
Proof.
  pose proof (upload_outcome_pair E dir key s) as H.
  destruct (UploadCompressedDirectory E dir key s) as [o s']. exact H.
Qed.

(** *** Fresh pipes *)

Lemma mark_reader_fresh (s : state) (l rest : list pipe) :
  pipes s = (l ++ mkPipe false false :: rest)%list ->
  pipes (mark_reader s (List.length l)) !! List.length l = Some (mkPipe true false).
Proof.
  intros H. unfold mark_reader. rewrite H, fresh_pipe_lookup. simpl.
  apply list_lookup_insert_eq. rewrite length_app. simpl. lia.
Qed.

(** *** DownloadCompressedDirectory: what the caller is told *)

Lemma consumer_stage_result (flt : faults) (root : string) (entries : list File)
    (ending : error) (fs : gmap string fnode) :
  consumer_stage flt root entries ending fs
  = (None, snd (consumer_stage flt root entries ending fs)).
Proof.
  pose proof (consumer_stage_sends_nil flt root entries ending fs) as H.
  destruct (consumer_stage flt root entries ending fs) as [sent fs'].
  simpl in *. now subst.
Qed.

(** The .xz path with a get that succeeds: nil, whatever the archive reader
    and the extraction ran into. *)
Lemma download_xz_returns_nil (E : env) (key root : string) (s : state) (obj : object) :
  ToLower (Ext key) = ".xz" ->
  open_err E = None -> get_err E = None ->
  remote s !! key = Some obj ->
  fst (DownloadCompressedDirectory E key root s) = Returns None.
Proof.
  intros Hext Hopen Hget Hobj.
  unfold DownloadCompressedDirectory. unfold bind at 1, io_Pipe. cbv zeta.
  rewrite Hext. cbn [String.eqb Ascii.eqb Bool.eqb].
  unfold bind at 1, emit. rewrite Hopen.
  unfold download_tail. unfold bind at 1, go. cbn [fold_left].
  unfold bind at 1, install_cancel, bind, context_WithCancel, emit, ret.
  cbn [fst snd].
  unfold defer. unfold bind at 1. unfold bind at 1.
  unfold DownloadWithContext_pipe. unfold bind at 1, caller_writes.
  cbn [pipes set_trace set_sess set_contexts set_pipes].
  rewrite (mark_reader_fresh _ (pipes s) []) by reflexivity.
  unfold bind at 1, emit.
  cbn [remote set_trace set_sess set_contexts set_pipes local].
  assert (Hr : forall s0 p, remote (mark_reader s0 p) = remote s0)
    by apply remote_mark_reader.
  rewrite Hr. cbn [remote set_pipes set_trace]. rewrite Hobj, Hget.
  destruct (object_entries E obj) as [entries ending].
  rewrite consumer_stage_result.
  unfold bind, emit, ret, Cancel, bind, call_cancel, emit. reflexivity.
Qed.

Lemma trace_mark_reader (s : state) (p : nat) : trace (mark_reader s p) = trace s.
Proof. unfold mark_reader. destruct (pipes s !! p) as [[r w]|]; reflexivity. Qed.

Lemma trace_mark_writer (s : state) (p : nat) : trace (mark_writer s p) = trace s.
Proof. unfold mark_writer. destruct (pipes s !! p) as [[r w]|]; reflexivity. Qed.

(** The upload bridges the codec and the archive with a goroutine, started
    before the walker and before the put. *)
Lemma upload_zstd_starts_bridge (E : env) (dir key : string) (s : state) :
  ToLower (Ext key) = ".zstd" ->
  create_err E = None -> newwriter_err E = None ->
  exists rest,
    trace (snd (UploadCompressedDirectory E dir key s))
    = (trace s ++ [EvCodec; EvCodec; EvGo BridgeStage; EvGo WalkerStage] ++ rest)%list
    /\ ~ In EvCopy rest.
Proof.
  intros Hext Hc Hn.
  unfold UploadCompressedDirectory. unfold bind at 1, io_Pipe. cbv zeta.
  rewrite Hext. cbn [String.eqb Ascii.eqb Bool.eqb].
  unfold bind at 1. unfold bind at 1, emit. rewrite Hc.
  unfold bind at 1. rewrite Hn.
  unfold upload_tail.
  destruct (walker_stage_fails (flt E) (lstat E) (write_err E) dir) as [e ->].
  unfold defer, bind, go, install_cancel, bind, context_WithCancel, emit, ret,
    caller_reads, UploadWithContext, bind, emit, ret, Cancel, bind, call_cancel, emit.
  cbn [fold_left fst snd].
  cbn [pipes set_trace set_sess set_contexts set_pipes trace].
  rewrite trace_mark_writer.
  cbn [pipes set_trace set_sess set_contexts set_pipes trace].
  rewrite trace_mark_writer, trace_mark_reader.
  cbn [pipes set_trace set_sess set_contexts set_pipes trace].
  match goal with
  | |- context [match ?l !! ?p with _ => _ end] => destruct (l !! p) as [[r []]|]
  end;
  [ destruct (put_err E) as [e'|] | | ];
  cbn [fst snd pipes set_trace set_sess set_contexts set_pipes set_cancelled
       set_remote trace sess cancel];
  rewrite <- !app_assoc; cbn [app];
  eexists; (split; [reflexivity |]);
  cbn [In]; intros H; repeat destruct H as [H|H]; try discriminate; exact H.
Qed.

Ltac trace_leaf :=
  cbn [fst snd pipes set_trace set_sess set_contexts set_pipes set_cancelled
       set_remote set_local trace sess cancel remote];
  rewrite ?trace_mark_writer, ?trace_mark_reader, ?remote_mark_writer,
    ?remote_mark_reader;
  cbn [fst snd pipes set_trace set_sess set_contexts set_pipes set_cancelled
       set_remote set_local trace sess cancel remote];
  rewrite ?trace_mark_writer, ?trace_mark_reader, ?remote_mark_writer,
    ?remote_mark_reader;
  cbn [fst snd pipes set_trace set_sess set_contexts set_pipes set_cancelled
       set_remote set_local trace sess cancel remote];
  rewrite <- ?app_assoc; cbn [app].

Ltac not_in_trace := cbn [In] in *; intuition discriminate.

Ltac finish_leaf :=
  repeat split; try reflexivity; try (intros; not_in_trace).

(** When the put fails the walker's error is not received and the pipe is
    not closed: the put error is returned at once. *)
Lemma upload_put_failure (E : env) (dir key : string) (s : state) (e : error) :
  put_err E = Some e ->
  exists rest,
    trace (snd (UploadCompressedDirectory E dir key s)) = (trace s ++ rest)%list
    /\ ~ In EvRecv rest
    /\ (forall p, ~ In (EvCloseReader p) rest)
    /\ (In (EvPut key) rest ->
        fst (UploadCompressedDirectory E dir key s) = Returns (Some e))
    /\ remote (snd (UploadCompressedDirectory E dir key s)) = remote s.
Proof.
  intros Hput.
  unfold UploadCompressedDirectory. unfold bind at 1, io_Pipe. cbv zeta.
  destruct (String.eqb (ToLower (Ext key)) ".xz");
    [|destruct (String.eqb (ToLower (Ext key)) ".zstd")].
  - unfold bind at 1, emit.
    destruct (create_err E) as [e0|].
    + exists [EvCodec]. trace_leaf. finish_leaf.
    + unfold upload_tail.
      destruct (walker_stage_fails (flt E) (lstat E) (write_err E) dir) as [e1 ->].
      unfold defer, bind, go, install_cancel, bind, context_WithCancel, emit, ret,
        caller_reads, UploadWithContext, bind, emit, ret, Cancel, bind, call_cancel, emit.
      rewrite Hput. cbn [fold_left fst snd].
      match goal with
      | |- context [match ?l !! ?p with _ => _ end] => destruct (l !! p) as [[r []]|]
      end; trace_leaf; eexists; (split; [reflexivity|]);
        finish_leaf.
  - unfold bind at 1. unfold bind at 1, emit.
    destruct (create_err E) as [e0|].
    + exists [EvCodec]. trace_leaf. finish_leaf.
    + unfold bind at 1.
      destruct (newwriter_err E) as [e0|].
      * exists [EvCodec; EvCodec]. trace_leaf. finish_leaf.
      * unfold upload_tail.
        destruct (walker_stage_fails (flt E) (lstat E) (write_err E) dir) as [e1 ->].
        unfold defer, bind, go, install_cancel, bind, context_WithCancel, emit, ret,
          caller_reads, UploadWithContext, bind, emit, ret, Cancel, bind, call_cancel, emit.
        rewrite Hput. cbn [fold_left fst snd].
        match goal with
        | |- context [match ?l !! ?p with _ => _ end] => destruct (l !! p) as [[r []]|]
        end; trace_leaf; eexists; (split; [reflexivity|]);
          finish_leaf.
  - exists []. trace_leaf. rewrite app_nil_r. finish_leaf.
Qed.

(** C8, the code at a failing put: UploadCompressedDirectory returns the
    put error straight away; the calling goroutine neither receives from
    errorChannel nor closes the pipe, both of which it does after a put that
    succeeds. DownloadCompressedDirectory closes its pipe before it looks at
    the error of the get. *)
Theorem upload_put_failure_skips_drain :
  let r := UploadCompressedDirectory failing_put_env "root" "backup.xz" scenario_state in
  fst r = Returns (Some (ErrRemote "RequestError: send request failed"))
  /\ trace (snd r)
     = [EvCodec; EvGo WalkerStage; EvInstall 0; EvPut "backup.xz"; EvCancel]
  /\ ~ In EvRecv (trace (snd r))
  /\ ~ In (EvCloseReader 0) (trace (snd r))
  /\ (let ok := UploadCompressedDirectory scenario_env "root" "backup.xz" scenario_state in
      trace (snd ok)
      = [EvCodec; EvGo WalkerStage; EvInstall 0; EvPut "backup.xz";
         EvCloseReader 0; EvRecv; EvCancel])
  /\ (let down := DownloadCompressedDirectory failing_get_env "backup.xz" "out"
                    (fresh_state "bucket" cwd_only {[ "backup.xz" := ArchiveObject [] EOF ]}) in
      trace (snd down)
      = [EvCodec; EvGo ConsumerStage; EvInstall 0; EvGet "backup.xz";
         EvCloseWriter 0; EvCancel])
  /\ (forall E dir key s e,
        put_err E = Some e ->
        exists rest,
          trace (snd (UploadCompressedDirectory E dir key s)) = (trace s ++ rest)%list
          /\ ~ In EvRecv rest
          /\ (forall p, ~ In (EvCloseReader p) rest)
          /\ (In (EvPut key) rest ->
              fst (UploadCompressedDirectory E dir key s) = Returns (Some e))
          /\ remote (snd (UploadCompressedDirectory E dir key s)) = remote s).
Proof.
  cbv zeta. split; [reflexivity|]. split; [reflexivity|].
  split; [|split; [|split; [reflexivity|split; [reflexivity|]]]].
  - change (trace _) with [EvCodec; EvGo WalkerStage; EvInstall 0; EvPut "backup.xz"; EvCancel].
    not_in_trace.
  - change (trace _) with [EvCodec; EvGo WalkerStage; EvInstall 0; EvPut "backup.xz"; EvCancel].
    not_in_trace.
  - exact upload_put_failure.
Qed.

(** C3, the code on a .zstd key: DownloadCompressedDirectory runs io.Copy
    on the calling goroutine, before it starts any goroutine and before the
    get; nothing writes to the pipe the copy reads from, so the call never
    returns. UploadCompressedDirectory starts a goroutine for its copy. *)
Theorem zstd_download_copies_on_calling_goroutine :
  let down := DownloadCompressedDirectory scenario_env "backup.zstd" "out"
                (fresh_state "bucket" cwd_only {[ "backup.zstd" := ArchiveObject [] EOF ]}) in
  let up := UploadCompressedDirectory scenario_env "root" "backup.zstd" scenario_state in
  fst down = Hangs
  /\ trace (snd down) = [EvCodec; EvCopy]
  /\ ~ In (EvGo BridgeStage) (trace (snd down))
  /\ ~ In (EvGet "backup.zstd") (trace (snd down))
  /\ trace (snd up)
     = [EvCodec; EvCodec; EvGo BridgeStage; EvGo WalkerStage; EvInstall 0;
        EvPut "backup.zstd"; EvCloseReader 0; EvRecv; EvCancel]
  /\ (forall E key root s,
        ToLower (Ext key) = ".zstd" -> newreader_err E = None ->
        fst (DownloadCompressedDirectory E key root s) = Hangs
        /\ trace (snd (DownloadCompressedDirectory E key root s))
           = (trace s ++ [EvCodec; EvCopy])%list)
  /\ (forall E dir key s,
        ToLower (Ext key) = ".zstd" ->
        create_err E = None -> newwriter_err E = None ->
        exists rest,
          trace (snd (UploadCompressedDirectory E dir key s))
          = (trace s ++ [EvCodec; EvCodec; EvGo BridgeStage; EvGo WalkerStage] ++ rest)%list
          /\ ~ In EvCopy rest).
Proof.
  cbv zeta. split; [reflexivity|]. split; [reflexivity|].
  split; [|split; [|split; [reflexivity|split]]].
  - change (trace _) with [EvCodec; EvCopy]. not_in_trace.
  - change (trace _) with [EvCodec; EvCopy]. not_in_trace.
  - intros E key root s Hext Hnew.
    now rewrite (download_zstd_hangs E key root s Hext Hnew).
  - exact upload_zstd_starts_bridge.
Qed.

(** C2, the code on an archive whose entry cannot be extracted, and on one
    the reader fails on with a codec error: the get succeeds and
    DownloadCompressedDirectory returns nil, because the goroutine sends nil
    on errorChannel whatever its loop ran into. *)
Theorem download_hides_consumer_errors :
  let fs := <["out" := Directory 493]> cwd_only in
  let s := fresh_state "bucket" fs {[ "k.xz" := ArchiveObject [orphan_entry] EOF ]} in
  let s' := fresh_state "bucket" fs
              {[ "k.xz" := ArchiveObject [] (ErrCodec "xz: data is corrupt") ]} in
  uncompressFile no_faults "out" orphan_entry fs = (Some ENOENT, fs)
  /\ fst (DownloadCompressedDirectory scenario_env "k.xz" "out" s) = Returns None
  /\ local (snd (DownloadCompressedDirectory scenario_env "k.xz" "out" s)) = fs
  /\ fst (DownloadCompressedDirectory scenario_env "k.xz" "out" s') = Returns None
  /\ (forall flt root entries ending fs0,
        fst (consumer_stage flt root entries ending fs0) = None)
  /\ (forall E key root s0 obj,
        ToLower (Ext key) = ".xz" ->
        open_err E = None -> get_err E = None ->
        remote s0 !! key = Some obj ->
        fst (DownloadCompressedDirectory E key root s0) = Returns None).
Proof.
  cbv zeta. split; [vm_compute; reflexivity|].
  split; [reflexivity|]. split; [vm_compute; reflexivity|].
  split; [reflexivity|]. split; [exact consumer_stage_sends_nil|].
  exact download_xz_returns_nil.
Qed.

(** C1, the code on the scenario of the specification (root/a.txt holding
    "hi", the empty directory root/sub, the key backup.zstd, the empty
    target out/): the upload returns the "unexpected path" error for root
    and the object it leaves holds no entry; the download never returns and
    creates nothing. With the key backup.xz the download returns nil and
    creates nothing. No upload returns nil, and none stores an entry. *)
Theorem scenario_round_trip_lost :
  let up := UploadCompressedDirectory scenario_env "root" "backup.zstd" scenario_state in
  let down := DownloadCompressedDirectory scenario_env "backup.zstd" "out" (snd up) in
  let up_xz := UploadCompressedDirectory scenario_env "root" "backup.xz" scenario_state in
  let down_xz := DownloadCompressedDirectory scenario_env "backup.xz" "out" (snd up_xz) in
  fst up = Returns (Some (ErrUnexpectedPath "root"))
  /\ remote (snd up) !! "backup.zstd" = Some (ArchiveObject [] EOF)
  /\ fst down = Hangs
  /\ local (snd down) !! "out/a.txt" = None
  /\ local (snd down) !! "out/sub" = None
  /\ fst down_xz = Returns None
  /\ local (snd down_xz) = local scenario_state
  /\ (forall E dir key s r,
        fst (UploadCompressedDirectory E dir key s) = Returns r -> r <> None)
  /\ (forall E dir key s,
        remote (snd (UploadCompressedDirectory E dir key s)) = remote s
        \/ remote (snd (UploadCompressedDirectory E dir key s))
           = <[key := ArchiveObject [] EOF]> (remote s)).
Proof.
  cbv zeta.
  split; [reflexivity|]. split; [reflexivity|]. split; [reflexivity|].
  split; [reflexivity|]. split; [reflexivity|]. split; [reflexivity|].
  split; [vm_compute; reflexivity|]. split.
  - intros E dir key s r Hr. now apply (proj1 (upload_outcome E dir key s)).
  - intros E dir key s. apply (proj2 (upload_outcome E dir key s)).
Qed.

(* ===================================================================== *)
(** ** Further properties of the methods                                  *)
(* ===================================================================== *)

(** *** File entries *)

Lemma os_Create_result (flt : faults) (fs : gmap string fnode) (name : string) :
  fst (os_Create flt fs name) = None ->
  exists perm,
    snd (os_Create flt fs name) = <[name := Regular perm ""]> fs
    /\ match fs !! name with
       | Some (Regular old _) => perm = old
       | _ => perm = Z.ldiff 438 (umask flt)
       end.
Proof.
  unfold os_Create.
  destruct (flt SysCreate name); [discriminate|].
  destruct (fs !! name) as [[p|p c]|]; [discriminate| |].
  - intros _. now exists p.
  - destruct (parent_error fs name); [discriminate|].
    intros _. now exists (Z.ldiff 438 (umask flt)).
Qed.

Lemma uncompressFile_file_ok (flt : faults) (root : string) (f : File)
    (fs : gmap string fnode) (dest : string) :
  IsDir f = false ->
  localFile_of root (Name f) = Some dest ->
  fst (os_Create flt fs dest) = None ->
  exists perm,
    uncompressFile flt root f fs
    = (ReadErr f, <[dest := Regular perm (Content f)]> fs)
    /\ match fs !! dest with
       | Some (Regular old _) => perm = old
       | _ => perm = Z.ldiff 438 (umask flt)
       end.
Proof.
  intros Hdir Hdest Hc.
  destruct (os_Create_result flt fs dest Hc) as (perm & Hfs & Hperm).
  exists perm. split; [|exact Hperm].
  unfold uncompressFile. rewrite Hdest, Hdir.
  destruct (os_Create flt fs dest) as [err fs']. cbn [fst snd] in Hc, Hfs. subst err fs'.
  unfold file_append. rewrite lookup_insert_eq.
  now rewrite insert_insert_eq.
Qed.

(** X1: a file entry that can be created holds, after uncompressFile, exactly
    the bytes of the entry (an existing file is truncated first); its mode is
    the one the file had, or for a new file the bits of 0666 that the umask
    of the process does not clear, whatever mode the entry records; when the
    content stream fails the error is returned and the file stays with what
    was copied. *)
Theorem uncompressFile_file_entry (flt : faults) (localRootDirectory : string)
    (f : File) (fs : gmap string fnode) (dest : string) :
  IsDir f = false ->
  localFile_of localRootDirectory (Name f) = Some dest ->
  fst (os_Create flt fs dest) = None ->
  exists perm,
    uncompressFile flt localRootDirectory f fs
    = (ReadErr f, <[dest := Regular perm (Content f)]> fs)
    /\ match fs !! dest with
       | Some (Regular old _) => perm = old
       | _ => perm = Z.ldiff 438 (umask flt)
       end.
Proof.
  intros Hdir Hdest Hc.
  destruct (uncompressFile_file_ok flt localRootDirectory f fs dest Hdir Hdest Hc)
    as (perm & Hrun & Hperm).
  exists perm. split; [exact Hrun | exact Hperm].
Qed.

(** X1 on out/a.txt, for an entry recorded with mode rwxr-xr-x: the file
    rw------- that is there keeps its mode and gets the new bytes; under the
    umask 022 a new file is rw-r--r--, and keeps the byte that was copied
    before the stream failed. *)
Lemma uncompressFile_file_entry_witness :
  uncompressFile no_faults "out" (mkFile "/root/a.txt" 493 "hi" None)
    (<["out/a.txt" := Regular 384 "old content"]> out_fs)
  = (None, <["out/a.txt" := Regular 384 "hi"]> out_fs)
  /\ uncompressFile usual_umask "out" (mkFile "/root/a.txt" 493 "h" (Some ErrUnexpectedEOF))
       out_fs
     = (Some ErrUnexpectedEOF, <["out/a.txt" := Regular 420 "h"]> out_fs).
Proof.
  assert (H1 : fst (os_Create no_faults
                      (<["out/a.txt" := Regular 384 "old content"]> out_fs) "out/a.txt")
               = None) by (vm_compute; reflexivity).
  assert (H2 : fst (os_Create usual_umask out_fs "out/a.txt") = None)
    by (vm_compute; reflexivity).
  split.
  - destruct (uncompressFile_file_entry no_faults "out"
                (mkFile "/root/a.txt" 493 "hi" None)
                (<["out/a.txt" := Regular 384 "old content"]> out_fs) "out/a.txt"
                eq_refl eq_refl H1) as (perm & H & Hp).
    rewrite H. rewrite lookup_insert_eq in Hp. subst perm. cbn [ReadErr Content].
    now rewrite insert_insert_eq.
  - destruct (uncompressFile_file_entry usual_umask "out"
                (mkFile "/root/a.txt" 493 "h" (Some ErrUnexpectedEOF))
                out_fs "out/a.txt" eq_refl eq_refl H2) as (perm & H & Hp).
    rewrite H. vm_compute in Hp. now subst perm.
Defined.

(** *** Directory entries: the permission bits *)

Lemma Perm_mod (m : Z) : Perm m = (m mod 512)%Z.
Proof.
  unfold Perm, ModePerm. change 511%Z with (Z.ones 9).
  now rewrite Z.land_ones by lia.
Qed.

Lemma ldiff_Perm_bound (m u : Z) : (0 <= Z.ldiff (Perm m) u < 512)%Z.
Proof.
  assert (H : Z.ldiff (Perm m) u = Perm (Z.ldiff m u)).
  { unfold Perm. apply Z.bits_inj'. intros n Hn.
    rewrite Z.ldiff_spec, !Z.land_spec, Z.ldiff_spec.
    destruct (Z.testbit m n), (Z.testbit u n), (Z.testbit ModePerm n); reflexivity. }
  rewrite H, Perm_mod. apply Z.mod_pos_bound. lia.
Qed.

(** X2: for a directory that uncompressFile makes, os.Mkdir is called with
    the low nine bits of the recorded mode and nothing else, so the type
    bits and the setuid, setgid and sticky bits of the entry are not passed
    on; the directory has those of the nine bits that the umask of the
    process does not clear. *)
Theorem uncompressFile_directory_bits (flt : faults) (localRootDirectory : string)
    (f : File) (fs : gmap string fnode) (dest : string) :
  IsDir f = true ->
  localFile_of localRootDirectory (Name f) = Some dest ->
  Exists flt fs dest = false ->
  fst (uncompressFile flt localRootDirectory f fs) = None ->
  uncompressFile flt localRootDirectory f fs = os_Mkdir flt fs dest (Mode f mod 512)
  /\ snd (uncompressFile flt localRootDirectory f fs) !! dest
     = Some (Directory (Z.ldiff (Mode f mod 512) (umask flt)))
  /\ (0 <= Z.ldiff (Mode f mod 512) (umask flt) < 512)%Z.
Proof.
  intros Hdir Hdest Hex. unfold uncompressFile. rewrite Hdest, Hdir, Hex. cbn [negb].
  rewrite Perm_mod. intros Hok. split; [reflexivity|]. revert Hok.
  unfold os_Mkdir.
  destruct (flt SysMkdir dest); [discriminate|].
  destruct (fs !! dest); [discriminate|].
  destruct (parent_error fs dest); [discriminate|].
  intros _. cbn [snd]. rewrite lookup_insert_eq.
  split; [reflexivity|]. rewrite <- Perm_mod. apply ldiff_Perm_bound.
Qed.

(** X2 on an entry recorded as a setgid directory rwxrwxrwx, under the
    umask 022: the directory made is rwxr-xr-x. *)
Lemma uncompressFile_directory_bits_witness :
  snd (uncompressFile usual_umask "out"
         (mkFile "/root/sub" (Z.lor ModeDir (Z.lor 1024 511)) "" None) out_fs)
  !! "out/sub" = Some (Directory 493).
Proof.
  assert (H1 : Exists usual_umask out_fs "out/sub" = false) by (vm_compute; reflexivity).
  assert (H2 : fst (uncompressFile usual_umask "out"
                      (mkFile "/root/sub" (Z.lor ModeDir (Z.lor 1024 511)) "" None)
                      out_fs) = None) by (vm_compute; reflexivity).
  exact (proj1 (proj2 (uncompressFile_directory_bits usual_umask "out"
                  (mkFile "/root/sub" (Z.lor ModeDir (Z.lor 1024 511)) "" None)
                  out_fs "out/sub" eq_refl eq_refl H1 H2))).
Defined.

(** *** Entry names with ".." *)

Lemma FieldsFunc_segments (a b : string) :
  elem_ok a ->
  FieldsFunc (a +:+ String "/" b) is_slash = a :: FieldsFunc b is_slash.
Proof. intros Ha. now rewrite FieldsFunc_app_slash, FieldsFunc_word. Qed.

Lemma elem_ok_dotdot : elem_ok "..".
Proof. split; [discriminate|reflexivity]. Qed.

Lemma elem_ok_not_rooted (e : string) :
  elem_ok e -> exists c r, e = String c r /\ is_slash c = false.
Proof.
  intros [Hne Hfree]. destruct e as [|c r]; [contradiction|].
  exists c, r. split; [reflexivity|].
  simpl in Hfree. now apply orb_false_elim in Hfree as [Hc _].
Qed.

Lemma filepath_Join_cons (c : ascii) (r : string) (rest : list string) :
  filepath_Join (String c r :: rest) = Clean (strings_Join (String c r :: rest) "/").
Proof. reflexivity. Qed.

Lemma clean_step_keep (rooted : bool) (out : list string) (e : string) :
  e <> "." -> e <> ".." -> clean_step rooted out e = e :: out.
Proof.
  intros H1 H2. unfold clean_step.
  apply String.eqb_neq in H1, H2. now rewrite H1, H2.
Qed.

Lemma clean_step_up (rooted : bool) (top : string) (rest : list string) :
  top <> ".." -> clean_step rooted (top :: rest) ".." = rest.
Proof.
  intros H. unfold clean_step. apply String.eqb_neq in H.
  now rewrite H.
Qed.

Lemma localFile_of_dotdot (root top w : string) :
  elem_ok root -> root <> "." -> root <> ".." ->
  elem_ok top ->
  elem_ok w -> w <> "." -> w <> ".." ->
  localFile_of root ("/" +:+ top +:+ "/../../" +:+ w) = Some ("../" +:+ w).
Proof.
  intros Hroot Hr1 Hr2 Htop Hw Hw1 Hw2.
  unfold localFile_of.
  change (fun c : ascii => Ascii.eqb c "/") with is_slash.
  assert (Hf : FieldsFunc ("/" +:+ top +:+ "/../../" +:+ w) is_slash
               = [top; ".."; ".."; w]).
  { change ("/" +:+ top +:+ "/../../" +:+ w)
      with ("" +:+ String "/" (top +:+ String "/" (".." +:+ String "/"
              (".." +:+ String "/" w)))).
    rewrite FieldsFunc_app_slash, FieldsFunc_empty, app_nil_l.
    rewrite !FieldsFunc_segments by (assumption || apply elem_ok_dotdot).
    now rewrite FieldsFunc_word. }
  rewrite Hf. cbn [List.length Nat.eqb]. f_equal.
  change (<[0%nat := root]> [top; ".."; ".."; w]) with [root; ".."; ".."; w].
  destruct (elem_ok_not_rooted root Hroot) as (c & r & -> & Hc).
  rewrite filepath_Join_cons. cbn [strings_Join].
  set (path := String c r +:+ "/" +:+ ".." +:+ "/" +:+ ".." +:+ "/" +:+ w).
  assert (Hp : path = String c (r +:+ "/" +:+ ".." +:+ "/" +:+ ".." +:+ "/" +:+ w))
    by reflexivity.
  assert (Hs : FieldsFunc path is_slash = [String c r; ".."; ".."; w]).
  { unfold path.
    change (String c r +:+ "/" +:+ ".." +:+ "/" +:+ ".." +:+ "/" +:+ w)
      with (String c r +:+ String "/" (".." +:+ String "/" (".." +:+ String "/" w))).
    rewrite !FieldsFunc_segments by (assumption || apply elem_ok_dotdot).
    now rewrite FieldsFunc_word. }
  unfold Clean. rewrite Hp, <- Hp, Hc, Hs. cbv zeta.
  cbn [fold_left].
  rewrite (clean_step_keep false [] (String c r)) by assumption.
  rewrite clean_step_up by assumption.
  change (clean_step false [] "..") with [".."].
  rewrite clean_step_keep by assumption.
  cbn [rev app strings_Join].
  destruct w as [|x w]; [now destruct Hw|]. reflexivity.
Qed.

(** X3: uncompressFile does not keep its destinations below
    localRootDirectory. An entry named /top/../../w is written to ../w, next
    to the target directory, for every name w and whatever the target
    directory is called. *)
Theorem uncompressFile_escapes_root (flt : faults) (localRootDirectory top w : string)
    (f : File) (fs : gmap string fnode) :
  elem_ok localRootDirectory ->
  localRootDirectory <> "." -> localRootDirectory <> ".." ->
  elem_ok top -> elem_ok w -> w <> "." -> w <> ".." ->
  Name f = "/" +:+ top +:+ "/../../" +:+ w ->
  IsDir f = false ->
  fst (os_Create flt fs ("../" +:+ w)) = None ->
  localFile_of localRootDirectory (Name f) = Some ("../" +:+ w)
  /\ fst (uncompressFile flt localRootDirectory f fs) = ReadErr f
  /\ exists perm,
       snd (uncompressFile flt localRootDirectory f fs) !! ("../" +:+ w)
       = Some (Regular perm (Content f)).
Proof.
  intros Hroot Hr1 Hr2 Htop Hw Hw1 Hw2 Hname Hdir Hc.
  assert (Hdest : localFile_of localRootDirectory (Name f) = Some ("../" +:+ w))
    by (rewrite Hname; now apply localFile_of_dotdot).
  destruct (uncompressFile_file_ok flt localRootDirectory f fs _ Hdir Hdest Hc)
    as (perm & H & _).
  rewrite H. split; [exact Hdest|]. split; [reflexivity|].
  exists perm. simpl. apply lookup_insert_eq.
Qed.

Lemma uncompressFile_escapes_root_witness :
  fst (uncompressFile no_faults "out" (mkFile "/root/../../passwd" 420 "x" None)
         (<[".." := Directory 493]> out_fs)) = None
  /\ exists perm,
       snd (uncompressFile no_faults "out" (mkFile "/root/../../passwd" 420 "x" None)
              (<[".." := Directory 493]> out_fs)) !! "../passwd"
       = Some (Regular perm "x").
Proof.
  assert (Hc : fst (os_Create no_faults (<[".." := Directory 493]> out_fs)
                      ("../" +:+ "passwd")) = None) by (vm_compute; reflexivity).
  assert (Ho : elem_ok "out") by (split; [discriminate|reflexivity]).
  assert (Ht : elem_ok "root") by (split; [discriminate|reflexivity]).
  assert (Hw : elem_ok "passwd") by (split; [discriminate|reflexivity]).
  exact (proj2 (uncompressFile_escapes_root no_faults "out" "root" "passwd"
                  (mkFile "/root/../../passwd" 420 "x" None)
                  (<[".." := Directory 493]> out_fs)
                  Ho ltac:(discriminate) ltac:(discriminate) Ht Hw
                  ltac:(discriminate) ltac:(discriminate) eq_refl eq_refl Hc)).
Defined.

(** *** What a method leaves alone *)

(** X4: an upload never changes the local file system and a download never
    changes the bucket, however the call ends; GetCredentials changes
    neither. *)
Theorem transfers_leave_the_source_alone (E : env) (s : state) :
  (forall localFile key, local (snd (UploadFile E localFile key s)) = local s)
  /\ (forall dir key, local (snd (UploadCompressedDirectory E dir key s)) = local s)
  /\ (forall key localFile, remote (snd (DownloadFile E key localFile s)) = remote s)
  /\ (forall key root, remote (snd (DownloadCompressedDirectory E key root s)) = remote s)
  /\ local (snd (GetCredentials E s)) = local s
  /\ remote (snd (GetCredentials E s)) = remote s.
Proof.
  split; [|split; [|split; [|split; [|split]]]].
  - intros l k. apply (preserves_UploadFile local); by_fields.
  - intros d k. apply (preserves_UploadCompressedDirectory local); by_fields.
  - intros k l. apply (preserves_DownloadFile remote); by_fields.
  - intros k r. apply (preserves_DownloadCompressedDirectory remote); by_fields.
  - apply (preserves_GetCredentials local); by_fields.
  - apply (preserves_GetCredentials remote); by_fields.
Qed.

(** X5: GetBucket gives the same name for the whole life of a session: no
    transfer method and no Cancel changes it, however the call ends, so
    after any sequence of calls it is the name NewAWSSession was given,
    which for NewAWSSessionFromEnvironment is the value of AWS_S3_BUCKET. *)
Theorem GetBucket_is_stable (calls : list call) (s : state) :
  GetBucket (sess (snd (run_calls calls s))) = GetBucket (sess s)
  /\ (forall err akid secret endpoint region bkt a fs objects,
        NewAWSSession err akid secret endpoint region bkt = (Some a, None) ->
        GetBucket a = bkt
        /\ GetBucket (sess (snd (run_calls calls (mkState a 0 ∅ fs objects [] []))))
           = bkt)
  /\ (forall err getenv a,
        NewAWSSessionFromEnvironment err getenv = (Some a, None) ->
        GetBucket a = getenv "AWS_S3_BUCKET").
Proof.
  assert (H : forall calls s,
             GetBucket (sess (snd (run_calls calls s))) = GetBucket (sess s)).
  { clear. intros calls. unfold GetBucket.
    induction calls as [|c calls IH]; intros s; [reflexivity|].
    cbn [run_calls].
    apply (preserves_bind (fun s => bucket (sess s))); [|intros _ s0; apply IH].
    destruct c as [E op|].
    - apply preserves_bind; [apply bucket_run_transfer | intros ?; apply preserves_ret].
    - apply preserves_Cancel; by_fields. }
  split; [apply H|]. split.
  - intros err akid secret endpoint region bkt a fs objects Hnew.
    unfold NewAWSSession in Hnew. destruct err; [discriminate|].
    injection Hnew as <-. split; [reflexivity|]. now rewrite H.
  - intros err getenv a Hnew.
    unfold NewAWSSessionFromEnvironment, NewAWSSession in Hnew.
    destruct err; [discriminate|]. now injection Hnew as <-.
Qed.

(** *** Contexts: made, cancelled, lost *)

(** X6: a transfer method that runs from its start to its end with no
    other call on the session in between, and returns, has made no context
    at all (it failed before it started the transfer), or has made exactly
    one and cancelled it, and has cancelled no other; a method that hangs
    has cancelled nothing. This is a property of a call that runs alone:
    the deferred Cancel calls whatever function the slot holds, so when two
    transfers overlap the Cancel of the one that ends first cancels the
    context of the one that started last, and the context that was made
    first is not cancelled by either. *)
Theorem transfer_releases_its_context (E : env) (op : transfer) (s : state) :
  (forall r, fst (run_transfer E op s) = Returns r ->
     (contexts (snd (run_transfer E op s)) = contexts s
      /\ cancelled (snd (run_transfer E op s)) = cancelled s)
     \/ (contexts (snd (run_transfer E op s)) = S (contexts s)
         /\ cancelled (snd (run_transfer E op s)) = {[contexts s]} ∪ cancelled s))
  /\ (fst (run_transfer E op s) = Hangs ->
      cancelled (snd (run_transfer E op s)) = cancelled s)
  /\ cancelled (snd (run_steps [StepInstall; StepInstall; StepCancel; StepCancel] s))
     = {[S (contexts s)]} ∪ cancelled s.
Proof.
  pose proof (one_context_run_transfer E op s) as H.
  split; [|split; [|reflexivity]];
    destruct (run_transfer E op s) as [[r| |] s1]; cbn [fst snd];
    intros; try discriminate; exact H.
Qed.

(** A context whose cancel function is not in the slot any more stays
    uncancelled across one critical section. *)
Lemma do_step_keeps_lost (st : slot_step) (s : state) (c : nat) :
  (c < contexts s)%nat -> cancel (sess s) <> CtxCancel c -> c ∉ cancelled s ->
  (c < contexts (snd (do_step st s)))%nat
  /\ cancel (sess (snd (do_step st s))) <> CtxCancel c
  /\ c ∉ cancelled (snd (do_step st s)).
Proof.
  intros Hlt Hslot Hc. destruct st.
  - cbn. split; [lia|]. split; [|exact Hc]. intros [= H]. lia.
  - unfold do_step, Cancel, bind, call_cancel, emit. cbn [fst snd].
    destruct (cancel (sess s)) as [| |c'] eqn:Hf; cbn.
    + split; [exact Hlt|]. split; [congruence | exact Hc].
    + split; [exact Hlt|]. split; [discriminate | exact Hc].
    + split; [exact Hlt|]. split; [discriminate|].
      rewrite elem_of_union, elem_of_singleton. intros [H|H]; [congruence | contradiction].
Qed.

Lemma run_steps_keeps_lost (steps : list slot_step) (s : state) (c : nat) :
  (c < contexts s)%nat -> cancel (sess s) <> CtxCancel c -> c ∉ cancelled s ->
  c ∉ cancelled (snd (run_steps steps s)).
Proof.
  revert s. induction steps as [|st steps IH]; intros s Hlt Hslot Hc; [exact Hc|].
  cbn [run_steps]. unfold bind.
  destruct (do_step_keeps_lost st s c Hlt Hslot Hc) as (H1 & H2 & H3).
  destruct (do_step st s) as [[[]| |] s1]; simpl in *; auto.
Qed.

Lemma run_calls_keeps_lost (calls : list call) (s : state) (c : nat) :
  (c < contexts s)%nat -> cancel (sess s) <> CtxCancel c -> c ∉ cancelled s ->
  c ∉ cancelled (snd (run_calls calls s)).
Proof.
  revert s. induction calls as [|cl calls IH]; intros s Hlt Hslot Hc; [exact Hc|].
  cbn [run_calls]. unfold bind at 1.
  destruct cl as [E op|].
  - pose proof (one_context_run_transfer E op s) as H1.
    pose proof (settles_run_transfer E op s) as H2.
    unfold bind at 1.
    destruct (run_transfer E op s) as [[r| |] s1]; cbn [ret snd].
    + apply IH.
      * destruct H1 as [[-> _]|[-> _]]; lia.
      * destruct H2 as [H2|H2]; [rewrite H2; discriminate | now rewrite H2].
      * destruct H1 as [[_ ->]|[_ ->]]; [exact Hc|].
        rewrite elem_of_union, elem_of_singleton. intros [H|H]; [lia | contradiction].
    + now rewrite H1.
    + contradiction.
  - destruct (do_step_keeps_lost StepCancel s c Hlt Hslot Hc) as (H1 & H2 & H3).
    cbn [do_step] in *.
    destruct (Cancel s) as [[[]| |] s1]; simpl in *; auto.
Qed.

(** X7: the session remembers one cancel function. Once the function of a
    context is no longer in the slot (a later transfer has put its own
    there, or a Cancel has run), no Cancel and no transfer on that session
    cancels that context, in whatever order the critical sections of
    concurrent calls or whole calls follow. *)
Theorem replaced_cancel_is_never_called (s : state) (c : nat) :
  (c < contexts s)%nat ->
  cancel (sess s) <> CtxCancel c ->
  c ∉ cancelled s ->
  (forall steps, c ∉ cancelled (snd (run_steps steps s)))
  /\ (forall calls, c ∉ cancelled (snd (run_calls calls s))).
Proof.
  intros Hlt Hslot Hc. split.
  - intros steps. now apply run_steps_keeps_lost.
  - intros calls. now apply run_calls_keeps_lost.
Qed.

Lemma replaced_cancel_is_never_called_witness :
  let s := snd (run_steps [StepInstall; StepInstall] (fresh_state "bucket" cwd_only ∅)) in
  cancel (sess s) = CtxCancel 1
  /\ (0 ∉ cancelled (snd (run_steps [StepCancel; StepCancel; StepInstall; StepCancel] s)))
  /\ (1 ∈ cancelled (snd (run_steps [StepCancel] s))).
Proof.
  cbv zeta. split; [reflexivity|].
  assert (H1 : (0 < contexts (snd (run_steps [StepInstall; StepInstall]
                                     (fresh_state "bucket" cwd_only ∅))))%nat)
    by (cbn; lia).
  assert (H2 : cancel (sess (snd (run_steps [StepInstall; StepInstall]
                                    (fresh_state "bucket" cwd_only ∅))))
               <> CtxCancel 0) by (cbn; discriminate).
  assert (H3 : 0 ∉ cancelled (snd (run_steps [StepInstall; StepInstall]
                                     (fresh_state "bucket" cwd_only ∅))))
    by (cbn; apply not_elem_of_empty).
  split.
  - exact (proj1 (replaced_cancel_is_never_called _ 0 H1 H2 H3)
             [StepCancel; StepCancel; StepInstall; StepCancel]).
  - cbn. apply elem_of_union_l, elem_of_singleton. reflexivity.
Defined.

(** *** DownloadCompressedDirectory on the .xz path, step by step *)

Lemma extract_all_consumer_stage (flt : faults) (root : string) (entries : list File)
    (ending : error) (fs fs' : gmap string fnode) :
  extract_all flt root entries fs = Some fs' ->
  consumer_stage flt root entries ending fs = (None, fs').
Proof.
  intros H. unfold consumer_stage.
  assert (Hl : forall err, consumer_loop flt root entries ending err fs = (err, fs')).
  { intros err. revert fs H. induction entries as [|f rest IH]; intros fs H; simpl in *.
    - now injection H as ->.
    - destruct (uncompressFile flt root f fs) as [[e|] fs1]; [discriminate|].
      now apply IH. }
  now rewrite Hl.
Qed.

Lemma mark_reader_new (s : state) (l : list pipe) :
  pipes s = (l ++ [mkPipe false false])%list ->
  mark_reader s (List.length l) = set_pipes (l ++ [mkPipe true false])%list s.
Proof.
  intros H. unfold mark_reader. rewrite H, fresh_pipe_lookup.
  rewrite insert_app_r_alt by lia. now rewrite Nat.sub_diag.
Qed.

Lemma download_xz_run (E : env) (key root : string) (s : state) (obj : object) :
  ToLower (Ext key) = ".xz" ->
  open_err E = None ->
  remote s !! key = Some obj ->
  let fed :=
    match get_err E with
    | Some err => (take (get_progress E) (fst (object_entries E obj)), ErrUnexpectedEOF)
    | None => object_entries E obj
    end in
  let '(o, s') := DownloadCompressedDirectory E key root s in
  o = Returns (get_err E)
  /\ local s' = snd (consumer_stage (flt E) root (fst fed) (snd fed) (local s))
  /\ trace s'
     = (trace s
        ++ [EvCodec; EvGo ConsumerStage; EvInstall (contexts s); EvGet key;
            EvCloseWriter (List.length (pipes s))]
        ++ match get_err E with Some _ => [] | None => [EvRecv] end
        ++ [EvCancel])%list.
Proof.
  intros Hext Hopen Hobj. cbv zeta.
  unfold DownloadCompressedDirectory. unfold bind at 1, io_Pipe. cbv zeta.
  rewrite Hext. cbn [String.eqb Ascii.eqb Bool.eqb].
  unfold bind at 1, emit. rewrite Hopen.
  unfold download_tail. unfold bind at 1, go. cbn [fold_left].
  cbn [pipes trace set_trace set_pipes].
  rewrite (mark_reader_new _ (pipes s)) by reflexivity.
  unfold bind at 1, install_cancel, bind, context_WithCancel, emit, ret.
  cbn [fst snd].
  unfold defer. unfold bind at 1. unfold bind at 1.
  unfold DownloadWithContext_pipe. unfold bind at 1, caller_writes.
  cbn [pipes set_trace set_sess set_contexts set_pipes].
  rewrite fresh_pipe_lookup.
  unfold bind at 1, emit.
  cbn [remote set_trace set_sess set_contexts set_pipes local]. rewrite Hobj.
  destruct (get_err E) as [e|].
  - rewrite consumer_stage_result.
    unfold bind, emit, ret, Cancel, bind, call_cancel, emit.
    cbn. rewrite <- !app_assoc. repeat split.
  - destruct (object_entries E obj) as [entries ending].
    rewrite consumer_stage_result.
    unfold bind, emit, ret, Cancel, bind, call_cancel, emit.
    cbn. rewrite <- !app_assoc. repeat split.
Qed.

(** X8: on the .xz path, with a get that succeeds, DownloadCompressedDirectory
    hands the entries of the object to uncompressFile one after the other:
    when each of them can be extracted, the local file system afterwards is
    the one these extractions give, and the call returns nil. *)
Theorem download_xz_extracts_archive (E : env) (key root : string) (s : state)
    (obj : object) (fs' : gmap string fnode) :
  ToLower (Ext key) = ".xz" ->
  open_err E = None -> get_err E = None ->
  remote s !! key = Some obj ->
  extract_all (flt E) root (fst (object_entries E obj)) (local s) = Some fs' ->
  fst (DownloadCompressedDirectory E key root s) = Returns None
  /\ local (snd (DownloadCompressedDirectory E key root s)) = fs'.
Proof.
  intros Hext Hopen Hget Hobj Hall.
  pose proof (download_xz_run E key root s obj Hext Hopen Hobj) as H.
  cbv zeta in H. rewrite Hget in H.
  destruct (DownloadCompressedDirectory E key root s) as [o s1].
  destruct H as (Ho & Hl & _). split; [exact Ho|].
  cbn [snd]. rewrite Hl.
  now rewrite (extract_all_consumer_stage _ _ _ _ _ _ Hall).
Qed.

Lemma download_xz_extracts_archive_witness :
  let archive :=
    ArchiveObject
      [mkFile "/root" (Z.lor ModeDir 493) "" None;
       mkFile "/root/a.txt" 420 "hi" None;
       mkFile "/root/sub" (Z.lor ModeDir 493) "" None] EOF in
  let r := DownloadCompressedDirectory scenario_env "backup.xz" "out"
             (fresh_state "bucket" out_fs {[ "backup.xz" := archive ]}) in
  fst r = Returns None
  /\ local (snd r)
     = <["out/sub" := Directory 493]> (<["out/a.txt" := Regular 438 "hi"]> out_fs).
Proof.
  cbv zeta.
  apply (download_xz_extracts_archive scenario_env "backup.xz" "out"
           (fresh_state "bucket" out_fs
              {[ "backup.xz" :=
                   ArchiveObject
                     [mkFile "/root" (Z.lor ModeDir 493) "" None;
                      mkFile "/root/a.txt" 420 "hi" None;
                      mkFile "/root/sub" (Z.lor ModeDir 493) "" None] EOF ]})
           (ArchiveObject
              [mkFile "/root" (Z.lor ModeDir 493) "" None;
               mkFile "/root/a.txt" 420 "hi" None;
               mkFile "/root/sub" (Z.lor ModeDir 493) "" None] EOF)).
  - reflexivity.
  - reflexivity.
  - reflexivity.
  - vm_compute. reflexivity.
  - vm_compute. reflexivity.
Defined.

(** X9: on the .xz path the caller of DownloadCompressedDirectory gets the
    result of the get and nothing else. When the get fails the method
    closes the write end of the pipe and returns that error without
    receiving from errorChannel; after a get that succeeds it receives from
    errorChannel before it returns. *)
Theorem download_xz_reports_the_get (E : env) (key root : string) (s : state)
    (obj : object) :
  ToLower (Ext key) = ".xz" ->
  open_err E = None ->
  remote s !! key = Some obj ->
  fst (DownloadCompressedDirectory E key root s) = Returns (get_err E)
  /\ (forall e, get_err E = Some e ->
        trace (snd (DownloadCompressedDirectory E key root s))
        = (trace s
           ++ [EvCodec; EvGo ConsumerStage; EvInstall (contexts s); EvGet key;
               EvCloseWriter (List.length (pipes s)); EvCancel])%list)
  /\ (get_err E = None ->
        trace (snd (DownloadCompressedDirectory E key root s))
        = (trace s
           ++ [EvCodec; EvGo ConsumerStage; EvInstall (contexts s); EvGet key;
               EvCloseWriter (List.length (pipes s)); EvRecv; EvCancel])%list).
Proof.
  intros Hext Hopen Hobj.
  pose proof (download_xz_run E key root s obj Hext Hopen Hobj) as H.
  cbv zeta in H.
  destruct (DownloadCompressedDirectory E key root s) as [o s1].
  destruct H as (Ho & Hl & Ht). cbn [fst snd].
  split; [exact Ho|]. split.
  - intros e He. rewrite He in Ht. exact Ht.
  - intros He. rewrite He in Ht. exact Ht.
Qed.

Lemma download_xz_reports_the_get_witness :
  let s := fresh_state "bucket" out_fs
             {[ "backup.xz" := ArchiveObject [mkFile "/root/a.txt" 420 "hi" None] EOF ]} in
  fst (DownloadCompressedDirectory failing_get_env "backup.xz" "out" s)
  = Returns (Some (ErrRemote "RequestError: send request failed"))
  /\ fst (DownloadCompressedDirectory scenario_env "backup.xz" "out" s) = Returns None.
Proof.
  cbv zeta. split.
  - apply (download_xz_reports_the_get failing_get_env "backup.xz" "out"
             (fresh_state "bucket" out_fs
                {[ "backup.xz" :=
                     ArchiveObject [mkFile "/root/a.txt" 420 "hi" None] EOF ]})
             (ArchiveObject [mkFile "/root/a.txt" 420 "hi" None] EOF));
      [reflexivity | reflexivity | vm_compute; reflexivity].
  - apply (download_xz_reports_the_get scenario_env "backup.xz" "out"
             (fresh_state "bucket" out_fs
                {[ "backup.xz" :=
                     ArchiveObject [mkFile "/root/a.txt" 420 "hi" None] EOF ]})
             (ArchiveObject [mkFile "/root/a.txt" 420 "hi" None] EOF));
      [reflexivity | reflexivity | vm_compute; reflexivity].
Defined.

(** *** UploadFile and DownloadFile *)

Lemma UploadFile_run (E : env) (localFile key : string) (s : state) :
  let '(o, s') := UploadFile E localFile key s in
  match flt E SysOpen localFile, local s !! localFile with
  | Some e, _ => o = Returns (Some e) /\ s' = set_trace (trace s ++ [EvOpen localFile])%list s
  | None, None =>
      o = Returns (Some ENOENT) /\ s' = set_trace (trace s ++ [EvOpen localFile])%list s
  | None, Some node =>
      trace s'
      = (trace s ++ [EvOpen localFile; EvInstall (contexts s); EvPut key; EvCancel])%list
      /\ local s' = local s
      /\ match put_err E, node with
         | Some e, _ => o = Returns (Some e) /\ remote s' = remote s
         | None, Directory _ => o = Returns (Some EISDIR) /\ remote s' = remote s
         | None, Regular _ content =>
             o = Returns None /\ remote s' = <[key := FileObject content]> (remote s)
         end
  end.
Proof.
  unfold UploadFile, os_Open, bind at 1. unfold bind at 1, emit.
  cbn [local set_trace].
  destruct (flt E SysOpen localFile) as [e|]; [now split|].
  destruct (local s !! localFile) as [[perm|perm content]|]; [| |now split];
    unfold bind, install_cancel, bind, context_WithCancel, emit, ret, defer, bind,
      UploadWithContext, bind, emit, ret, Cancel, bind, call_cancel, emit;
    destruct (put_err E); cbn; rewrite <- !app_assoc; repeat split.
Qed.


Lemma DownloadFile_run (E : env) (key localFile : string) (s : state) :
  let '(o, s') := DownloadFile E key localFile s in
  match os_Create (flt E) (local s) localFile with
  | (Some e, _) => o = Returns (Some e) /\ local s' = local s
  | (None, fs1) =>
      match remote s !! key with
      | None => (exists e, o = Returns (Some e)) /\ local s' = fs1
      | Some obj =>
          match get_err E with
          | Some e =>
              o = Returns (Some e)
              /\ local s' = file_append fs1 localFile
                              (string_take (get_bytes E) (object_bytes E obj))
          | None =>
              o = Returns None
              /\ local s' = file_append fs1 localFile (object_bytes E obj)
          end
      end
  end.
Proof.
  unfold DownloadFile. unfold bind at 1, emit. unfold bind at 1.
  cbn [local set_trace].
  assert (Hfs : forall e fs1, os_Create (flt E) (local s) localFile = (Some e, fs1) ->
                              fs1 = local s).
  { intros e fs1 Hc. pose proof (os_Create_error (flt E) (local s) localFile e) as H.
    rewrite Hc in H. now apply H. }
  destruct (os_Create (flt E) (local s) localFile) as [[e|] fs1] eqn:Hc.
  { cbn. split; [reflexivity|]. now apply (Hfs e). }
  unfold bind, install_cancel, bind, context_WithCancel, emit, ret, defer, bind,
    emit, ret, Cancel, bind, call_cancel, emit.
  cbn [remote set_trace set_sess set_contexts set_local fst snd].
  destruct (remote s !! key) as [obj|]; [destruct (get_err E) as [e|]|]; cbn;
    (split; [eauto | reflexivity]).
Qed.



(** X12: a file sent with UploadFile and fetched with DownloadFile arrives
    with the same bytes: when the source opens as a regular file, the
    destination can be created and neither the put nor the get fails, both
    calls return nil and the destination holds the content of the source. *)
Theorem file_round_trip (E : env) (src key dst : string) (s : state)
    (perm : Z) (content : string) :
  flt E SysOpen src = None ->
  local s !! src = Some (Regular perm content) ->
  put_err E = None -> get_err E = None ->
  fst (os_Create (flt E) (local s) dst) = None ->
  let up := UploadFile E src key s in
  let down := DownloadFile E key dst (snd up) in
  fst up = Returns None
  /\ fst down = Returns None
  /\ exists perm',
       local (snd down) = <[dst := Regular perm' content]> (local s).
Proof.
  intros Hopen Hsrc Hput Hget Hdst. cbv zeta.
  pose proof (UploadFile_run E src key s) as Hu.
  destruct (UploadFile E src key s) as [o s1]. cbn [fst snd] in *.
  rewrite Hopen, Hsrc, Hput in Hu. destruct Hu as (_ & Hloc & Ho & Hr).
  split; [exact Ho|].
  pose proof (DownloadFile_run E key dst s1) as Hd.
  destruct (DownloadFile E key dst s1) as [o2 s2]. cbn [fst snd].
  rewrite Hloc, Hr, lookup_insert_eq, Hget in Hd.
  destruct (os_Create_result (flt E) (local s) dst Hdst) as (perm' & Hfs & _).
  destruct (os_Create (flt E) (local s) dst) as [err fs1]. cbn [fst snd] in *.
  subst err fs1. destruct Hd as [Ho2 Hl2]. split; [exact Ho2|].
  exists perm'. rewrite Hl2. unfold file_append.
  rewrite lookup_insert_eq. cbn [object_bytes]. apply insert_insert_eq.
Qed.

Lemma file_round_trip_witness :
  let s := fresh_state "bucket" (<["notes.txt" := Regular 420 "draft"]> cwd_only) ∅ in
  let up := UploadFile scenario_env "notes.txt" "k" s in
  let down := DownloadFile scenario_env "k" "copy.txt" (snd up) in
  fst up = Returns None
  /\ fst down = Returns None
  /\ exists perm',
       local (snd down)
       = <["copy.txt" := Regular perm' "draft"]>
           (<["notes.txt" := Regular 420 "draft"]> cwd_only).
Proof.
  assert (H1 : local (fresh_state "bucket"
                        (<["notes.txt" := Regular 420 "draft"]> cwd_only) ∅)
               !! "notes.txt" = Some (Regular 420 "draft"))
    by (vm_compute; reflexivity).
  assert (H2 : fst (os_Create (flt scenario_env)
                      (local (fresh_state "bucket"
                                (<["notes.txt" := Regular 420 "draft"]> cwd_only) ∅))
                      "copy.txt") = None)
    by (vm_compute; reflexivity).
  exact (file_round_trip scenario_env "notes.txt" "k" "copy.txt"
           (fresh_state "bucket" (<["notes.txt" := Regular 420 "draft"]> cwd_only) ∅)
           420 "draft" eq_refl H1 eq_refl eq_refl H2).
Defined.

(** *** The walker goroutine: which error it ends with *)

(** X13: the walker goroutine of UploadCompressedDirectory archives nothing,
    for every directory, and this is the error it sends: the error of Lstat
    on the directory when that fails, else the error of reading the
    directory, else the error of os.Open on it, else "unexpected path" for
    the directory itself. *)
Theorem walker_stage_error (flt : faults) (lstat : string -> option tree)
    (write_err : File -> option error) (localDirectoy : string) :
  let at_root :=
    match flt SysOpen localDirectoy with
    | Some e => e
    | None => ErrUnexpectedPath localDirectoy
    end in
  walker_stage flt lstat write_err localDirectoy
  = (Some match flt SysLstat localDirectoy with
          | Some e => e
          | None =>
              match lstat localDirectoy with
              | None => ENOENT
              | Some (TFile _ _) => at_root
              | Some (TDir _ _) =>
                  match flt SysReadDir localDirectoy with
                  | Some e => e
                  | None => at_root
                  end
              end
          end, []).
Proof.
  cbv zeta. unfold walker_stage, filepath_Walk.
  assert (Hfn : forall info,
             walkFn flt write_err localDirectoy localDirectoy info None []
             = (Some match flt SysOpen localDirectoy with
                     | Some e => e
                     | None => ErrUnexpectedPath localDirectoy
                     end, [])).
  { intros info. unfold walkFn, customName_of.
    destruct (flt SysOpen localDirectoy); [reflexivity|].
    now rewrite TrimPrefix_self. }
  destruct (flt SysLstat localDirectoy) as [e|]; [reflexivity|].
  destruct (lstat localDirectoy) as [[p c|p cs]|]; [cbn [walk]; apply Hfn| |reflexivity].
  rewrite walk_dir_eq. cbv zeta.
  destruct (flt SysReadDir localDirectoy) as [e|] eqn:Hrd.
  - cbn [walkFn]. now rewrite (bool_decide_eq_true_2 (Some e <> None)) by discriminate.
  - rewrite Hfn.
    rewrite (bool_decide_eq_true_2 (Some _ <> None)) by discriminate.
    now rewrite orb_true_r.
Qed.

(** *** fakeWriterAt *)

Lemma string_length_app (a b : string) :
  String.length (a +:+ b) = (String.length a + String.length b)%nat.
Proof. induction a as [|c a IH]; [reflexivity|]. rewrite app_cons_s. simpl. now rewrite IH. Qed.

Lemma string_take_all (s : string) : string_take (String.length s) s = s.
Proof. induction s as [|c s IH]; [reflexivity|]. simpl. now rewrite IH. Qed.

Lemma string_drop_past (s : string) (k : nat) :
  string_drop (String.length s + k) s = "".
Proof.
  induction s as [|c s IH]; simpl; [now destruct k|]. exact IH.
Qed.

Lemma data_WriteAt_at_end (data p : string) :
  data_WriteAt data p (Z.of_nat (String.length data)) = data +:+ p.
Proof.
  unfold data_WriteAt. cbv zeta. rewrite Nat2Z.id, string_take_all, Nat.sub_diag.
  rewrite string_drop_past. cbn [zero_bytes].
  now rewrite app_nil_l_s, string_app_nil_r.
Qed.

Lemma fake_WriteAt_all_concat (calls : list (string * Z)) (stream : string) :
  fake_WriteAt_all calls stream = stream +:+ String.concat "" (map fst calls).
Proof.
  revert stream. induction calls as [|[p off] calls IH]; intros stream.
  - cbn. now rewrite string_app_nil_r.
  - cbn [fake_WriteAt_all map fst]. unfold WriteAt. rewrite IH, string_app_assoc.
    f_equal. destruct calls as [|c calls]; [cbn; now rewrite string_app_nil_r|].
    reflexivity.
Qed.

(** X14: fakeWriterAt hands the chunks to its writer in the order of the
    calls, whatever the offsets say. When every call starts where the one
    before ended, which is what one download goroutine gives, the reader of
    the pipe gets the bytes a writer that honours the offsets would hold. *)
Theorem fakeWriterAt_is_right_in_sequence (calls : list (string * Z)) (stream : string) :
  fake_WriteAt_all calls stream = stream +:+ String.concat "" (map fst calls)
  /\ (in_sequence (Z.of_nat (String.length stream)) calls ->
      fake_WriteAt_all calls stream = data_WriteAt_all calls stream).
Proof.
  split; [apply fake_WriteAt_all_concat|].
  revert stream. induction calls as [|[p off] calls IH]; intros stream Hseq;
    [reflexivity|].
  cbn [in_sequence] in Hseq. destruct Hseq as [-> Hseq].
  cbn [fake_WriteAt_all data_WriteAt_all]. unfold WriteAt.
  rewrite data_WriteAt_at_end. apply IH.
  now rewrite string_length_app, Nat2Z.inj_add.
Qed.

Lemma fakeWriterAt_is_right_in_sequence_witness :
  fake_WriteAt_all [("ab", 0%Z); ("cde", 2%Z); ("f", 5%Z)] "" = "abcdef"
  /\ data_WriteAt_all [("ab", 0%Z); ("cde", 2%Z); ("f", 5%Z)] "" = "abcdef"
  /\ fake_WriteAt_all [("cde", 2%Z); ("ab", 0%Z)] "" = "cdeab"
  /\ data_WriteAt_all [("cde", 2%Z); ("ab", 0%Z)] "" = "abcde".
Proof.
  assert (Hseq : in_sequence (Z.of_nat (String.length ""))
                   [("ab", 0%Z); ("cde", 2%Z); ("f", 5%Z)])
    by (cbn; repeat split).
  pose proof (proj2 (fakeWriterAt_is_right_in_sequence
                       [("ab", 0%Z); ("cde", 2%Z); ("f", 5%Z)] "") Hseq) as H.
  split; [reflexivity|]. split; [rewrite <- H; reflexivity|].
  split; reflexivity.
Defined.
